(** * pathroute: all-pairs shortest paths with via-neighbor alternates

    A shallow embedding of the Go packages [graph] (graph.go) and [floyd]
    (floyd.go), followed by the properties of the specification.

    Conventions of the embedding:
    - Go's [int] is taken as the 64-bit two's-complement integer of the usual
      targets.  Values are kept in [Z] and every addition of the source goes
      through [wadd], which wraps.  The distance theorems ask that the node
      count [fits]: below that size no sum of two finite distances wraps.
    - Loop counters and slice indices that the source only ever takes from
      [0 .. len-1] are [nat].  Reading a slice out of range panics in Go; the
      total accessors below return a default there, and every statement that
      depends on an access carries the well-formedness that keeps it in range.
    - A [map[string]bool] that is only ever set to [true] is a [gset string];
      [map[string]int] is a [gmap string nat].
    - Loops that update a slice in place are [fold_left]s over the index range
      threading the slice; loops that only append are [map]/[filter].
    - [collectPaths] recurses on data, not on structure, so its embedding
      counts down a fuel; [collectPaths_fuel_irrelevant] shows that the fuel
      it is given is never used up.

    Layout: the embedding, the vocabulary of the statements, then the proofs
    (loader, subgraph operation, walks, the distance recurrence and the
    in-place loops, path enumeration, the via-neighbor post-pass, self-loops,
    and the scenarios of the test suite). *)

From Stdlib Require Import ZArith List String Lia Permutation Sorted Bool.
From stdpp Require Import gmap strings list.
Import ListNotations.

Local Open Scope nat_scope.

(** ** Machine integers *)

Definition wrap (x : Z) : Z := ((x + 2 ^ 63) mod 2 ^ 64 - 2 ^ 63)%Z.

Definition wadd (a b : Z) : Z := wrap (a + b).

(** [const Inf = math.MaxInt] *)
Definition Inf : Z := (2 ^ 63 - 1)%Z.

Definition MaxShortestPaths : nat := 4.
Definition MaxViaNeighborPaths : nat := 3.

Definition MinWeight : Z := 1%Z.
Definition MaxWeight : Z := 1000%Z.

(** ** Package graph *)

Record Edge := mkEdge { e_From : string; e_To : string; e_Weight : Z }.

Record GraphJSON := mkGraphJSON { gj_Nodes : list string; gj_Edges : list Edge }.

Record Graph := mkGraph {
  Nodes : list string;
  NameToIndex : gmap string nat;
  AdjMatrix : list (list Z)
}.

(** [m[i][j]]; Go panics out of range, the default is never relied upon. *)
Definition mget (m : list (list Z)) (i j : nat) : Z := nth j (nth i m []) 0%Z.

(** [m[i][j] = v] *)
Definition mset (m : list (list Z)) (i j : nat) (v : Z) : list (list Z) :=
  <[i := <[j := v]> (nth i m [])]> m.

(** [make([][]int, N)] with every row [make([]int, N)] *)
Definition zero_matrix (N : nat) : list (list Z) := repeat (repeat 0%Z N) N.

Inductive error :=
| ErrWeightOutOfRange (e : Edge)
| ErrNoNodes.

Definition weight_out_of_range (e : Edge) : bool :=
  (e_Weight e <? MinWeight)%Z || (MaxWeight <? e_Weight e)%Z.

(** [if !seen[n] { seen[n] = true; nodes = append(nodes, n) }] *)
Definition add_node (st : list string * gset string) (n : string)
  : list string * gset string :=
  if bool_decide (n ∈ st.2) then st else (st.1 ++ [n], {[n]} ∪ st.2).

Definition add_edge_nodes (st : list string * gset string) (e : Edge)
  : list string * gset string :=
  fold_left add_node [e_From e; e_To e] st.

(** Stable order: first from Nodes, then any from edges. *)
Definition collect_nodes (gj : GraphJSON) : list string :=
  (fold_left add_edge_nodes (gj_Edges gj)
     (fold_left add_node (gj_Nodes gj) ([], ∅))).1.

(** [for i, n := range nodes { nameToIndex[n] = i }] *)
Definition index_map (nodes : list string) : gmap string nat :=
  fold_left (fun m (p : nat * string) => <[p.2 := p.1]> m)
            (combine (seq 0 (length nodes)) nodes) ∅.

(** [nameToIndex[s]]: a missing key reads as 0 *)
Definition idx_of (m : gmap string nat) (s : string) : nat := default 0 (m !! s).

Definition set_edge (nameToIndex : gmap string nat) (adj : list (list Z)) (e : Edge)
  : list (list Z) :=
  mset adj (idx_of nameToIndex (e_From e)) (idx_of nameToIndex (e_To e)) (e_Weight e).

(** The Go function returns a pair: the graph pointer and the error. *)
Definition NewFromStruct (gj : GraphJSON) : option Graph * option error :=
  match find weight_out_of_range (gj_Edges gj) with
  | Some e => (None, Some (ErrWeightOutOfRange e))
  | None =>
      let nodes := collect_nodes gj in
      if length nodes =? 0 then (None, Some ErrNoNodes)
      else
        let nameToIndex := index_map nodes in
        let N := length nodes in
        let adj := fold_left (set_edge nameToIndex) (gj_Edges gj) (zero_matrix N) in
        (Some (mkGraph nodes nameToIndex adj), None)
  end.

Definition NumNodes (g : Graph) : nat := length (Nodes g).

Definition Index (g : Graph) (name : string) : nat * bool :=
  match NameToIndex g !! name with
  | Some i => (i, true)
  | None => (0, false)
  end.

Definition Name (g : Graph) (i : nat) : string := nth i (Nodes g) ""%string.

Definition Weight (g : Graph) (i j : nat) : Z := mget (AdjMatrix g) i j.

Definition Neighbors (g : Graph) (i : nat) : list nat :=
  List.filter (fun j => (0 <? mget (AdjMatrix g) i j)%Z)
              (seq 0 (length (nth i (AdjMatrix g) []))).

(** First loop of [CopyWithoutNode]: the retained names and [oldToNew]. *)
Definition copy_step (g : Graph) (excludeIdx : nat)
  (st : list string * list Z) (i : nat) : list string * list Z :=
  if i =? excludeIdx then (st.1, <[i := (-1)%Z]> st.2)
  else (st.1 ++ [nth i (Nodes g) ""%string],
        <[i := Z.of_nat (length st.1)]> st.2).

Definition copy_cell (g : Graph) (excludeIdx : nat) (oldToNew : list Z) (i : nat)
  (adj : list (list Z)) (j : nat) : list (list Z) :=
  if (j =? excludeIdx) || (mget (AdjMatrix g) i j =? 0)%Z then adj
  else mset adj (Z.to_nat (nth i oldToNew 0%Z)) (Z.to_nat (nth j oldToNew 0%Z))
            (mget (AdjMatrix g) i j).

Definition copy_row (g : Graph) (excludeIdx : nat) (oldToNew : list Z) (oldN : nat)
  (adj : list (list Z)) (i : nat) : list (list Z) :=
  if i =? excludeIdx then adj
  else fold_left (copy_cell g excludeIdx oldToNew i) (seq 0 oldN) adj.

Definition CopyWithoutNode (g : Graph) (excludeIdx : nat) : Graph * list Z :=
  let oldN := NumNodes g in
  let st := fold_left (copy_step g excludeIdx) (seq 0 oldN) ([], repeat 0%Z oldN) in
  let newNodes := st.1 in
  let oldToNew := st.2 in
  let N := length newNodes in
  let adj := fold_left (copy_row g excludeIdx oldToNew oldN) (seq 0 oldN) (zero_matrix N) in
  (mkGraph newNodes (index_map newNodes) adj, oldToNew).

(** The receiver after the call, next to what the call returns: the body of
    [CopyWithoutNode] reads [g] and assigns only to its own fresh slices. *)
Definition CopyWithoutNode_call (g : Graph) (excludeIdx : nat)
  : Graph * (Graph * list Z) :=
  (g, CopyWithoutNode g excludeIdx).

(** ** Package floyd *)

Record PathDist := mkPathDist { Path : list string; pd_Distance : Z }.

Record PairResult := mkPairResult {
  From : string;
  To : string;
  Distance : Z;
  Paths : list (list string);
  ViaNeighborPaths : list PathDist
}.

Record AllPairsResult := mkAllPairsResult {
  Results : list PairResult;
  r_g : Graph;
  r_dist : list (list Z);
  r_pred : list (list (list nat))
}.

Definition init_cell (g : Graph) (i j : nat) : Z :=
  if i =? j then 0%Z
  else let w := Weight g i j in if (0 <? w)%Z then w else Inf.

Definition init_dist (g : Graph) (N : nat) : list (list Z) :=
  map (fun i => map (init_cell g i) (seq 0 N)) (seq 0 N).

(** Body of the innermost loop, on the slice as it is at that moment. *)
Definition relax_cell (k i : nat) (dist : list (list Z)) (j : nat) : list (list Z) :=
  if (mget dist k j =? Inf)%Z then dist
  else
    let d := wadd (mget dist i k) (mget dist k j) in
    if (d <? mget dist i j)%Z then mset dist i j d else dist.

Definition relax_row (N k : nat) (dist : list (list Z)) (i : nat) : list (list Z) :=
  if (mget dist i k =? Inf)%Z then dist
  else fold_left (relax_cell k i) (seq 0 N) dist.

Definition relax_k (N : nat) (dist : list (list Z)) (k : nat) : list (list Z) :=
  fold_left (relax_row N k) (seq 0 N) dist.

Definition floyd_dist (g : Graph) (N : nat) : list (list Z) :=
  fold_left (relax_k N) (seq 0 N) (init_dist g N).

Definition is_pred (g : Graph) (dist : list (list Z)) (i j m : nat) : bool :=
  negb (m =? i) &&
  (let w := Weight g m j in
   (0 <? w)%Z && negb (mget dist i m =? Inf)%Z
   && (wadd (mget dist i m) w =? mget dist i j)%Z).

Definition build_pred (g : Graph) (N : nat) (dist : list (list Z))
  : list (list (list nat)) :=
  map (fun i =>
         map (fun j =>
                if (i =? j) || (mget dist i j =? Inf)%Z then []
                else List.filter (is_pred g dist i j) (seq 0 N))
             (seq 0 N))
      (seq 0 N).

Definition pget (pred : list (list (list nat))) (i j : nat) : list nat :=
  nth j (nth i pred []) [].

Definition pathKey (path : list string) : string :=
  fold_left (fun s p => ((if String.eqb s "" then s else s +:+ "|") +:+ p)%string)
            path ""%string.

(** [key := pathKey(path)]; when [seen[key]] is unset, set it and append
    [path] to the output slice. *)
Definition emit (path : list string) (st : list (list string) * gset string)
  : list (list string) * gset string :=
  if bool_decide (pathKey path ∈ st.2) then st
  else (st.1 ++ [path], {[pathKey path]} ∪ st.2).

(** [collectPaths], threading the output slice and [seen].  The recursion of the source
    has no structural measure; [fuel] bounds its depth and
    [collectPaths_fuel_irrelevant] below shows that [path_fuel] is enough. *)
Fixpoint collectPaths (fuel : nat) (g : Graph) (dist : list (list Z))
  (pred : list (list (list nat))) (i j : nat) (suffix : list string)
  (st : list (list string) * gset string) (maxPaths : nat)
  : list (list string) * gset string :=
  match fuel with
  | 0 => st
  | S fuel' =>
      if maxPaths <=? length st.1 then st
      else if i =? j then emit (Name g i :: suffix) st
      else
        let w := Weight g i j in
        let st1 := if (0 <? w)%Z && (w =? mget dist i j)%Z
                   then emit (Name g i :: suffix) st else st in
        fold_left
          (fun st' m =>
             collectPaths fuel' g dist pred i m (Name g m :: suffix) st' maxPaths)
          (pget pred i j) st1
  end.

Definition path_fuel (dist : list (list Z)) (i j : nat) : nat :=
  S (Z.to_nat (mget dist i j)).

Definition enumeratePaths (g : Graph) (dist : list (list Z))
  (pred : list (list (list nat))) (i j : nat) (maxPaths : nat) : list (list string) :=
  if i =? j then [[Name g i]]
  else if (mget dist i j =? Inf)%Z then []
  else (collectPaths (path_fuel dist i j) g dist pred i j [Name g j] ([], ∅) maxPaths).1.

Definition pair_result (g : Graph) (dist : list (list Z))
  (pred : list (list (list nat))) (i j : nat) : PairResult :=
  if (mget dist i j =? Inf)%Z
  then mkPairResult (Name g i) (Name g j) (-1)%Z [] []
  else mkPairResult (Name g i) (Name g j) (mget dist i j)
         (enumeratePaths g dist pred i j MaxShortestPaths) [].

Definition RunFloyd (g : Graph) : AllPairsResult :=
  let N := NumNodes g in
  let dist := floyd_dist g N in
  let pred := build_pred g N dist in
  let results :=
    flat_map (fun i => map (fun j => pair_result g dist pred i j) (seq 0 N)) (seq 0 N) in
  mkAllPairsResult results g dist pred.

Definition runFloydOnSubgraph (g : Graph) : list (list Z) * list (list (list nat)) :=
  let n := NumNodes g in
  let dist := floyd_dist g n in
  (dist, build_pred g n dist).

Definition enumeratePathsOnSub (g : Graph) (dist : list (list Z))
  (pred : list (list (list nat))) (i j : nat) (maxPaths : nat) : list (list string) :=
  if i =? j then [[Name g i]]
  else if (mget dist i j =? Inf)%Z then []
  else (collectPaths (path_fuel dist i j) g dist pred i j [Name g j] ([], ∅) maxPaths).1.

(** *** dedupPathsByKey *)

Definition dflt_pd : PathDist := mkPathDist [] 0%Z.

(** [candidates[i], candidates[j] = candidates[j], candidates[i]] *)
Definition swap (c : list PathDist) (i j : nat) : list PathDist :=
  <[j := nth i c dflt_pd]> (<[i := nth j c dflt_pd]> c).

Definition sort_cell (i : nat) (c : list PathDist) (j : nat) : list PathDist :=
  if (pd_Distance (nth j c dflt_pd) <? pd_Distance (nth i c dflt_pd))%Z
  then swap c i j else c.

Definition sort_row (c : list PathDist) (i : nat) : list PathDist :=
  fold_left (sort_cell i) (seq (S i) (length c - S i)) c.

(** The "simple sort by distance" of the source. *)
Definition sort_by_distance (c : list PathDist) : list PathDist :=
  fold_left sort_row (seq 0 (length c)) c.

(** The second loop, with its [break]. *)
Fixpoint dedup_loop (max : nat) (cs : list PathDist)
  (result : list PathDist) (seen : gset string) : list PathDist :=
  match cs with
  | [] => result
  | c :: cs' =>
      if max <=? length result then result
      else if bool_decide (pathKey (Path c) ∈ seen) then dedup_loop max cs' result seen
      else dedup_loop max cs' (result ++ [c]) ({[pathKey (Path c)]} ∪ seen)
  end.

Definition dedupPathsByKey (candidates : list PathDist) (max : nat) : list PathDist :=
  if length candidates =? 0 then []
  else dedup_loop max (sort_by_distance candidates) [] ∅.

(** *** FillViaNeighborPaths *)

(** One neighbor's contribution to [candidates]. *)
Definition via_step (g sub : Graph) (oldToNew : list Z) (subDist : list (list Z))
  (subPred : list (list (list nat))) (fromIdx : nat) (newTo : Z)
  (candidates : list PathDist) (nb : nat) : list PathDist :=
  let wSN := Weight g fromIdx nb in
  let newNb := nth nb oldToNew 0%Z in
  if (newNb <? 0)%Z then candidates
  else if (mget subDist (Z.to_nat newNb) (Z.to_nat newTo) =? Inf)%Z then candidates
  else
    let d := wadd wSN (mget subDist (Z.to_nat newNb) (Z.to_nat newTo)) in
    let paths := enumeratePathsOnSub sub subDist subPred (Z.to_nat newNb)
                   (Z.to_nat newTo) MaxViaNeighborPaths in
    candidates ++ map (fun p => mkPathDist (Name g fromIdx :: p) d) paths.

(** The pooled candidates of the pair (fromIdx, toIdx), in generation order. *)
Definition via_candidates (g sub : Graph) (oldToNew : list Z) (subDist : list (list Z))
  (subPred : list (list (list nat))) (neighbors : list nat) (fromIdx : nat) (newTo : Z)
  : list PathDist :=
  fold_left (via_step g sub oldToNew subDist subPred fromIdx newTo) neighbors [].

(** [pr.ViaNeighborPaths = v] *)
Definition with_via (pr : PairResult) (v : list PathDist) : PairResult :=
  mkPairResult (From pr) (To pr) (Distance pr) (Paths pr) v.

(** The write-back loop: the first entry with these names, then [break]. *)
Fixpoint set_via (rs : list PairResult) (fromName toName : string)
  (dedup : list PathDist) : list PairResult :=
  match rs with
  | [] => []
  | pr :: rs' =>
      if String.eqb (From pr) fromName && String.eqb (To pr) toName
      then with_via pr dedup :: rs'
      else pr :: set_via rs' fromName toName dedup
  end.

Definition fill_to (g sub : Graph) (oldToNew : list Z) (subDist : list (list Z))
  (subPred : list (list (list nat))) (neighbors : list nat) (fromIdx : nat)
  (rs : list PairResult) (toIdx : nat) : list PairResult :=
  if toIdx =? fromIdx then rs
  else
    let newTo := nth toIdx oldToNew 0%Z in
    if (newTo <? 0)%Z then rs
    else
      let candidates :=
        via_candidates g sub oldToNew subDist subPred neighbors fromIdx newTo in
      let dedup := dedupPathsByKey candidates MaxViaNeighborPaths in
      set_via rs (Name g fromIdx) (Name g toIdx) dedup.

Definition fill_from (g : Graph) (N : nat) (rs : list PairResult) (fromIdx : nat)
  : list PairResult :=
  let neighbors := Neighbors g fromIdx in
  if length neighbors =? 0 then rs
  else
    let sub := (CopyWithoutNode g fromIdx).1 in
    let oldToNew := (CopyWithoutNode g fromIdx).2 in
    let subDist := (runFloydOnSubgraph sub).1 in
    let subPred := (runFloydOnSubgraph sub).2 in
    fold_left (fill_to g sub oldToNew subDist subPred neighbors fromIdx) (seq 0 N) rs.

Definition FillViaNeighborPaths (r : AllPairsResult) : AllPairsResult :=
  let g := r_g r in
  let N := NumNodes g in
  mkAllPairsResult (fold_left (fill_from g N) (seq 0 N) (Results r))
                   (r_g r) (r_dist r) (r_pred r).

(** * Specification vocabulary *)

(** The range of a Go [int]. *)
Definition in_int (x : Z) : Prop := (- 2 ^ 63 <= x < 2 ^ 63)%Z.

(** A matrix with [N] rows of [N] cells each. *)
Definition square (N : nat) (m : list (list Z)) : Prop :=
  length m = N /\ forall i, i < N -> length (nth i m []) = N.

(** Declared nodes plus edge endpoints, in the order the loader meets them. *)
Definition endpoints (e : Edge) : list string := [e_From e; e_To e].

Definition all_names (gj : GraphJSON) : list string :=
  gj_Nodes gj ++ flat_map endpoints (gj_Edges gj).

Definition weight_ok (e : Edge) : Prop := (1 <= e_Weight e <= 1000)%Z.

(** The inputs the specification says are refused. *)
Definition rejected (gj : GraphJSON) : Prop :=
  (exists e, e ∈ gj_Edges gj /\ ~ weight_ok e) \/ all_names gj = [].

(** What every graph store handed to the engine satisfies. *)
Definition wf_graph (g : Graph) : Prop :=
  NoDup (Nodes g) /\
  square (NumNodes g) (AdjMatrix g) /\
  (forall i j, (0 <= Weight g i j <= 1000)%Z) /\
  NameToIndex g = index_map (Nodes g).

(** Loop invariant of the node collection: [seen] is the set of [nodes]. *)
Definition nodes_inv (st : list string * gset string) : Prop :=
  NoDup st.1 /\ forall x, x ∈ st.2 <-> x ∈ st.1.

(** Index bookkeeping of the subgraph without node [x]: an original index
    [i <> x] moves to [new_index x i], and slot [a] of the subgraph holds the
    original node [old_index x a]. *)
Definition new_index (x i : nat) : nat := if i <? x then i else i - 1.

Definition old_index (x a : nat) : nat := if a <? x then a else S a.

Definition retained (x : nat) (l : list nat) : list nat :=
  List.filter (fun i => negb (i =? x)) l.

(** *** Directed walks

    [walk w i p j]: starting at [i] and visiting the vertices of [p] in turn,
    each step along an edge of positive weight, one ends at [j].  The empty
    walk stays at [i]. *)
Fixpoint walk (w : nat -> nat -> Z) (i : nat) (p : list nat) (j : nat) : Prop :=
  match p with
  | [] => i = j
  | m :: p' => (0 < w i m)%Z /\ walk w m p' j
  end.

Fixpoint walk_weight (w : nat -> nat -> Z) (i : nat) (p : list nat) : Z :=
  match p with
  | [] => 0%Z
  | m :: p' => (w i m + walk_weight w m p')%Z
  end.

(** The vertices strictly between the two ends of the walk [i], [p]. *)
Definition inner (p : list nat) : list nat := removelast p.

(** One relaxation of a cell, as the loop body does it: [x] is [dist[i][j]],
    [a] is [dist[i][k]] and [b] is [dist[k][j]]. *)
Definition relax (x a b : Z) : Z :=
  if (a =? Inf)%Z then x
  else if (b =? Inf)%Z then x
  else let d := wadd a b in if (d <? x)%Z then d else x.

(** The matrix after the first [k] rounds, cell by cell: the recurrence the
    in-place loop is shown to compute ([floyd_dist_fw]). *)
Fixpoint fw (w : nat -> nat -> Z) (k : nat) (i j : nat) : Z :=
  match k with
  | 0 => if i =? j then 0%Z else if (0 <? w i j)%Z then w i j else Inf
  | S k' => relax (fw w k' i j) (fw w k' i k') (fw w k' k' j)
  end.

(** After [k] rounds every finite cell is the weight of a walk whose inner
    vertices are below [k] ... *)
Definition fw_sound (w : nat -> nat -> Z) (k : nat) : Prop :=
  forall i j, fw w k i j <> Inf ->
    exists p, walk w i p j /\ Forall (fun v => v < k) (inner p) /\
              walk_weight w i p = fw w k i j.

(** ... and no such walk is lighter than the cell. *)
Definition fw_complete (w : nat -> nat -> Z) (k : nat) : Prop :=
  forall i p j, walk w i p j -> Forall (fun v => v < k) (inner p) ->
    fw w k i j <> Inf /\ (fw w k i j <= walk_weight w i p)%Z.

(** The graphs the 64-bit engine is exact on: sums of two finite distances
    stay below [Inf]. *)
Definition fits (N : nat) : Prop := (2000 * Z.of_nat N < Inf)%Z.

(** The slice [dist] in round [k], once rows below [i] and the first [n]
    cells of row [i] have been visited. *)
Definition round_state (w : nat -> nat -> Z) (N k : nat) (d : list (list Z))
  (i n : nat) : Prop :=
  square N d /\
  forall a b, a < N -> b < N ->
    mget d a b = if decide (a < i \/ (a = i /\ b < n))
                 then fw w (S k) a b else fw w k a b.

Definition dflt_pr : PairResult := mkPairResult "" "" 0%Z [] [].

(** The entry of [Results] for the ordered pair of node indices [(i, j)]:
    the double loop appends them row by row. *)
Definition pair_at (rs : list PairResult) (N i j : nat) : PairResult :=
  nth (i * N + j) rs dflt_pr.

(** [j] can be reached from [i] along edges of the graph. *)
Definition reachable (g : Graph) (i j : nat) : Prop :=
  exists p, walk (Weight g) i p j.

(** *** Path enumeration *)

(** What the predecessor lists promise: each [m] in [pred[i][j]] is another
    node with an edge into [j] that closes a shortest way from [i]. *)
Definition pred_ok (g : Graph) (N : nat) (dist : list (list Z))
  (pred : list (list (list nat))) : Prop :=
  forall i j m, i < N -> j < N -> m ∈ pget pred i j ->
    m < N /\ m <> i /\ (0 < Weight g m j)%Z /\ (0 <= mget dist i m)%Z /\
    (mget dist i m + Weight g m j = mget dist i j)%Z.

(** The names of a simple walk from [i] to [j] whose weight is [dist[i][j]]. *)
Definition shortest_path_names (g : Graph) (N : nat) (dist : list (list Z))
  (i j : nat) (names : list string) : Prop :=
  exists p, names = map (Name g) (i :: p) /\ walk (Weight g) i p j /\
            NoDup (i :: p) /\ Forall (fun v => v < N) (i :: p) /\
            walk_weight (Weight g) i p = mget dist i j.

(** The suffix carried by [collectPaths] at node [j] on the way back from
    [J] towards [i]. *)
Definition suffix_ok (g : Graph) (N : nat) (dist : list (list Z))
  (i J j : nat) (suffix : list string) : Prop :=
  i <> j /\ i < N /\
  exists q, suffix = map (Name g) (j :: q) /\ walk (Weight g) j q J /\
            NoDup (j :: q) /\ (i ∉ q) /\ Forall (fun v => v < N) (j :: q) /\
            (forall v, v ∈ q -> (mget dist i j < mget dist i v)%Z) /\
            (walk_weight (Weight g) j q + mget dist i j = mget dist i J)%Z.

(** The accumulator of [collectPaths]: only shortest simple paths, no path
    twice, and [seen] holds the key of every path emitted. *)
Definition out_ok (g : Graph) (N : nat) (dist : list (list Z)) (i J : nat)
  (st : list (list string) * gset string) : Prop :=
  Forall (shortest_path_names g N dist i J) st.1 /\ NoDup st.1 /\
  forall p, p ∈ st.1 -> pathKey p ∈ st.2.

(** *** Results *)

(** The fields of an entry that [FillViaNeighborPaths] has no business with. *)
Definition primary (pr : PairResult) : string * string * Z * list (list string) :=
  (From pr, To pr, Distance pr, Paths pr).

Definition by_distance (a b : PathDist) : Prop := (pd_Distance a <= pd_Distance b)%Z.

(** [candidates[k].Distance] *)
Definition dist_at (c : list PathDist) (k : nat) : Z := pd_Distance (nth k c dflt_pd).

(** The candidates [FillViaNeighborPaths] pools for the pair
    [(fromIdx, toIdx)], in the order it generates them. *)
Definition pair_candidates (g : Graph) (fromIdx toIdx : nat) : list PathDist :=
  let sub := (CopyWithoutNode g fromIdx).1 in
  let oldToNew := (CopyWithoutNode g fromIdx).2 in
  via_candidates g sub oldToNew (runFloydOnSubgraph sub).1 (runFloydOnSubgraph sub).2
    (Neighbors g fromIdx) fromIdx (nth toIdx oldToNew 0%Z).

(** What ends up in [ViaNeighborPaths] of the pair [(i, j)]. *)
Definition via_for (g : Graph) (i j : nat) : list PathDist :=
  if (j =? i) || (length (Neighbors g i) =? 0) then []
  else dedupPathsByKey (pair_candidates g i j) MaxViaNeighborPaths.

(** The entry that matches the names searched by the write-back loop. *)
Definition names_match (fromName toName : string) (pr : PairResult) : bool :=
  String.eqb (From pr) fromName && String.eqb (To pr) toName.

(** [Results] while [FillViaNeighborPaths] runs, once the sources below [n]
    and, for source [n], the destinations below [m] have been handled. *)
Definition fill_state (g : Graph) (n m : nat) (rs : list PairResult) : Prop :=
  let N := NumNodes g in
  let dist := floyd_dist g N in
  let pred := build_pred g N dist in
  length rs = N * N /\
  forall a b, a < N -> b < N ->
    pair_at rs N a b =
    with_via (pair_result g dist pred a b)
             (if decide (a < n \/ (a = n /\ b < m)) then via_for g a b else []).

(** [Results] once [FillViaNeighborPaths] is through: every entry is the
    primary result of its pair with the via-neighbor list of that pair. *)
Definition filled (g : Graph) (rs : list PairResult) : Prop :=
  let N := NumNodes g in
  let dist := floyd_dist g N in
  let pred := build_pred g N dist in
  length rs = N * N /\
  forall a b, a < N -> b < N ->
    pair_at rs N a b = with_via (pair_result g dist pred a b) (via_for g a b).

(** The order the specification asks of the final list: two entries of equal
    distance stand in [final] as they stood among the generated [cands]. *)
Definition keeps_generation_order (cands final : list PathDist) : Prop :=
  forall ia ib a b,
    final !! ia = Some a -> final !! ib = Some b -> ia < ib ->
    pd_Distance a = pd_Distance b ->
    exists ja jb, cands !! ja = Some a /\ cands !! jb = Some b /\ ja < jb.

(** Scenario A of the specification (TestFloyd_ThreeNodes). *)
Definition scenario_A : GraphJSON :=
  mkGraphJSON ["A"; "B"; "C"]%string
    [mkEdge "A" "B" 50; mkEdge "B" "A" 80; mkEdge "A" "C" 100; mkEdge "B" "C" 20]%string.

(** Two equal-length ways through the first neighbor, a shorter way through
    the second. *)
Definition two_ties_input : GraphJSON :=
  mkGraphJSON ["S"; "N1"; "N2"; "X"; "Y"; "D"]%string
    [mkEdge "S" "N1" 1; mkEdge "S" "N2" 1; mkEdge "N1" "X" 1; mkEdge "N1" "Y" 1;
     mkEdge "X" "D" 1; mkEdge "Y" "D" 1; mkEdge "N2" "D" 1]%string.

(** Two graph stores on the same nodes whose adjacency can differ only on
    the diagonal, that is, in which self-loops they carry. *)
Definition off_diagonal_eq (g g' : Graph) : Prop :=
  Nodes g' = Nodes g /\ forall a b, a <> b -> Weight g' a b = Weight g a b.

(** The store with a self-loop of weight [w] on node [x]: the cell that the
    loader's [adj[from][to] = e.Weight] writes for an edge from [x] to [x]. *)
Definition with_self_loop (g : Graph) (x : nat) (w : Z) : Graph :=
  mkGraph (Nodes g) (NameToIndex g) (mset (AdjMatrix g) x x w).

(** The graph the loader builds from an input it accepts (for the worked
    examples; an empty store stands in for a refused input). *)
Definition loaded (gj : GraphJSON) : Graph :=
  match (NewFromStruct gj).1 with
  | Some g => g
  | None => mkGraph [] ∅ []
  end.

Definition graph_A : Graph := loaded scenario_A.

(** The entry of [RunFloyd] on Scenario A for the pair (A, C). *)
Definition pair_AC : PairResult :=
  pair_at (Results (RunFloyd graph_A)) (NumNodes graph_A) 0 2.

(** *** The inputs of the test suite *)

(** [findResult] of the tests: the first entry with these names. *)
Definition findResult (rs : list PairResult) (fromName toName : string)
  : option PairResult :=
  find (names_match fromName toName) rs.

(** [RunFloyd] then [FillViaNeighborPaths] on the graph loaded from [gj]. *)
Definition all_results (gj : GraphJSON) : list PairResult :=
  Results (FillViaNeighborPaths (RunFloyd (loaded gj))).

(** TestFloyd_TwoEqualPaths (Scenario B) *)
Definition scenario_B : GraphJSON :=
  mkGraphJSON ["A"; "C"; "D"; "E"; "F"]%string
    [mkEdge "A" "C" 10; mkEdge "A" "E" 10; mkEdge "C" "D" 10; mkEdge "E" "D" 10;
     mkEdge "D" "F" 10]%string.

(** TestFloyd_Unreachable (Scenario C) *)
Definition scenario_C : GraphJSON :=
  mkGraphJSON ["A"; "B"]%string [mkEdge "A" "B" 1]%string.

(** TestFillViaNeighborPaths (Scenario D) *)
Definition scenario_D : GraphJSON :=
  mkGraphJSON ["A"; "B"; "C"; "D"]%string
    [mkEdge "A" "B" 10; mkEdge "A" "C" 10; mkEdge "B" "D" 10; mkEdge "C" "D" 10]%string.

(** TestViaNeighbor_StartHasNoOutEdges (Scenario E) *)
Definition scenario_E : GraphJSON :=
  mkGraphJSON ["A"; "B"]%string [mkEdge "B" "A" 10]%string.

(** TestFloyd_MaxFourPaths *)
Definition three_ways : GraphJSON :=
  mkGraphJSON ["A"; "B"; "C"; "D"; "E"]%string
    [mkEdge "A" "B" 1; mkEdge "A" "C" 1; mkEdge "A" "D" 1;
     mkEdge "B" "E" 1; mkEdge "C" "E" 1; mkEdge "D" "E" 1]%string.

(** TestNewFromStruct_NodesFromEdges *)
Definition nodes_from_edges : GraphJSON :=
  mkGraphJSON [] [mkEdge "X" "Y" 10; mkEdge "Y" "Z" 20]%string.

(** *** Path keys *)

(** A string without the separator that [pathKey] puts between names. *)
Fixpoint bar_free (s : string) : Prop :=
  match s with
  | EmptyString => True
  | String c s' => String c EmptyString <> "|"%string /\ bar_free s'
  end.

(** A node name that [pathKey] renders unambiguously. *)
Definition plain_name (s : string) : Prop := s <> ""%string /\ bar_free s.

(** What [pathKey] appends after the first name. *)
Fixpoint key_tail (l : list string) : string :=
  match l with
  | [] => ""%string
  | y :: l' => ("|" +:+ y +:+ key_tail l')%string
  end.

(** The predecessor lists miss no node that closes a shortest way from [i]. *)
Definition pred_complete (g : Graph) (N : nat) (dist : list (list Z))
  (pred : list (list (list nat))) (i : nat) : Prop :=
  forall j m, j < N -> m < N -> i <> j -> m <> i ->
    (0 < Weight g m j)%Z -> mget dist i m <> Inf ->
    (mget dist i m + Weight g m j = mget dist i j)%Z -> m ∈ pget pred i j.

(** Row [i] of [dist] holds least walk weights from [i]. *)
Definition row_shortest (g : Graph) (dist : list (list Z)) (i : nat) : Prop :=
  (forall p j, walk (Weight g) i p j ->
     mget dist i j <> Inf /\ (0 <= mget dist i j <= walk_weight (Weight g) i p)%Z) /\
  (forall m j, mget dist i m <> Inf -> (0 < Weight g m j)%Z ->
     (mget dist i j <= mget dist i m + Weight g m j)%Z).

(** * Proof automation *)

(** Boolean tests of the source, as propositions. *)
Ltac bool_to_prop :=
  repeat match goal with
    | H : (_ =? _) = true |- _ => apply Nat.eqb_eq in H
    | H : (_ =? _) = false |- _ => apply Nat.eqb_neq in H
    | H : (_ <? _) = true |- _ => apply Nat.ltb_lt in H
    | H : (_ <? _) = false |- _ => apply Nat.ltb_ge in H
    | H : (_ <=? _) = true |- _ => apply Nat.leb_le in H
    | H : (_ <=? _) = false |- _ => apply Nat.leb_gt in H
    | H : (_ =? _)%Z = true |- _ => apply Z.eqb_eq in H
    | H : (_ =? _)%Z = false |- _ => apply Z.eqb_neq in H
    | H : (_ <? _)%Z = true |- _ => apply Z.ltb_lt in H
    | H : (_ <? _)%Z = false |- _ => apply Z.ltb_ge in H
    | H : (_ || _) = true |- _ => apply orb_true_iff in H
    | H : (_ || _) = false |- _ => apply orb_false_iff in H; destruct H
    | H : (_ && _) = true |- _ => apply andb_true_iff in H; destruct H
    | H : (_ && _) = false |- _ => apply andb_false_iff in H
    | H : negb _ = true |- _ => apply negb_true_iff in H
    | H : negb _ = false |- _ => apply negb_false_iff in H
    end.

(** * Properties *)

(** ** Machine integers *)

Lemma wrap_small x : in_int x -> wrap x = x.
Proof.
  unfold in_int, wrap. intros H.
  rewrite Z.mod_small by lia. lia.
Qed.

Lemma wrap_in_int x : in_int (wrap x).
Proof.
  unfold in_int, wrap.
  pose proof (Z.mod_pos_bound (x + 2 ^ 63) (2 ^ 64) ltac:(lia)). lia.
Qed.

Lemma wadd_small a b : in_int (a + b) -> wadd a b = (a + b)%Z.
Proof. apply wrap_small. Qed.

(** Adding a weight in [1, 1000] never gives back the same machine integer. *)
Lemma wadd_weight_ne a w : in_int a -> (0 < w <= 1000)%Z -> wadd a w <> a.
Proof.
  unfold in_int, wadd, wrap. intros Ha Hw Heq.
  pose proof (Z.div_mod (a + w + 2 ^ 63) (2 ^ 64) ltac:(lia)) as Hdm.
  pose proof (Z.mod_pos_bound (a + w + 2 ^ 63) (2 ^ 64) ltac:(lia)) as Hb.
  assert (((a + w + 2 ^ 63) / 2 ^ 64 = 0 \/ (a + w + 2 ^ 63) / 2 ^ 64 = 1)%Z) as [Hq|Hq].
  { assert (0 <= (a + w + 2 ^ 63) / 2 ^ 64 < 2)%Z; [|lia].
    split; [apply Z.div_pos; lia | apply Z.div_lt_upper_bound; lia]. }
  all: rewrite Hq in Hdm; lia.
Qed.

Lemma Inf_in_int : in_int Inf.
Proof. unfold in_int, Inf. lia. Qed.

(** ** Slices *)

Lemma nth_insert_eq {A} (l : list A) i x d :
  i < length l -> nth i (<[i := x]> l) d = x.
Proof. intros H. rewrite nth_lookup, list_lookup_insert_eq; auto. Qed.

Lemma nth_insert_ne {A} (l : list A) i j x d :
  i <> j -> nth j (<[i := x]> l) d = nth j l d.
Proof. intros H. rewrite !nth_lookup, list_lookup_insert_ne; auto. Qed.

Lemma mget_mset_eq m i j v :
  i < length m -> j < length (nth i m []) -> mget (mset m i j v) i j = v.
Proof.
  intros Hi Hj. unfold mget, mset.
  rewrite nth_insert_eq by done. by rewrite nth_insert_eq.
Qed.

Lemma mget_mset_ne m i j v i' j' :
  (i', j') <> (i, j) -> mget (mset m i j v) i' j' = mget m i' j'.
Proof.
  intros Hne. unfold mget, mset.
  destruct (decide (i = i')) as [->|Hi].
  - destruct (decide (i' < length m)) as [Hlt|Hge].
    + rewrite nth_insert_eq by done. apply nth_insert_ne. congruence.
    + rewrite list_insert_ge by lia. done.
  - by rewrite nth_insert_ne.
Qed.

Lemma mget_mset m i j v i' j' :
  i < length m -> j < length (nth i m []) ->
  mget (mset m i j v) i' j' = if decide ((i', j') = (i, j)) then v else mget m i' j'.
Proof.
  intros Hi Hj. case_decide as Heq.
  - inversion Heq; subst. by apply mget_mset_eq.
  - by apply mget_mset_ne.
Qed.

Lemma square_mset N m i j v : square N m -> square N (mset m i j v).
Proof.
  intros [Hlen Hrows]. unfold mset. split.
  - by rewrite length_insert.
  - intros i' Hi'. destruct (decide (i = i')) as [->|Hne].
    + rewrite nth_insert_eq by lia. rewrite length_insert. auto.
    + rewrite nth_insert_ne by done. auto.
Qed.

Lemma nth_repeat_lt {A} (x d : A) n i : i < n -> nth i (repeat x n) d = x.
Proof.
  revert i. induction n as [|n IH]; intros [|i] Hi; simpl; try lia; auto.
  apply IH. lia.
Qed.

Lemma square_zero_matrix N : square N (zero_matrix N).
Proof.
  unfold zero_matrix. split.
  - apply repeat_length.
  - intros i Hi. rewrite nth_repeat_lt by done. apply repeat_length.
Qed.

Lemma mget_zero_matrix N i j : mget (zero_matrix N) i j = 0%Z.
Proof.
  unfold mget, zero_matrix.
  destruct (decide (i < N)) as [Hi|Hi].
  - rewrite nth_repeat_lt by done.
    destruct (decide (j < N)) as [Hj|Hj].
    + by rewrite nth_repeat_lt.
    + apply nth_overflow. rewrite repeat_length. lia.
  - rewrite (nth_overflow (repeat _ _)) by (rewrite repeat_length; lia).
    by destruct j.
Qed.

(** Two square matrices with the same cells are the same slice of slices. *)
Lemma square_ext N m1 m2 :
  square N m1 -> square N m2 ->
  (forall i j, i < N -> j < N -> mget m1 i j = mget m2 i j) -> m1 = m2.
Proof.
  intros [L1 R1] [L2 R2] Hc.
  apply (nth_ext _ _ [] []); [congruence|].
  intros i Hi. rewrite L1 in Hi.
  apply (nth_ext _ _ 0%Z 0%Z); [rewrite R1, R2; auto|].
  intros j Hj. rewrite R1 in Hj by done. by apply Hc.
Qed.

Lemma fold_left_seq_S {A} (f : A -> nat -> A) a n x :
  fold_left f (seq a (S n)) x = f (fold_left f (seq a n) x) (a + n).
Proof. rewrite seq_S, fold_left_app. done. Qed.
(** ** Graph store: loading *)

Lemma add_node_seen st n : n ∈ st.2 -> add_node st n = st.
Proof. intros H. unfold add_node. by rewrite bool_decide_eq_true_2. Qed.

Lemma add_node_inv st n :
  nodes_inv st ->
  nodes_inv (add_node st n) /\
  (forall x, x ∈ (add_node st n).1 <-> x ∈ st.1 \/ x = n).
Proof.
  intros [Hnd Hseen]. unfold add_node. case_bool_decide as Hin.
  - split; [by split|]. intros x. split; [auto|].
    intros [?| ->]; [done|]. by apply Hseen.
  - cbn [fst snd]. split; [split|].
    + apply NoDup_app. split; [done|]. split; [|apply NoDup_singleton].
      intros x Hx Hx'. apply list_elem_of_singleton in Hx'. subst.
      apply Hin. by apply Hseen.
    + intros x. cbn [fst snd]. rewrite elem_of_union, elem_of_singleton, elem_of_app,
        list_elem_of_singleton, Hseen. tauto.
    + intros x. cbn [fst snd]. rewrite elem_of_app, list_elem_of_singleton. tauto.
Qed.

Lemma fold_add_node_inv l st :
  nodes_inv st ->
  nodes_inv (fold_left add_node l st) /\
  (forall x, x ∈ (fold_left add_node l st).1 <-> x ∈ st.1 \/ x ∈ l).
Proof.
  revert st. induction l as [|n l IH]; intros st Hinv; simpl.
  - split; [done|]. intros x. rewrite elem_of_nil. tauto.
  - destruct (add_node_inv st n Hinv) as [Hinv' Hel].
    destruct (IH _ Hinv') as [Hinv'' Hel'].
    split; [done|]. intros x. rewrite Hel', Hel, elem_of_cons. tauto.
Qed.

Lemma fold_add_edge_nodes_inv es st :
  nodes_inv st ->
  nodes_inv (fold_left add_edge_nodes es st) /\
  (forall x, x ∈ (fold_left add_edge_nodes es st).1 <->
             x ∈ st.1 \/ x ∈ flat_map endpoints es).
Proof.
  revert st. induction es as [|e es IH]; intros st Hinv; simpl.
  - split; [done|]. intros x. rewrite elem_of_nil. tauto.
  - destruct (fold_add_node_inv [e_From e; e_To e] st Hinv) as [Hinv' Hel].
    destruct (IH _ Hinv') as [Hinv'' Hel'].
    split; [done|]. intros x. unfold add_edge_nodes at 2. rewrite Hel', Hel.
    rewrite !elem_of_cons, elem_of_nil. tauto.
Qed.

Lemma nodes_inv_init : nodes_inv ([], ∅).
Proof. split; [constructor|]. intros x. simpl. rewrite elem_of_nil. set_solver. Qed.

Lemma collect_nodes_NoDup gj : NoDup (collect_nodes gj).
Proof.
  unfold collect_nodes.
  destruct (fold_add_node_inv (gj_Nodes gj) _ nodes_inv_init) as [H1 _].
  by destruct (fold_add_edge_nodes_inv (gj_Edges gj) _ H1) as [[H2 _] _].
Qed.

Lemma elem_of_collect_nodes gj x : x ∈ collect_nodes gj <-> x ∈ all_names gj.
Proof.
  unfold collect_nodes, all_names.
  destruct (fold_add_node_inv (gj_Nodes gj) _ nodes_inv_init) as [H1 E1].
  destruct (fold_add_edge_nodes_inv (gj_Edges gj) _ H1) as [_ E2].
  rewrite E2, E1, elem_of_app. simpl. rewrite elem_of_nil. tauto.
Qed.

Lemma collect_nodes_nil gj : collect_nodes gj = [] <-> all_names gj = [].
Proof.
  split; intros H.
  - destruct (all_names gj) as [|x l] eqn:E; [done|].
    assert (x ∈ collect_nodes gj) as Hx.
    { apply elem_of_collect_nodes. rewrite E. left. }
    rewrite H in Hx. by apply elem_of_nil in Hx.
  - destruct (collect_nodes gj) as [|x l] eqn:E; [done|].
    assert (x ∈ all_names gj) as Hx.
    { apply elem_of_collect_nodes. rewrite E. left. }
    rewrite H in Hx. by apply elem_of_nil in Hx.
Qed.

Lemma weight_out_of_range_spec e : weight_out_of_range e = true <-> ~ weight_ok e.
Proof.
  unfold weight_out_of_range, weight_ok, MinWeight, MaxWeight.
  rewrite orb_true_iff, !Z.ltb_lt. lia.
Qed.

Lemma find_weight_None es :
  find weight_out_of_range es = None <-> forall e, e ∈ es -> weight_ok e.
Proof.
  split.
  - intros H e He. apply list_elem_of_In in He.
    pose proof (find_none _ _ H e He) as Hf.
    destruct (decide (weight_ok e)) as [|Hn]; [done|].
    apply weight_out_of_range_spec in Hn. congruence.
  - intros H. destruct (find _ es) as [e|] eqn:E; [|done].
    apply find_some in E as [He Hw]. apply list_elem_of_In in He.
    apply weight_out_of_range_spec in Hw. by destruct Hw; apply H.
Qed.

(** C7. [NewFromStruct] fails, returning no graph at all, exactly on the
    rejected inputs (a weight outside [1,1000], or no node at all); on every
    other input it returns a graph and a nil error. *)
Theorem NewFromStruct_error_iff gj :
  (rejected gj /\ exists err, NewFromStruct gj = (None, Some err)) \/
  (~ rejected gj /\ exists g, NewFromStruct gj = (Some g, None)).
Proof.
  unfold NewFromStruct, rejected.
  destruct (find weight_out_of_range (gj_Edges gj)) as [e|] eqn:Hf.
  - left. apply find_some in Hf as [He Hw]. apply list_elem_of_In in He.
    apply weight_out_of_range_spec in Hw. split; [|eauto].
    left. eauto.
  - pose proof (proj1 (find_weight_None _) Hf) as Hok.
    destruct (length (collect_nodes gj) =? 0) eqn:Hlen.
    + left. apply Nat.eqb_eq in Hlen. split; [|eauto].
      right. apply collect_nodes_nil. by destruct (collect_nodes gj).
    + right. apply Nat.eqb_neq in Hlen. split; [|eauto].
      intros [(e & He & Hw)|Hnil]; [by apply Hw, Hok|].
      apply collect_nodes_nil in Hnil. by rewrite Hnil in Hlen.
Qed.

Lemma mget_mset_cases m i j v i' j' :
  mget (mset m i j v) i' j' = v \/ mget (mset m i j v) i' j' = mget m i' j'.
Proof.
  destruct (decide ((i', j') = (i, j))) as [Heq|Hne]; [|right; by apply mget_mset_ne].
  inversion Heq; subst.
  destruct (decide (i < length m)) as [Hi|Hi].
  - destruct (decide (j < length (nth i m []))) as [Hj|Hj].
    + left. by apply mget_mset_eq.
    + right. unfold mget, mset. rewrite nth_insert_eq by done.
      by rewrite list_insert_ge by lia.
  - right. unfold mset. by rewrite list_insert_ge by lia.
Qed.

Lemma combine_snoc {A B} (l1 : list A) (k1 : list B) a b :
  length l1 = length k1 -> combine (l1 ++ [a]) (k1 ++ [b]) = combine l1 k1 ++ [(a, b)].
Proof.
  revert k1. induction l1 as [|x l1 IH]; intros [|y k1] H; simpl in *; try done.
  f_equal. apply IH. lia.
Qed.

Lemma index_map_snoc l x : index_map (l ++ [x]) = <[x := length l]> (index_map l).
Proof.
  unfold index_map. rewrite length_app. simpl length.
  replace (length l + 1) with (S (length l)) by lia.
  rewrite seq_S, combine_snoc by (by rewrite length_seq).
  by rewrite fold_left_app.
Qed.

Lemma index_map_None l n : n ∉ l -> index_map l !! n = None.
Proof.
  induction l as [|x l IH] using rev_ind; intros Hn; [done|].
  rewrite index_map_snoc. rewrite elem_of_app, list_elem_of_singleton in Hn.
  rewrite lookup_insert_ne by naive_solver. apply IH. tauto.
Qed.

Lemma index_map_lookup l i n :
  NoDup l -> l !! i = Some n -> index_map l !! n = Some i.
Proof.
  revert i. induction l as [|x l IH] using rev_ind; intros i Hnd Hi; [done|].
  rewrite index_map_snoc. apply NoDup_app in Hnd as (Hnd & Hdisj & _).
  destruct (decide (i < length l)) as [Hlt|Hge].
  - rewrite lookup_app_l in Hi by done.
    rewrite lookup_insert_ne; [by apply IH|].
    intros ->. apply (Hdisj n); [|left]. by eapply list_elem_of_lookup_2.
  - rewrite lookup_app_r in Hi by lia.
    destruct (i - length l) as [|k] eqn:E; simpl in Hi; [|done].
    inversion Hi; subst. rewrite lookup_insert_eq. f_equal. lia.
Qed.

Lemma index_map_Name g i :
  wf_graph g -> i < NumNodes g -> NameToIndex g !! Name g i = Some i.
Proof.
  intros (Hnd & _ & _ & ->) Hi. apply index_map_lookup; [done|].
  unfold Name. rewrite nth_lookup.
  destruct (Nodes g !! i) eqn:E; [done|].
  apply lookup_ge_None in E. unfold NumNodes in Hi. lia.
Qed.

Lemma fold_set_edge_square N m es adj :
  square N adj -> square N (fold_left (set_edge m) es adj).
Proof.
  revert adj. induction es as [|e es IH]; intros adj H; simpl; [done|].
  apply IH. by apply square_mset.
Qed.

Lemma fold_set_edge_bounds m es adj :
  (forall e, e ∈ es -> weight_ok e) ->
  (forall i j, (0 <= mget adj i j <= 1000)%Z) ->
  forall i j, (0 <= mget (fold_left (set_edge m) es adj) i j <= 1000)%Z.
Proof.
  revert adj. induction es as [|e es IH]; intros adj Hok H; simpl; [done|].
  apply IH.
  - intros e' He'. apply Hok. by right.
  - intros i j. unfold set_edge.
    destruct (mget_mset_cases adj (idx_of m (e_From e)) (idx_of m (e_To e))
                (e_Weight e) i j) as [-> | ->]; [|done].
    assert (weight_ok e) as Hw by (apply Hok; left). unfold weight_ok in Hw. lia.
Qed.

(** Every graph returned by the loader is well formed and has a node. *)
Lemma NewFromStruct_wf gj g :
  NewFromStruct gj = (Some g, None) ->
  wf_graph g /\ 0 < NumNodes g /\ Nodes g = collect_nodes gj.
Proof.
  unfold NewFromStruct.
  destruct (find weight_out_of_range (gj_Edges gj)) eqn:Hf; [done|].
  destruct (length (collect_nodes gj) =? 0) eqn:Hlen; [done|].
  intros [= <-]. apply Nat.eqb_neq in Hlen.
  unfold wf_graph, NumNodes, Weight. simpl.
  repeat split; try lia.
  - apply collect_nodes_NoDup.
  - by rewrite (proj1 (fold_set_edge_square _ _ _ _ (square_zero_matrix _))).
  - by apply fold_set_edge_square, square_zero_matrix.
  - apply fold_set_edge_bounds; [by apply find_weight_None|].
    intros i' j'. rewrite mget_zero_matrix. lia.
  - apply fold_set_edge_bounds; [by apply find_weight_None|].
    intros i' j'. rewrite mget_zero_matrix. lia.
Qed.

(** ** Graph store: the subgraph operation *)

Lemma new_old_index x a : new_index x (old_index x a) = a.
Proof.
  unfold new_index, old_index.
  destruct (a <? x) eqn:E; [by rewrite E|].
  apply Nat.ltb_ge in E. destruct (S a <? x) eqn:E'; [apply Nat.ltb_lt in E'; lia|lia].
Qed.

Lemma old_new_index x i : i <> x -> old_index x (new_index x i) = i.
Proof.
  unfold new_index, old_index. intros Hne.
  destruct (i <? x) eqn:E; [by rewrite E|].
  apply Nat.ltb_ge in E. destruct (i - 1 <? x) eqn:E'; [apply Nat.ltb_lt in E'; lia|lia].
Qed.

Lemma old_index_ne x a : old_index x a <> x.
Proof.
  unfold old_index. destruct (a <? x) eqn:E.
  - apply Nat.ltb_lt in E. lia.
  - apply Nat.ltb_ge in E. lia.
Qed.

Lemma old_index_lt x a N : x < N -> a < N - 1 -> old_index x a < N.
Proof. unfold old_index. intros. destruct (a <? x); lia. Qed.

Lemma new_index_lt x i N : x < N -> i < N -> i <> x -> new_index x i < N - 1.
Proof.
  unfold new_index. intros. destruct (i <? x) eqn:E; [apply Nat.ltb_lt in E|]; lia.
Qed.

Lemma copy_step_fold_nodes g x l st :
  (fold_left (copy_step g x) l st).1 = st.1 ++ map (Name g) (retained x l).
Proof.
  revert st. induction l as [|i l IH]; intros st; simpl.
  - by rewrite app_nil_r.
  - rewrite IH. unfold copy_step. destruct (i =? x); simpl; [done|].
    by rewrite <- app_assoc.
Qed.

Lemma length_retained_seq x n :
  length (retained x (seq 0 n)) = if x <? n then n - 1 else n.
Proof.
  induction n as [|n IH]; [done|].
  unfold retained in *. rewrite seq_S, List.filter_app, length_app, IH. simpl.
  destruct (n =? x) eqn:E1; destruct (x <? n) eqn:E2; destruct (x <? S n) eqn:E3;
    simpl;
    repeat match goal with
      | H : (_ =? _) = true |- _ => apply Nat.eqb_eq in H
      | H : (_ =? _) = false |- _ => apply Nat.eqb_neq in H
      | H : (_ <? _) = true |- _ => apply Nat.ltb_lt in H
      | H : (_ <? _) = false |- _ => apply Nat.ltb_ge in H
      end; lia.
Qed.

Lemma copy_step_fold_map g x N n :
  n <= N ->
  let st := fold_left (copy_step g x) (seq 0 n) ([], repeat 0%Z N) in
  length st.2 = N /\
  forall i, i < n ->
    nth i st.2 0%Z = if i =? x then (-1)%Z else Z.of_nat (new_index x i).
Proof.
  induction n as [|n IH]; intros Hn; cbv zeta.
  - split; [apply repeat_length|]. lia.
  - specialize (IH ltac:(lia)). destruct IH as [Hlen Hnth].
    rewrite seq_S, fold_left_app. cbn [fold_left Nat.add].
    set (st := fold_left (copy_step g x) (seq 0 n) ([], repeat 0%Z N)) in *.
    assert (length st.1 = if x <? n then n - 1 else n) as Hl1.
    { unfold st. rewrite copy_step_fold_nodes. simpl.
      rewrite length_map. apply length_retained_seq. }
    unfold copy_step. destruct (n =? x) eqn:E; cbn [fst snd].
    + split; [by rewrite length_insert|].
      intros i Hi. destruct (decide (i = n)) as [->|Hne].
      * rewrite nth_insert_eq by lia. by rewrite E.
      * rewrite nth_insert_ne by done. apply Hnth. lia.
    + split; [by rewrite length_insert|].
      intros i Hi. destruct (decide (i = n)) as [->|Hne].
      * rewrite nth_insert_eq by lia. rewrite E, Hl1. f_equal.
        unfold new_index. apply Nat.eqb_neq in E.
        destruct (x <? n) eqn:E1; destruct (n <? x) eqn:E2;
          repeat match goal with
            | H : (_ <? _) = true |- _ => apply Nat.ltb_lt in H
            | H : (_ <? _) = false |- _ => apply Nat.ltb_ge in H
            end; lia.
      * rewrite nth_insert_ne by done. apply Hnth. lia.
Qed.

Section CopyAdjacency.
Variables (g : Graph) (x N : nat) (oldToNew : list Z).
Hypothesis Hx : x < N.
Hypothesis Hmap : forall i, i < N -> i <> x ->
  nth i oldToNew 0%Z = Z.of_nat (new_index x i).

Lemma copy_cell_fold i n adj :
  i < N -> i <> x -> n <= N -> square (N - 1) adj ->
  square (N - 1) (fold_left (copy_cell g x oldToNew i) (seq 0 n) adj) /\
  forall a b, a < N - 1 -> b < N - 1 ->
    mget (fold_left (copy_cell g x oldToNew i) (seq 0 n) adj) a b =
    if decide (a = new_index x i /\ old_index x b < n /\ mget (AdjMatrix g) i (old_index x b) <> 0%Z)
    then mget (AdjMatrix g) i (old_index x b) else mget adj a b.
Proof.
  intros Hi Hix Hn Hsq. induction n as [|n IH].
  - split; [done|]. intros a b _ _. cbn [seq fold_left]. case_decide; [lia|done].
  - specialize (IH ltac:(lia)). destruct IH as [Hsq' Hcells].
    rewrite seq_S, fold_left_app. cbn [fold_left Nat.add].
    set (adj' := fold_left (copy_cell g x oldToNew i) (seq 0 n) adj) in *.
    unfold copy_cell at 1 2.
    destruct ((n =? x) || (mget (AdjMatrix g) i n =? 0)%Z) eqn:E.
    + split; [done|]. intros a b Ha Hb. rewrite Hcells by done.
      pose proof (old_index_ne x b) as Hob.
      apply decide_ext. bool_to_prop.
      destruct (decide (old_index x b = n)) as [Hn'|Hn'].
      * subst n. destruct E as [E|E]; bool_to_prop; [done|]. tauto.
      * split; intros (? & ? & ?); split_and!; auto; lia.
    + bool_to_prop. rewrite (Hmap i), (Hmap n), !Nat2Z.id by (done || lia).
      split; [by apply square_mset|].
      intros a b Ha Hb.
      destruct Hsq' as [Hl Hr].
      pose proof (new_index_lt x i N Hx Hi Hix).
      pose proof (new_index_lt x n N Hx ltac:(lia) ltac:(done)).
      rewrite mget_mset by (rewrite ?Hr; lia).
      case_decide as Hab.
      * inversion Hab; subst. rewrite old_new_index by done.
        rewrite decide_True; [done|]. split_and!; [done|lia|done].
      * rewrite Hcells by done. apply decide_ext.
        destruct (decide (old_index x b = n)) as [Hob|Hob].
        -- assert (b = new_index x n) by (by rewrite <- Hob, new_old_index).
           split; intros (? & ? & ?); exfalso; apply Hab; congruence.
        -- split; intros (? & ? & ?); split_and!; auto; lia.
Qed.

Lemma copy_row_fold n :
  n <= N ->
  square (N - 1) (fold_left (copy_row g x oldToNew N) (seq 0 n) (zero_matrix (N - 1))) /\
  forall a b, a < N - 1 -> b < N - 1 ->
    mget (fold_left (copy_row g x oldToNew N) (seq 0 n) (zero_matrix (N - 1))) a b =
    if decide (old_index x a < n) then mget (AdjMatrix g) (old_index x a) (old_index x b) else 0%Z.
Proof.
  induction n as [|n IH]; intros Hn.
  - split; [apply square_zero_matrix|]. intros a b _ _. cbn [seq fold_left].
    rewrite mget_zero_matrix. case_decide; [lia|done].
  - specialize (IH ltac:(lia)). destruct IH as [Hsq Hcells].
    rewrite seq_S, fold_left_app. cbn [fold_left Nat.add].
    set (adj := fold_left (copy_row g x oldToNew N) (seq 0 n) _) in *.
    unfold copy_row at 1 2. destruct (n =? x) eqn:E; bool_to_prop.
    + split; [done|]. intros a b Ha Hb. rewrite Hcells by done.
      pose proof (old_index_ne x a). apply decide_ext. lia.
    + destruct (copy_cell_fold n N adj ltac:(lia) E (le_n _) Hsq) as [Hsq' Hc].
      split; [done|]. intros a b Ha Hb. rewrite Hc, Hcells by done.
      pose proof (old_index_lt x b N Hx Hb).
      destruct (decide (a = new_index x n)) as [->|Hne].
      * rewrite old_new_index by done.
        destruct (decide (mget (AdjMatrix g) n (old_index x b) = 0%Z)) as [Hz|Hz].
        -- rewrite decide_False by tauto. rewrite decide_False by lia.
           rewrite decide_True by lia. done.
        -- rewrite decide_True by (split_and!; [done|lia|done]).
           rewrite decide_True by lia. done.
      * rewrite decide_False by tauto.
        assert (old_index x a <> n).
        { intros <-. by rewrite new_old_index in Hne. }
        apply decide_ext. lia.
Qed.
End CopyAdjacency.

Lemma filter_all_true {A} (p : A -> bool) l :
  (forall y, In y l -> p y = true) -> List.filter p l = l.
Proof.
  induction l as [|a l IH]; intros H; simpl; [done|].
  rewrite H by (by left). f_equal. apply IH. intros y Hy. apply H. by right.
Qed.

Lemma retained_seq x N :
  x < N -> retained x (seq 0 N) = seq 0 x ++ seq (S x) (N - 1 - x).
Proof.
  intros Hx. unfold retained.
  replace N with (x + S (N - 1 - x)) at 1 by lia.
  rewrite seq_app, List.filter_app. simpl. rewrite Nat.eqb_refl. simpl.
  rewrite !filter_all_true; [done| |].
  - intros y Hy. apply in_seq in Hy. apply negb_true_iff, Nat.eqb_neq. lia.
  - intros y Hy. apply in_seq in Hy. apply negb_true_iff, Nat.eqb_neq. lia.
Qed.

Lemma nth_retained_seq x N a :
  x < N -> a < N - 1 -> nth a (retained x (seq 0 N)) 0 = old_index x a.
Proof.
  intros Hx Ha. rewrite retained_seq by done. unfold old_index.
  destruct (a <? x) eqn:E; bool_to_prop.
  - rewrite app_nth1 by (rewrite length_seq; lia). by rewrite seq_nth.
  - rewrite app_nth2 by (rewrite length_seq; lia). rewrite length_seq.
    rewrite seq_nth by lia. lia.
Qed.

Lemma mget_square_oob N m i j : square N m -> N <= i \/ N <= j -> mget m i j = 0%Z.
Proof.
  intros [Hl Hr] Hij. unfold mget.
  destruct (decide (i < N)) as [Hi|Hi].
  - apply nth_overflow. rewrite Hr by done. lia.
  - rewrite (nth_overflow m) by lia. by destruct j.
Qed.

Lemma Name_inj g i j :
  NoDup (Nodes g) -> i < NumNodes g -> j < NumNodes g -> Name g i = Name g j -> i = j.
Proof.
  intros Hnd Hi Hj Heq. unfold Name, NumNodes in *.
  eapply (proj1 (List.NoDup_nth (Nodes g) ""%string)); eauto.
  by apply NoDup_ListNoDup.
Qed.

(** What [CopyWithoutNode] builds. *)
Lemma CopyWithoutNode_facts g x :
  x < NumNodes g ->
  let N := NumNodes g in
  let sub := (CopyWithoutNode g x).1 in
  let oldToNew := (CopyWithoutNode g x).2 in
  Nodes sub = map (Name g) (retained x (seq 0 N)) /\
  NumNodes sub = N - 1 /\
  (forall a, a < N - 1 -> Name sub a = Name g (old_index x a)) /\
  square (N - 1) (AdjMatrix sub) /\
  (forall a b, a < N - 1 -> b < N - 1 ->
     Weight sub a b = Weight g (old_index x a) (old_index x b)) /\
  length oldToNew = N /\
  nth x oldToNew 0%Z = (-1)%Z /\
  (forall i, i < N -> i <> x ->
     nth i oldToNew 0%Z = Z.of_nat (new_index x i) /\
     new_index x i < N - 1 /\ old_index x (new_index x i) = i).
Proof.
  intros Hx N sub oldToNew.
  unfold CopyWithoutNode in sub, oldToNew |- *.
  cbn [fst snd] in sub, oldToNew |- *. fold N in sub, oldToNew.
  pose proof (copy_step_fold_nodes g x (seq 0 N) ([], repeat 0%Z N)) as Hnodes.
  destruct (copy_step_fold_map g x N N (le_n _)) as [Hlen Hnth].
  cbn [fst app] in Hnodes. fold oldToNew in Hlen, Hnth.
  assert (length (fold_left (copy_step g x) (seq 0 N) ([], repeat 0%Z N)).1 = N - 1)
    as HN'.
  { rewrite Hnodes, length_map, length_retained_seq.
    destruct (x <? N) eqn:E; bool_to_prop; [done|lia]. }
  assert (forall i, i < N -> i <> x -> nth i oldToNew 0%Z = Z.of_nat (new_index x i))
    as Hmap.
  { intros i Hi Hix. rewrite Hnth by done.
    destruct (i =? x) eqn:E; bool_to_prop; done. }
  destruct (copy_row_fold g x N oldToNew Hx Hmap N (le_n _)) as [Hsq Hcells].
  subst sub. cbn [Nodes AdjMatrix]. unfold NumNodes, Weight. cbn [Nodes AdjMatrix].
  rewrite HN'. split_and!; try done.
  - intros a Ha. unfold Name at 1. cbn [Nodes]. rewrite Hnodes.
    rewrite (nth_indep _ ""%string (Name g 0)) by (rewrite <- Hnodes; lia).
    rewrite map_nth. by rewrite nth_retained_seq.
  - intros a b Ha Hb. rewrite Hcells by done.
    rewrite decide_True; [done|]. by apply old_index_lt.
  - rewrite Hnth by done. by rewrite Nat.eqb_refl.
  - intros i Hi Hix. split_and!; [by apply Hmap|by apply new_index_lt|
                                   by apply old_new_index].
Qed.

(** C8. On a store with a square adjacency matrix (so that no access of
    the source is out of range), [CopyWithoutNode x] returns the graph of the
    other nodes, in ascending original order and contiguously reindexed,
    whose adjacency is that of the original between retained nodes, with the
    map from original to new indices ([-1] for [x]); the receiver's node list
    and adjacency matrix are what they were. *)
Theorem CopyWithoutNode_spec g x :
  square (NumNodes g) (AdjMatrix g) -> x < NumNodes g ->
  let N := NumNodes g in
  let sub := (CopyWithoutNode_call g x).2.1 in
  let oldToNew := (CopyWithoutNode_call g x).2.2 in
  Nodes sub = map (Name g) (retained x (seq 0 N)) /\
  NumNodes sub = N - 1 /\
  (forall a, a < N - 1 -> Name sub a = Name g (old_index x a)) /\
  square (N - 1) (AdjMatrix sub) /\
  (forall a b, a < N - 1 -> b < N - 1 ->
     Weight sub a b = Weight g (old_index x a) (old_index x b)) /\
  length oldToNew = N /\
  nth x oldToNew 0%Z = (-1)%Z /\
  (forall i, i < N -> i <> x ->
     nth i oldToNew 0%Z = Z.of_nat (new_index x i) /\
     new_index x i < N - 1 /\ old_index x (new_index x i) = i) /\
  Nodes (CopyWithoutNode_call g x).1 = Nodes g /\
  AdjMatrix (CopyWithoutNode_call g x).1 = AdjMatrix g.
Proof.
  intros _ Hx N sub oldToNew.
  destruct (CopyWithoutNode_facts g x Hx) as (H1 & H2 & H3 & H4 & H5 & H6 & H7 & H8).
  subst sub oldToNew N. unfold CopyWithoutNode_call. cbn [fst snd].
  split_and!; done.
Qed.

Lemma CopyWithoutNode_wf g x :
  wf_graph g -> x < NumNodes g -> wf_graph (CopyWithoutNode g x).1.
Proof.
  intros Hwf Hx.
  destruct (CopyWithoutNode_facts g x Hx)
    as (Hnodes & HN & Hname & Hsq & Hw & _).
  cbn [fst snd] in *.
  destruct Hwf as (Hnd & Hsqg & Hbnd & Hidx).
  split_and!.
  - apply NoDup_alt. intros a b s Ha Hb.
    pose proof (lookup_lt_Some _ _ _ Ha) as Hla.
    pose proof (lookup_lt_Some _ _ _ Hb) as Hlb.
    fold (NumNodes (CopyWithoutNode g x).1) in Hla, Hlb. rewrite HN in Hla, Hlb.
    assert (Name (CopyWithoutNode g x).1 a = Name (CopyWithoutNode g x).1 b) as Heq.
    { unfold Name. by rewrite !nth_lookup, Ha, Hb. }
    rewrite !Hname in Heq by done.
    apply Name_inj in Heq; [|done|by apply old_index_lt..].
    rewrite <- (new_old_index x a), <- (new_old_index x b). by rewrite Heq.
  - by rewrite HN.
  - intros a b.
    destruct (decide (a < NumNodes g - 1 /\ b < NumNodes g - 1)) as [[Ha Hb]|Hn].
    + rewrite Hw by done. apply Hbnd.
    + unfold Weight. rewrite (mget_square_oob _ _ _ _ Hsq) by lia. lia.
  - done.
Qed.

(** ** Walks *)

Section Walks.
Variable w : nat -> nat -> Z.
Variable N : nat.
Hypothesis Hw : forall i j, (0 <= w i j <= 1000)%Z.
Hypothesis HwN : forall i j, (0 < w i j)%Z -> i < N /\ j < N.

Lemma walk_weight_nonneg i p : (0 <= walk_weight w i p)%Z.
Proof.
  revert i. induction p as [|m p IH]; intros i; simpl; [lia|].
  specialize (IH m). specialize (Hw i m). lia.
Qed.

Lemma walk_weight_le_length i p : (walk_weight w i p <= 1000 * Z.of_nat (length p))%Z.
Proof.
  revert i. induction p as [|m p IH]; intros i; simpl length; simpl walk_weight; [lia|].
  specialize (IH m). specialize (Hw i m). lia.
Qed.

Lemma walk_app i p k q j : walk w i p k -> walk w k q j -> walk w i (p ++ q) j.
Proof.
  revert i. induction p as [|m p IH]; intros i; simpl.
  - by intros ->.
  - intros [He Hp] Hq. split; [done|]. by apply IH.
Qed.

Lemma walk_weight_app i p k q :
  walk w i p k -> walk_weight w i (p ++ q) = (walk_weight w i p + walk_weight w k q)%Z.
Proof.
  revert i. induction p as [|m p IH]; intros i; simpl.
  - by intros ->.
  - intros [He Hp]. rewrite (IH m) by done. lia.
Qed.

(** A walk through [x] splits there. *)
Lemma walk_app_inv i p x q j :
  walk w i (p ++ x :: q) j -> walk w i (p ++ [x]) x /\ walk w x q j.
Proof.
  revert i. induction p as [|m p IH]; intros i; simpl.
  - intros [He Hq]. done.
  - intros [He Hp]. apply IH in Hp as [H1 H2]. done.
Qed.

Lemma walk_snoc i p j : walk w i p j -> p <> [] -> p = removelast p ++ [j].
Proof.
  revert i. induction p as [|m p IH]; intros i; [done|].
  intros [He Hp] _. destruct p as [|m' p].
  - simpl in *. by subst.
  - rewrite (IH m) at 1 by done. done.
Qed.

Lemma walk_vertices_lt i p j : walk w i p j -> Forall (fun v => v < N) p.
Proof.
  revert i. induction p as [|m p IH]; intros i; simpl; [constructor|].
  intros [He Hp]. constructor; [by apply (HwN i m)|by eapply IH].
Qed.

Lemma walk_start_lt i p j : walk w i p j -> p <> [] -> i < N.
Proof. destruct p; [done|]. intros [He _] _. by apply (HwN i n). Qed.

(** Cutting the cycles out of a walk. *)
Lemma walk_simple i p j :
  walk w i p j ->
  exists q, walk w i q j /\ NoDup (i :: q) /\ q ⊆ p /\
            (walk_weight w i q <= walk_weight w i p)%Z.
Proof.
  revert i. induction p as [|m p IH]; intros i Hp.
  - exists []. split_and!; [done| |done|done].
    apply NoDup_singleton.
  - destruct Hp as [He Hp]. destruct (IH m Hp) as (q & Hq & Hnd & Hsub & Hle).
    simpl walk_weight. pose proof (Hw i m) as Hwim.
    destruct (decide (i ∈ m :: q)) as [Hin|Hnin].
    + apply elem_of_cons in Hin as [->|Hin].
      * exists q. split_and!; [done|done| |lia].
        intros v Hv. right. by apply Hsub.
      * apply list_elem_of_split in Hin as (q1 & q2 & ->).
        pose proof (walk_app_inv _ _ _ _ _ Hq) as [H1 H2].
        exists q2. split_and!; [done| | |].
        -- apply NoDup_cons in Hnd as [_ Hnd].
           apply NoDup_app in Hnd as (_ & _ & Hnd). done.
        -- intros v Hv. right. apply Hsub. rewrite elem_of_app. right. by right.
        -- replace (q1 ++ i :: q2) with ((q1 ++ [i]) ++ q2) in Hle
             by (by rewrite <- app_assoc).
           rewrite (walk_weight_app m (q1 ++ [i]) i) in Hle by done.
           pose proof (walk_weight_nonneg m (q1 ++ [i])). lia.
    + exists (m :: q). split_and!; [done| | |simpl; lia].
      * by apply NoDup_cons.
      * intros v Hv. apply elem_of_cons in Hv as [->|Hv]; [left|right; by apply Hsub].
Qed.

Lemma walk_simple_length i q j :
  walk w i q j -> NoDup (i :: q) -> length q < N \/ q = [].
Proof.
  intros Hq Hnd. destruct (decide (q = [])) as [|Hne]; [by right|left].
  assert (Forall (fun v => v < N) (i :: q)) as Hall.
  { constructor; [by eapply walk_start_lt|by eapply walk_vertices_lt]. }
  assert (incl (i :: q) (seq 0 N)) as Hsub.
  { intros v Hv. apply list_elem_of_In in Hv. rewrite Forall_forall in Hall.
    apply Hall in Hv. apply in_seq. lia. }
  apply List.NoDup_incl_length in Hsub; [|by apply NoDup_ListNoDup].
  rewrite length_seq in Hsub. simpl in Hsub. lia.
Qed.

(** The inner vertices of a simple sub-walk are inner vertices of the walk. *)
Lemma inner_subseteq i p q j :
  walk w i p j -> walk w i q j -> NoDup q -> q ⊆ p -> inner q ⊆ inner p.
Proof.
  intros Hp Hq Hnd Hsub v Hv. unfold inner in *.
  destruct (decide (q = [])) as [->|Hqne]; [by apply elem_of_nil in Hv|].
  assert (p <> []) as Hpne.
  { intros ->. destruct q as [|a q]; [done|].
    apply (elem_of_nil a), Hsub. left. }
  pose proof (walk_snoc _ _ _ Hq Hqne) as Eq.
  pose proof (walk_snoc _ _ _ Hp Hpne) as Ep.
  assert (v <> j) as Hvj.
  { intros ->. rewrite Eq in Hnd. apply NoDup_app in Hnd as (_ & Hd & _).
    apply (Hd j Hv). left. }
  assert (v ∈ p) as Hvp.
  { apply Hsub. rewrite Eq. apply elem_of_app. by left. }
  rewrite Ep in Hvp. apply elem_of_app in Hvp as [|Hvp]; [done|].
  apply list_elem_of_singleton in Hvp. done.
Qed.
End Walks.

(** ** The distance recurrence *)

Section FloydWarshall.
Variable w : nat -> nat -> Z.
Variable N : nat.
Hypothesis Hw : forall i j, (0 <= w i j <= 1000)%Z.
Hypothesis HwN : forall i j, (0 < w i j)%Z -> i < N /\ j < N.
Hypothesis Hfits : fits N.

Lemma Forall_lt_weaken k l : Forall (fun v => v < k) l -> Forall (fun v => v < S k) l.
Proof. intros H. eapply Forall_impl; [exact H|]. simpl. lia. Qed.

Lemma fw_bound k i j :
  fw_sound w k -> fw_complete w k ->
  fw w k i j <> Inf -> (0 <= fw w k i j <= 1000 * Z.of_nat N)%Z.
Proof.
  intros HS HC Hfin. destruct (HS i j Hfin) as (p & Hp & Hin & Hwt).
  destruct (walk_simple w Hw i p j Hp) as (q & Hq & Hnd & Hsub & Hle).
  assert (Forall (fun v => v < k) (inner q)) as Hinq.
  { rewrite Forall_forall in Hin |- *. intros v Hv. apply Hin.
    eapply (inner_subseteq w); eauto. by apply NoDup_cons in Hnd as [_ ?]. }
  destruct (HC i q j Hq Hinq) as [_ Hle'].
  pose proof (walk_weight_nonneg w Hw i p).
  pose proof (walk_weight_le_length w Hw i q).
  destruct (walk_simple_length w N HwN i q j Hq Hnd) as [Hlen| ->];
    simpl length in *; lia.
Qed.

Lemma fw_inv_0 : fw_sound w 0 /\ fw_complete w 0.
Proof.
  split.
  - intros i j. simpl. destruct (i =? j) eqn:E; bool_to_prop.
    + intros _. exists []. by split_and!.
    + destruct (0 <? w i j)%Z eqn:E'; bool_to_prop; [|done].
      intros _. exists [j]. split_and!; [done|constructor|simpl; lia].
  - intros i p j Hp Hin. destruct p as [|m [|m' p]].
    + simpl in Hp. subst. simpl. rewrite Nat.eqb_refl. unfold Inf. lia.
    + destruct Hp as [He ->]. simpl. pose proof (Hw i j).
      destruct (i =? j); [unfold Inf; lia|].
      rewrite (proj2 (Z.ltb_lt _ _) He). unfold Inf. lia.
    + unfold inner in Hin. simpl in Hin. inversion Hin; lia.
Qed.

Lemma fw_inv_S k :
  fw_sound w k /\ fw_complete w k -> fw_sound w (S k) /\ fw_complete w (S k).
Proof.
  intros [HS HC].
  assert (forall i j, fw w k i j <> Inf -> (0 <= fw w k i j <= 1000 * Z.of_nat N)%Z)
    as Hb by (intros; by apply fw_bound).
  assert (forall a b, (0 <= a <= 1000 * Z.of_nat N)%Z -> (0 <= b <= 1000 * Z.of_nat N)%Z ->
                      wadd a b = (a + b)%Z) as Hadd.
  { intros a b Ha Hb'. apply wadd_small. unfold fits, Inf, in_int in *. lia. }
  split.
  - intros i j. simpl. unfold relax.
    destruct (fw w k i k =? Inf)%Z eqn:Ea; bool_to_prop.
    { intros Hx. destruct (HS i j Hx) as (p & ? & ? & ?).
      exists p. split_and!; auto using Forall_lt_weaken. }
    destruct (fw w k k j =? Inf)%Z eqn:Eb; bool_to_prop.
    { intros Hx. destruct (HS i j Hx) as (p & ? & ? & ?).
      exists p. split_and!; auto using Forall_lt_weaken. }
    rewrite Hadd by auto.
    destruct (fw w k i k + fw w k k j <? fw w k i j)%Z eqn:Ed; bool_to_prop.
    2:{ intros Hx. destruct (HS i j Hx) as (p & ? & ? & ?).
        exists p. split_and!; auto using Forall_lt_weaken. }
    intros _.
    destruct (HS i k Ea) as (p1 & Hp1 & Hin1 & Hw1).
    destruct (HS k j Eb) as (p2 & Hp2 & Hin2 & Hw2).
    exists (p1 ++ p2). split_and!.
    + by eapply walk_app.
    + unfold inner in *. destruct (decide (p2 = [])) as [->|Hne2].
      * rewrite app_nil_r. by apply Forall_lt_weaken.
      * rewrite removelast_app by done. apply Forall_app. split.
        -- destruct (decide (p1 = [])) as [->|Hne1]; [constructor|].
           rewrite (walk_snoc w i p1 k Hp1 Hne1). apply Forall_app. split.
           ++ by apply Forall_lt_weaken.
           ++ repeat constructor.
        -- by apply Forall_lt_weaken.
    + rewrite (walk_weight_app w i p1 k p2) by done. lia.
  - intros i p j Hp Hin.
    destruct (walk_simple w Hw i p j Hp) as (q & Hq & Hnd & Hsub & Hle).
    apply NoDup_cons in Hnd as [_ Hnd].
    assert (Forall (fun v => v < S k) (inner q)) as Hinq.
    { rewrite Forall_forall in Hin |- *. intros v Hv. apply Hin.
      eapply (inner_subseteq w); eauto. }
    simpl. unfold relax.
    destruct (decide (k ∈ inner q)) as [Hk|Hk].
    + apply list_elem_of_split in Hk as (a' & b' & Hab).
      assert (q <> []) as Hqne by (intros ->; by destruct a').
      pose proof (walk_snoc w i q j Hq Hqne) as Eq. unfold inner in *.
      rewrite Hab in Eq. rewrite <- app_assoc in Eq. simpl in Eq.
      rewrite Eq in Hq, Hnd.
      pose proof (walk_app_inv w _ _ _ _ _ Hq) as [Hq1 Hq2].
      assert (Forall (fun v => v < k) a') as Ha'.
      { rewrite Forall_forall in Hinq |- *. intros v Hv.
        assert (v < S k) by (apply Hinq; rewrite Hab, elem_of_app; by left).
        assert (v <> k); [|lia].
        intros ->. apply NoDup_app in Hnd as (_ & Hd & _). apply (Hd k Hv). left. }
      assert (Forall (fun v => v < k) b') as Hb'.
      { rewrite Forall_forall in Hinq |- *. intros v Hv.
        assert (v < S k)
          by (apply Hinq; rewrite Hab, elem_of_app; right; by right).
        assert (v <> k); [|lia].
        intros ->. apply NoDup_app in Hnd as (_ & _ & Hd).
        apply NoDup_cons in Hd as [Hd _]. apply Hd.
        rewrite elem_of_app. by left. }
      destruct (HC i (a' ++ [k]) k Hq1) as [Ha Hla].
      { unfold inner. by rewrite removelast_last. }
      destruct (HC k (b' ++ [j]) j Hq2) as [Hbf Hlb].
      { unfold inner. by rewrite removelast_last. }
      assert (walk_weight w i q =
              (walk_weight w i (a' ++ [k]) + walk_weight w k (b' ++ [j]))%Z) as Hsum.
      { rewrite Eq. replace (a' ++ k :: b' ++ [j]) with ((a' ++ [k]) ++ b' ++ [j])
          by (by rewrite <- app_assoc).
        by apply walk_weight_app. }
      rewrite (proj2 (Z.eqb_neq _ _) Ha), (proj2 (Z.eqb_neq _ _) Hbf).
      rewrite Hadd by auto.
      pose proof (Hb _ _ Ha). pose proof (Hb _ _ Hbf).
      unfold fits in Hfits.
      destruct (_ <? _)%Z eqn:Ed; bool_to_prop; split; lia.
    + assert (Forall (fun v => v < k) (inner q)) as Hinq'.
      { rewrite Forall_forall in Hinq |- *. intros v Hv.
        assert (v < S k) by by apply Hinq.
        assert (v <> k) by (by intros ->). lia. }
      destruct (HC i q j Hq Hinq') as [Hx Hlx].
      pose proof (Hb _ _ Hx). unfold fits in Hfits.
      destruct (fw w k i k =? Inf)%Z eqn:Ea; bool_to_prop; [split; [done|lia]|].
      destruct (fw w k k j =? Inf)%Z eqn:Eb; bool_to_prop; [split; [done|lia]|].
      rewrite Hadd by auto.
      destruct (_ <? _)%Z eqn:Ed; bool_to_prop; split; lia.
Qed.

Lemma fw_inv k : fw_sound w k /\ fw_complete w k.
Proof. induction k; [apply fw_inv_0|by apply fw_inv_S]. Qed.

Lemma fw_range k i j :
  fw w k i j = Inf \/ (0 <= fw w k i j <= 1000 * Z.of_nat N)%Z.
Proof.
  destruct (decide (fw w k i j = Inf)); [by left|right].
  destruct (fw_inv k). by apply fw_bound.
Qed.

Lemma fw_diag k i : fw w k i i = 0%Z.
Proof.
  destruct (fw_inv k) as [HS HC].
  destruct (HC i [] i eq_refl) as [Hfin Hle]; [constructor|].
  pose proof (fw_bound k i i HS HC Hfin). simpl in Hle. lia.
Qed.

(** Round [k] leaves row [k] and column [k] as they are. *)
Lemma fw_S_col k i : fw w (S k) i k = fw w k i k.
Proof.
  simpl. unfold relax. rewrite fw_diag.
  destruct (fw w k i k =? Inf)%Z eqn:Ea; bool_to_prop; [done|].
  simpl. destruct (fw_range k i k) as [|Hr]; [done|].
  rewrite wadd_small by (unfold fits, Inf, in_int in *; lia).
  rewrite Z.add_0_r, Z.ltb_irrefl. done.
Qed.

Lemma fw_S_row k j : fw w (S k) k j = fw w k k j.
Proof.
  simpl. unfold relax. rewrite fw_diag. simpl.
  destruct (fw w k k j =? Inf)%Z eqn:Eb; bool_to_prop; [done|].
  destruct (fw_range k k j) as [|Hr]; [done|].
  rewrite wadd_small by (unfold fits, Inf, in_int in *; lia).
  rewrite Z.add_0_l, Z.ltb_irrefl. done.
Qed.

(** Every walk has its inner vertices below [N]. *)
Lemma walk_inner_lt i p j : walk w i p j -> Forall (fun v => v < N) (inner p).
Proof.
  intros Hp. pose proof (walk_vertices_lt w N HwN i p j Hp) as Hall.
  rewrite Forall_forall in Hall |- *. intros v Hv. apply Hall.
  unfold inner in Hv. destruct (decide (p = [])) as [->|Hne]; [done|].
  rewrite (walk_snoc w i p j Hp Hne). rewrite elem_of_app. by left.
Qed.

(** After [N] rounds the cell is the least weight of a walk, or [Inf] when
    there is none. *)
Lemma fw_shortest i j :
  (forall p, walk w i p j ->
     fw w N i j <> Inf /\ (fw w N i j <= walk_weight w i p)%Z) /\
  (fw w N i j <> Inf ->
     exists p, walk w i p j /\ walk_weight w i p = fw w N i j).
Proof.
  destruct (fw_inv N) as [HS HC]. split.
  - intros p Hp. apply HC; [done|]. by eapply walk_inner_lt.
  - intros Hfin. destruct (HS i j Hfin) as (p & ? & _ & ?). eauto.
Qed.
End FloydWarshall.

(** ** The in-place loops compute the recurrence *)

Lemma nth_map_seq {A} (f : nat -> A) N i d : i < N -> nth i (map f (seq 0 N)) d = f i.
Proof.
  intros Hi. rewrite (nth_indep _ d (f 0)) by (by rewrite length_map, length_seq).
  rewrite map_nth, seq_nth by done. done.
Qed.

Lemma square_tabulate (f : nat -> nat -> Z) N :
  square N (map (fun i => map (f i) (seq 0 N)) (seq 0 N)).
Proof.
  split.
  - by rewrite length_map, length_seq.
  - intros i Hi. rewrite nth_map_seq by done. by rewrite length_map, length_seq.
Qed.

Lemma mget_tabulate (f : nat -> nat -> Z) N i j :
  i < N -> j < N -> mget (map (fun i => map (f i) (seq 0 N)) (seq 0 N)) i j = f i j.
Proof. intros Hi Hj. unfold mget. by rewrite !nth_map_seq. Qed.

Lemma Weight_lt g i j :
  square (NumNodes g) (AdjMatrix g) -> (0 < Weight g i j)%Z ->
  i < NumNodes g /\ j < NumNodes g.
Proof.
  intros Hsq Hpos. unfold Weight in Hpos.
  destruct (decide (i < NumNodes g /\ j < NumNodes g)) as [|Hn]; [done|].
  rewrite (mget_square_oob _ _ _ _ Hsq) in Hpos by lia. lia.
Qed.

Section InPlace.
Variable w : nat -> nat -> Z.
Variable N : nat.
Hypothesis Hw : forall i j, (0 <= w i j <= 1000)%Z.
Hypothesis HwN : forall i j, (0 < w i j)%Z -> i < N /\ j < N.
Hypothesis Hfits : fits N.

Lemma round_state_read_col k d i n a :
  round_state w N k d i n -> a < N -> k < N -> mget d a k = fw w k a k.
Proof.
  intros [_ H] Ha Hk. rewrite H by done. case_decide; [|done].
  by eapply fw_S_col.
Qed.

Lemma round_state_read_row k d i n b :
  round_state w N k d i n -> b < N -> k < N -> mget d k b = fw w k k b.
Proof.
  intros [_ H] Hb Hk. rewrite H by done. case_decide; [|done].
  by eapply fw_S_row.
Qed.

Lemma relax_cell_state k d i n :
  k < N -> i < N -> n < N ->
  fw w k i k <> Inf ->
  round_state w N k d i n -> round_state w N k (relax_cell k i d n) i (S n).
Proof.
  intros Hk Hi Hn Ha Hst.
  pose proof (round_state_read_col k d i n i Hst Hi Hk) as Hcol.
  pose proof (round_state_read_row k d i n n Hst Hn Hk) as Hrow.
  destruct Hst as [Hsq Hc].
  assert (mget d i n = fw w k i n) as Hcur.
  { rewrite Hc by done. rewrite decide_False; [done|lia]. }
  assert (fw w (S k) i n =
          if (fw w k k n =? Inf)%Z then fw w k i n
          else if (wadd (fw w k i k) (fw w k k n) <? fw w k i n)%Z
               then wadd (fw w k i k) (fw w k k n) else fw w k i n) as Hnew.
  { simpl. unfold relax. by rewrite (proj2 (Z.eqb_neq _ _) Ha). }
  unfold relax_cell. rewrite Hrow, Hcol, Hcur.
  assert (forall d', square N d' ->
            (forall a b, a < N -> b < N -> (a, b) <> (i, n) -> mget d' a b = mget d a b) ->
            mget d' i n = fw w (S k) i n ->
            round_state w N k d' i (S n)) as Hgen.
  { intros d' Hsq' Hother Hin. split; [done|]. intros a b Ha' Hb'.
    destruct (decide ((a, b) = (i, n))) as [[= -> ->]|Hne].
    - rewrite Hin. rewrite decide_True; [done|lia].
    - rewrite Hother, Hc by done. apply decide_ext.
      assert (a <> i \/ b <> n) by (destruct (decide (a = i)); [right|left]; congruence).
      lia. }
  destruct (fw w k k n =? Inf)%Z eqn:Eb.
  { apply Hgen; [done|done|]. by rewrite Hnew, Hcur. }
  destruct (_ <? _)%Z eqn:Ed.
  - apply Hgen.
    + by apply square_mset.
    + intros a b _ _ Hne. by apply mget_mset_ne.
    + rewrite Hnew. apply mget_mset_eq; destruct Hsq as [Hl Hr]; rewrite ?Hr; lia.
  - apply Hgen; [done|done|]. by rewrite Hnew, Hcur.
Qed.

Lemma relax_row_state k d i :
  k < N -> i < N ->
  round_state w N k d i 0 -> round_state w N k (relax_row N k d i) (S i) 0.
Proof.
  intros Hk Hi Hst.
  pose proof (round_state_read_col k d i 0 i Hst Hi Hk) as Hcol.
  assert (forall d', round_state w N k d' i N -> round_state w N k d' (S i) 0) as Hend.
  { intros d' [Hsq Hc]. split; [done|]. intros a b Ha Hb.
    rewrite Hc by done. apply decide_ext. lia. }
  unfold relax_row. rewrite Hcol.
  destruct (fw w k i k =? Inf)%Z eqn:Ea; bool_to_prop.
  - destruct Hst as [Hsq Hc]. split; [done|]. intros a b Ha Hb.
    rewrite Hc by done. destruct (decide (a = i)) as [->|Hne].
    + rewrite decide_False by lia. rewrite decide_True by lia.
      simpl. unfold relax. by rewrite Ea, Z.eqb_refl.
    + apply decide_ext. lia.
  - apply Hend.
    assert (forall n, n <= N ->
              round_state w N k (fold_left (relax_cell k i) (seq 0 n) d) i n) as Hfold.
    { induction n as [|n IH]; intros Hn; [done|].
      rewrite fold_left_seq_S. apply relax_cell_state; auto with lia. }
    by apply Hfold.
Qed.

Lemma relax_k_state k d :
  k < N ->
  round_state w N k d 0 0 -> round_state w N (S k) (relax_k N d k) 0 0.
Proof.
  intros Hk Hst.
  assert (forall i, i <= N ->
            round_state w N k (fold_left (relax_row N k) (seq 0 i) d) i 0) as Hfold.
  { induction i as [|i IH]; intros Hi; [done|].
    rewrite fold_left_seq_S. apply relax_row_state; auto with lia. }
  destruct (Hfold N (le_n _)) as [Hsq Hc]. split; [done|].
  intros a b Ha Hb. unfold relax_k. rewrite Hc by done.
  rewrite decide_True by lia. rewrite decide_False by lia. done.
Qed.

Lemma floyd_rounds d n :
  n <= N ->
  round_state w N 0 d 0 0 -> round_state w N n (fold_left (relax_k N) (seq 0 n) d) 0 0.
Proof.
  intros Hn Hst. induction n as [|n IH]; [done|].
  rewrite fold_left_seq_S. apply relax_k_state; auto with lia.
Qed.
End InPlace.

(** The slice [dist] of [RunFloyd] holds the recurrence after [N] rounds. *)
Lemma floyd_dist_fw g :
  wf_graph g -> fits (NumNodes g) ->
  square (NumNodes g) (floyd_dist g (NumNodes g)) /\
  forall i j, i < NumNodes g -> j < NumNodes g ->
    mget (floyd_dist g (NumNodes g)) i j = fw (Weight g) (NumNodes g) i j.
Proof.
  intros (Hnd & Hsq & Hbnd & _) Hfits.
  destruct (floyd_rounds (Weight g) (NumNodes g) Hbnd (fun i j => Weight_lt g i j Hsq) Hfits
              (init_dist g (NumNodes g)) (NumNodes g) (le_n _)) as [Hsq' Hc].
  - split; [apply square_tabulate|]. intros a b Ha Hb.
    unfold init_dist. rewrite mget_tabulate by done.
    rewrite decide_False by lia. done.
  - split; [done|]. intros i j Hi Hj. unfold floyd_dist. rewrite Hc by done.
    rewrite decide_False by lia. done.
Qed.

(** ** RunFloyd: distances *)

Lemma nth_flat_map_seq {A} (f : nat -> nat -> A) N n a i j d :
  i < n -> j < N ->
  nth (i * N + j) (flat_map (fun i => map (f i) (seq 0 N)) (seq a n)) d = f (a + i) j.
Proof.
  revert a i. induction n as [|n IH]; intros a i Hi Hj; [lia|].
  simpl. destruct i as [|i].
  - rewrite app_nth1 by (by rewrite length_map, length_seq).
    rewrite nth_map_seq by done. f_equal. lia.
  - rewrite app_nth2 by (rewrite length_map, length_seq; simpl; lia).
    rewrite length_map, length_seq.
    replace (S i * N + j - N) with (i * N + j) by (simpl; lia).
    rewrite IH by lia. f_equal. lia.
Qed.

Lemma length_flat_map_seq {A} (f : nat -> nat -> A) N n a :
  length (flat_map (fun i => map (f i) (seq 0 N)) (seq a n)) = n * N.
Proof.
  revert a. induction n as [|n IH]; intros a; [done|].
  simpl. rewrite length_app, length_map, length_seq, IH. done.
Qed.

Lemma pair_at_RunFloyd g i j :
  i < NumNodes g -> j < NumNodes g ->
  pair_at (Results (RunFloyd g)) (NumNodes g) i j =
  pair_result g (floyd_dist g (NumNodes g))
    (build_pred g (NumNodes g) (floyd_dist g (NumNodes g))) i j.
Proof.
  intros Hi Hj. unfold pair_at, RunFloyd. cbn [Results].
  by rewrite (nth_flat_map_seq _ _ _ 0) by done.
Qed.

Lemma Inf_big N : fits N -> (1000 * Z.of_nat N < Inf)%Z.
Proof. unfold fits. lia. Qed.

(** Distances on any well-formed graph store. *)
Lemma RunFloyd_pair g i j :
  wf_graph g -> fits (NumNodes g) -> i < NumNodes g -> j < NumNodes g ->
  let pr := pair_at (Results (RunFloyd g)) (NumNodes g) i j in
  From pr = Name g i /\ To pr = Name g j /\
  (forall p, walk (Weight g) i p j ->
     Distance pr <> (-1)%Z /\ (Distance pr <= walk_weight (Weight g) i p)%Z) /\
  (Distance pr <> (-1)%Z ->
     exists p, walk (Weight g) i p j /\ walk_weight (Weight g) i p = Distance pr) /\
  (~ reachable g i j -> Distance pr = (-1)%Z /\ Paths pr = []) /\
  (i = j -> Distance pr = 0%Z /\ Paths pr = [[Name g i]]).
Proof.
  intros Hwf Hfits Hi Hj pr. subst pr. rewrite pair_at_RunFloyd by done.
  destruct (floyd_dist_fw g Hwf Hfits) as [Hsq Hd].
  pose proof Hwf as (Hnd & Hsqg & Hbnd & _).
  pose proof (fw_shortest (Weight g) (NumNodes g) Hbnd
                (fun i j => Weight_lt g i j Hsqg) Hfits i j) as [Hmin Hex].
  pose proof (fw_range (Weight g) (NumNodes g) Hbnd
                (fun i j => Weight_lt g i j Hsqg) Hfits (NumNodes g) i j) as Hr.
  pose proof (fw_diag (Weight g) (NumNodes g) Hbnd
                (fun i j => Weight_lt g i j Hsqg) Hfits (NumNodes g) i) as Hdiag.
  pose proof (Inf_big _ Hfits) as Hbig.
  unfold pair_result. rewrite Hd by done.
  destruct (fw (Weight g) (NumNodes g) i j =? Inf)%Z eqn:E; bool_to_prop;
    cbn [From To Distance Paths].
  - split_and!; try done.
    + intros p Hp. destruct (Hmin p Hp) as [Hne _]. by destruct Hne.
    + intros ->. rewrite Hdiag in E. unfold Inf in E. lia.
  - destruct Hr as [|Hr]; [done|]. split_and!; try done.
    + intros p Hp. destruct (Hmin p Hp). split; lia.
    + intros _. by apply Hex.
    + intros Hn. exfalso. apply Hn. destruct (Hex E) as (p & ? & _). by exists p.
    + intros ->. split; [done|]. unfold enumeratePaths. by rewrite Nat.eqb_refl.
Qed.

(** C1. On a graph accepted by [NewFromStruct], the entry of [RunFloyd] for
    the ordered pair [(i, j)] carries the least total weight over all directed
    walks from [i] to [j] (so [0] when [i = j], self-loop or not), and [-1]
    when there is none; a self-pair lists exactly the one-node path. *)
Theorem RunFloyd_shortest_distance gj g i j :
  NewFromStruct gj = (Some g, None) -> fits (NumNodes g) ->
  i < NumNodes g -> j < NumNodes g ->
  let pr := pair_at (Results (RunFloyd g)) (NumNodes g) i j in
  From pr = Name g i /\ To pr = Name g j /\
  (forall p, walk (Weight g) i p j ->
     Distance pr <> (-1)%Z /\ (Distance pr <= walk_weight (Weight g) i p)%Z) /\
  (Distance pr <> (-1)%Z ->
     exists p, walk (Weight g) i p j /\ walk_weight (Weight g) i p = Distance pr) /\
  (~ reachable g i j -> Distance pr = (-1)%Z) /\
  (i = j -> Distance pr = 0%Z /\ Paths pr = [[Name g i]]).
Proof.
  intros Hnew Hfits Hi Hj pr.
  destruct (NewFromStruct_wf gj g Hnew) as (Hwf & _ & _).
  destruct (RunFloyd_pair g i j Hwf Hfits Hi Hj) as (H1 & H2 & H3 & H4 & H5 & H6).
  split_and!; try done. intros Hn. by destruct (H5 Hn).
Qed.

(** ** Path enumeration *)

Lemma fold_left_ext_in {A B} (f h : A -> B -> A) l a :
  (forall a b, b ∈ l -> f a b = h a b) -> fold_left f l a = fold_left h l a.
Proof.
  revert a. induction l as [|b l IH]; intros a H; simpl; [done|].
  rewrite H by left. apply IH. intros a' b' Hb'. apply H. by right.
Qed.

Lemma fold_left_invariant {A B} (P : A -> Prop) (f : A -> B -> A) l a :
  (forall a b, b ∈ l -> P a -> P (f a b)) -> P a -> P (fold_left f l a).
Proof.
  revert a. induction l as [|b l IH]; intros a H Ha; simpl; [done|].
  apply IH; [|apply H; [left|done]]. intros a' b' Hb'. apply H. by right.
Qed.

Lemma length_emit path st : length (emit path st).1 <= S (length st.1).
Proof.
  unfold emit. case_bool_decide; cbn [fst]; [lia|]. rewrite length_app. simpl. lia.
Qed.

(** The cap: [collectPaths] never grows the output beyond [maxPaths]. *)
Lemma collectPaths_length fuel g dist pred i j suffix st maxPaths :
  length st.1 <= maxPaths ->
  length (collectPaths fuel g dist pred i j suffix st maxPaths).1 <= maxPaths.
Proof.
  revert i j suffix st. induction fuel as [|fuel IH]; intros i j suffix st Hlen; [done|].
  simpl. destruct (maxPaths <=? length st.1) eqn:E; bool_to_prop; [done|].
  destruct (i =? j).
  { pose proof (length_emit (Name g i :: suffix) st). lia. }
  apply fold_left_invariant.
  - intros st' m _ Hst'. by apply IH.
  - destruct (_ && _); [|done].
    pose proof (length_emit (Name g i :: suffix) st). lia.
Qed.

Lemma enumeratePaths_length g dist pred i j maxPaths :
  0 < maxPaths -> length (enumeratePaths g dist pred i j maxPaths) <= maxPaths.
Proof.
  intros Hmax. unfold enumeratePaths.
  destruct (i =? j); [simpl; lia|].
  destruct (_ =? _)%Z; [simpl; lia|].
  apply collectPaths_length. simpl. lia.
Qed.

Section CollectPaths.
Variables (g : Graph) (N : nat) (dist : list (list Z)) (pred : list (list (list nat))).
Variables (i J maxPaths : nat).
Hypothesis Hpred : pred_ok g N dist pred.

Lemma suffix_ok_pred j suffix m :
  suffix_ok g N dist i J j suffix -> m ∈ pget pred i j ->
  suffix_ok g N dist i J m (Name g m :: suffix).
Proof.
  intros (Hij & Hi & q & -> & Hq & Hnd & Hiq & Hall & Hlt & Hsum) Hm.
  assert (j < N) as Hj by (by inversion Hall).
  destruct (Hpred i j m Hi Hj Hm) as (HmN & Hmi & Hw & Hd0 & Hd).
  split_and!; [done|done|].
  exists (j :: q). split_and!.
  - done.
  - done.
  - apply NoDup_cons. split; [|done].
    intros Hin. apply elem_of_cons in Hin as [->|Hin]; [lia|].
    specialize (Hlt m Hin). lia.
  - intros Hin. apply elem_of_cons in Hin as [->|Hin]; done.
  - by constructor.
  - intros v Hv. apply elem_of_cons in Hv as [->|Hv]; [lia|].
    specialize (Hlt v Hv). lia.
  - simpl. lia.
Qed.

Lemma out_ok_emit j suffix st :
  suffix_ok g N dist i J j suffix ->
  (0 < Weight g i j)%Z -> Weight g i j = mget dist i j ->
  out_ok g N dist i J st -> out_ok g N dist i J (emit (Name g i :: suffix) st).
Proof.
  intros (Hij & Hi & q & -> & Hq & Hnd & Hiq & Hall & Hlt & Hsum) Hw Hwd
         (Hgood & Hnd' & Hseen).
  unfold emit. case_bool_decide as Hkey; [done|]. cbn [fst snd].
  split_and!.
  - apply Forall_app. split; [done|]. constructor; [|constructor].
    exists (j :: q). split_and!; [done|done| |by constructor|simpl; lia].
    apply NoDup_cons. split; [|done].
    intros Hin. apply elem_of_cons in Hin as [->|Hin]; done.
  - apply NoDup_app. split_and!; [done| |apply NoDup_singleton].
    intros p Hp Hp'. apply list_elem_of_singleton in Hp'. subst.
    by apply Hkey, Hseen.
  - intros p Hp. apply elem_of_app in Hp as [Hp|Hp].
    + apply elem_of_union. right. by apply Hseen.
    + apply list_elem_of_singleton in Hp. subst. apply elem_of_union. left.
      by apply elem_of_singleton.
Qed.

Lemma collectPaths_ok fuel j suffix st :
  suffix_ok g N dist i J j suffix -> out_ok g N dist i J st ->
  out_ok g N dist i J (collectPaths fuel g dist pred i j suffix st maxPaths).
Proof.
  revert j suffix st. induction fuel as [|fuel IH]; intros j suffix st Hsuf Hst; [done|].
  simpl. destruct (maxPaths <=? length st.1); [done|].
  pose proof Hsuf as (Hij & _).
  rewrite (proj2 (Nat.eqb_neq _ _) Hij).
  apply fold_left_invariant.
  - intros st' m Hm Hst'. apply IH; [|done]. by eapply suffix_ok_pred.
  - destruct (_ && _) eqn:E; [|done]. bool_to_prop. by eapply out_ok_emit.
Qed.

(** Fuel beyond [path_fuel] changes nothing. *)
Lemma collectPaths_fuel f1 f2 j suffix st :
  i < N -> j < N -> (0 <= mget dist i j)%Z ->
  Z.to_nat (mget dist i j) < f1 -> Z.to_nat (mget dist i j) < f2 ->
  collectPaths f1 g dist pred i j suffix st maxPaths =
  collectPaths f2 g dist pred i j suffix st maxPaths.
Proof.
  revert f2 j suffix st. induction f1 as [|f1 IH]; intros f2 j suffix st Hi Hj H0 H1 H2;
    [lia|].
  destruct f2 as [|f2]; [lia|]. simpl.
  destruct (maxPaths <=? length st.1); [done|].
  destruct (i =? j); [done|].
  apply fold_left_ext_in. intros st' m Hm.
  destruct (Hpred i j m Hi Hj Hm) as (HmN & Hmi & Hw & Hd0 & Hd).
  apply IH; try done; lia.
Qed.
End CollectPaths.

Lemma pget_build_pred g N dist i j :
  i < N -> j < N ->
  pget (build_pred g N dist) i j =
  if (i =? j) || (mget dist i j =? Inf)%Z then []
  else List.filter (is_pred g dist i j) (seq 0 N).
Proof. intros Hi Hj. unfold pget, build_pred. by rewrite !nth_map_seq. Qed.

Lemma floyd_dist_range g i j :
  wf_graph g -> fits (NumNodes g) -> i < NumNodes g -> j < NumNodes g ->
  mget (floyd_dist g (NumNodes g)) i j = Inf \/
  (0 <= mget (floyd_dist g (NumNodes g)) i j <= 1000 * Z.of_nat (NumNodes g))%Z.
Proof.
  intros Hwf Hfits Hi Hj. destruct (floyd_dist_fw g Hwf Hfits) as [_ Hd].
  rewrite Hd by done. destruct Hwf as (_ & Hsq & Hbnd & _).
  exact (fw_range (Weight g) (NumNodes g) Hbnd
           (fun i j => Weight_lt g i j Hsq) Hfits (NumNodes g) i j).
Qed.

Lemma build_pred_ok g :
  wf_graph g -> fits (NumNodes g) ->
  pred_ok g (NumNodes g) (floyd_dist g (NumNodes g))
    (build_pred g (NumNodes g) (floyd_dist g (NumNodes g))).
Proof.
  intros Hwf Hfits i j m Hi Hj Hm.
  rewrite pget_build_pred in Hm by done.
  destruct (_ || _); [by apply elem_of_nil in Hm|].
  apply list_elem_of_In, filter_In in Hm as [Hm Hp]. apply in_seq in Hm.
  unfold is_pred in Hp. bool_to_prop.
  destruct (floyd_dist_range g i m Hwf Hfits Hi ltac:(lia)) as [|Hr]; [done|].
  pose proof Hwf as (_ & _ & Hbnd & _). specialize (Hbnd m j).
  rewrite wadd_small in * by (unfold fits, Inf, in_int in *; lia).
  split_and!; try done; lia.
Qed.

Lemma NoDup_map_Name g l :
  NoDup (Nodes g) -> NoDup l -> Forall (fun v => v < NumNodes g) l ->
  NoDup (map (Name g) l).
Proof.
  intros Hg. induction l as [|a l IH]; intros Hnd Hall; simpl; [constructor|].
  apply NoDup_cons in Hnd as [Ha Hnd]. inversion Hall as [|? ? HaN Hall']; subst.
  apply NoDup_cons. split; [|by apply IH].
  intros Hin. apply list_elem_of_In, in_map_iff in Hin as (b & Heq & Hb).
  apply list_elem_of_In in Hb. rewrite Forall_forall in Hall'.
  apply Name_inj in Heq; [by subst|done|by apply Hall'|done].
Qed.

Lemma enumeratePaths_ok g i j maxPaths :
  wf_graph g -> fits (NumNodes g) -> i < NumNodes g -> j < NumNodes g ->
  let dist := floyd_dist g (NumNodes g) in
  let pred := build_pred g (NumNodes g) dist in
  mget dist i j <> Inf ->
  Forall (shortest_path_names g (NumNodes g) dist i j)
         (enumeratePaths g dist pred i j maxPaths) /\
  NoDup (enumeratePaths g dist pred i j maxPaths).
Proof.
  intros Hwf Hfits Hi Hj dist pred Hfin. unfold enumeratePaths.
  destruct (i =? j) eqn:E; bool_to_prop.
  - subst j. split; [|apply NoDup_singleton].
    constructor; [|constructor]. exists []. split_and!; try done.
    + apply NoDup_singleton.
    + by repeat constructor.
    + simpl. destruct (floyd_dist_fw g Hwf Hfits) as [_ Hd].
      subst dist. rewrite Hd by done. destruct Hwf as (_ & Hsq & Hbnd & _).
      symmetry. exact (fw_diag (Weight g) (NumNodes g) Hbnd
                         (fun i j => Weight_lt g i j Hsq) Hfits (NumNodes g) i).
  - rewrite (proj2 (Z.eqb_neq _ _) Hfin).
    destruct (collectPaths_ok g (NumNodes g) dist pred i j maxPaths
                (build_pred_ok g Hwf Hfits) (path_fuel dist i j) j [Name g j] ([], ∅))
      as (Hgood & Hnd & _); [| |done].
    + split_and!; [done|done|]. exists []. split_and!; try done.
      * apply NoDup_singleton.
      * intros Hin. by apply elem_of_nil in Hin.
      * by repeat constructor.
      * intros v Hv. by apply elem_of_nil in Hv.
    + split_and!; [constructor|constructor|].
      intros p Hp. by apply elem_of_nil in Hp.
Qed.

(** The recursion of [collectPaths] bottoms out: from [path_fuel] on, more
    fuel gives the same result. *)
Lemma collectPaths_fuel_irrelevant g i j fuel suffix st maxPaths :
  wf_graph g -> fits (NumNodes g) -> i < NumNodes g -> j < NumNodes g ->
  let dist := floyd_dist g (NumNodes g) in
  let pred := build_pred g (NumNodes g) dist in
  mget dist i j <> Inf ->
  path_fuel dist i j <= fuel ->
  collectPaths fuel g dist pred i j suffix st maxPaths =
  collectPaths (path_fuel dist i j) g dist pred i j suffix st maxPaths.
Proof.
  intros Hwf Hfits Hi Hj dist pred Hfin Hfuel. subst pred dist.
  destruct (floyd_dist_range g i j Hwf Hfits Hi Hj) as [|Hr]; [done|].
  apply (collectPaths_fuel g (NumNodes g) _ _ i maxPaths
           (build_pred_ok g Hwf Hfits)); try done; unfold path_fuel in *; lia.
Qed.

(** C2. For a pair with a finite distance, every listed path is a simple
    path from [i] to [j] along edges of the graph whose total weight is the
    reported distance, and the list has no path twice. *)
Theorem RunFloyd_paths_shortest gj g i j :
  NewFromStruct gj = (Some g, None) -> fits (NumNodes g) ->
  i < NumNodes g -> j < NumNodes g ->
  let pr := pair_at (Results (RunFloyd g)) (NumNodes g) i j in
  Distance pr <> (-1)%Z ->
  (forall names, names ∈ Paths pr ->
     exists p, names = map (Name g) (i :: p) /\ walk (Weight g) i p j /\
               NoDup (i :: p) /\ NoDup names /\
               walk_weight (Weight g) i p = Distance pr) /\
  NoDup (Paths pr).
Proof.
  intros Hnew Hfits Hi Hj pr. subst pr.
  destruct (NewFromStruct_wf gj g Hnew) as (Hwf & _ & _).
  rewrite pair_at_RunFloyd by done. unfold pair_result.
  destruct (_ =? Inf)%Z eqn:E; bool_to_prop; cbn [Distance Paths]; [done|].
  intros _.
  destruct (enumeratePaths_ok g i j MaxShortestPaths Hwf Hfits Hi Hj E) as [Hgood Hnd].
  split; [|done]. intros names Hin.
  rewrite Forall_forall in Hgood.
  destruct (Hgood names Hin) as (p & -> & Hp & Hndp & Hall & Hwt).
  exists p. split_and!; try done.
  apply NoDup_map_Name; [by destruct Hwf|done|done].
Qed.

(** ** FillViaNeighborPaths: what it leaves alone *)

Lemma set_via_primary rs fromName toName dedup :
  map primary (set_via rs fromName toName dedup) = map primary rs.
Proof.
  induction rs as [|pr rs IH]; simpl; [done|].
  destruct (_ && _); simpl; [done|]. by rewrite IH.
Qed.

Lemma fill_to_primary g sub oldToNew subDist subPred neighbors fromIdx rs toIdx :
  map primary (fill_to g sub oldToNew subDist subPred neighbors fromIdx rs toIdx) =
  map primary rs.
Proof.
  unfold fill_to. destruct (toIdx =? fromIdx); [done|].
  destruct (_ <? _)%Z; [done|]. apply set_via_primary.
Qed.

Lemma fill_from_primary g N rs fromIdx :
  map primary (fill_from g N rs fromIdx) = map primary rs.
Proof.
  unfold fill_from. destruct (_ =? 0); [done|].
  apply (fold_left_invariant (fun rs' => map primary rs' = map primary rs)); [|done].
  intros rs' toIdx _ <-. apply fill_to_primary.
Qed.

Lemma FillViaNeighborPaths_primary r :
  map primary (Results (FillViaNeighborPaths r)) = map primary (Results r).
Proof.
  unfold FillViaNeighborPaths. cbn [Results].
  apply (fold_left_invariant
           (fun rs' => map primary rs' = map primary (Results r))); [|done].
  intros rs' fromIdx _ <-. apply fill_from_primary.
Qed.

(** C9. [FillViaNeighborPaths] rewrites nothing but [ViaNeighborPaths]: the
    entries of [Results] keep their number, their order and their [From],
    [To], [Distance] and [Paths]; the graph, [dist] and [pred] stay too. *)
Theorem FillViaNeighborPaths_frame r :
  map primary (Results (FillViaNeighborPaths r)) = map primary (Results r) /\
  length (Results (FillViaNeighborPaths r)) = length (Results r) /\
  r_g (FillViaNeighborPaths r) = r_g r /\
  r_dist (FillViaNeighborPaths r) = r_dist r /\
  r_pred (FillViaNeighborPaths r) = r_pred r.
Proof.
  pose proof (FillViaNeighborPaths_primary r) as H.
  split_and!; try done.
  by rewrite <- (length_map primary), H, length_map.
Qed.

(** ** dedupPathsByKey *)

Lemma lookup_nth {A} (l : list A) i d : i < length l -> l !! i = Some (nth i l d).
Proof.
  intros Hi. rewrite nth_lookup. destruct (l !! i) eqn:E; [done|].
  apply lookup_ge_None in E. lia.
Qed.

Lemma length_swap c i j : length (swap c i j) = length c.
Proof. unfold swap. by rewrite !length_insert. Qed.

Lemma swap_perm c i j : i < length c -> j < length c -> swap c i j ≡ₚ c.
Proof.
  intros Hi Hj. unfold swap.
  apply Permutation_insert_swap; by apply lookup_nth.
Qed.

Lemma nth_swap c i j k :
  i < length c -> j < length c ->
  nth k (swap c i j) dflt_pd =
  if decide (k = j) then nth i c dflt_pd
  else if decide (k = i) then nth j c dflt_pd else nth k c dflt_pd.
Proof.
  intros Hi Hj. unfold swap. case_decide as E1.
  - subst. rewrite nth_insert_eq; [done|]. by rewrite length_insert.
  - rewrite nth_insert_ne by done. case_decide as E2.
    + subst. by rewrite nth_insert_eq.
    + by rewrite nth_insert_ne.
Qed.

Lemma dist_at_swap c i j k :
  i < length c -> j < length c ->
  dist_at (swap c i j) k =
  if decide (k = j) then dist_at c i
  else if decide (k = i) then dist_at c j else dist_at c k.
Proof.
  intros Hi Hj. unfold dist_at. rewrite nth_swap by done.
  by repeat case_decide.
Qed.

Lemma sort_cell_fold c i n :
  i < length c -> S i + n <= length c ->
  (forall a b, a < i -> a < b < length c -> (dist_at c a <= dist_at c b)%Z) ->
  length (fold_left (sort_cell i) (seq (S i) n) c) = length c /\
  fold_left (sort_cell i) (seq (S i) n) c ≡ₚ c /\
  (forall a b, a < i -> a < b < length c ->
     (dist_at (fold_left (sort_cell i) (seq (S i) n) c) a <=
      dist_at (fold_left (sort_cell i) (seq (S i) n) c) b)%Z) /\
  (forall b, i < b < S i + n ->
     (dist_at (fold_left (sort_cell i) (seq (S i) n) c) i <=
      dist_at (fold_left (sort_cell i) (seq (S i) n) c) b)%Z).
Proof.
  intros Hi Hn Hpre. induction n as [|n IH].
  - simpl. split_and!; [done|done|done|]. intros b Hb. lia.
  - specialize (IH ltac:(lia)). destruct IH as (Hlen & Hperm & H2 & H3).
    rewrite fold_left_seq_S.
    set (c' := fold_left (sort_cell i) (seq (S i) n) c) in *.
    unfold sort_cell. fold (dist_at c' (S i + n)). fold (dist_at c' i).
    destruct (_ <? _)%Z eqn:E; bool_to_prop.
    + split_and!.
      * by rewrite length_swap.
      * rewrite swap_perm by lia. done.
      * intros a b Ha Hb. rewrite !dist_at_swap by lia.
        pose proof (H2 a i Ha ltac:(lia)). pose proof (H2 a (S i + n) Ha ltac:(lia)).
        pose proof (H2 a b Ha Hb).
        repeat case_decide; lia.
      * intros b Hb. rewrite !dist_at_swap by lia.
        destruct (decide (b = S i + n)) as [->|Hne].
        -- repeat case_decide; lia.
        -- pose proof (H3 b ltac:(lia)). repeat case_decide; lia.
    + split_and!; [done|done|done|].
      intros b Hb. destruct (decide (b = S i + n)) as [->|Hne]; [lia|].
      apply H3. lia.
Qed.

Lemma sort_row_fold c n :
  n <= length c ->
  length (fold_left sort_row (seq 0 n) c) = length c /\
  fold_left sort_row (seq 0 n) c ≡ₚ c /\
  (forall a b, a < n -> a < b < length c ->
     (dist_at (fold_left sort_row (seq 0 n) c) a <=
      dist_at (fold_left sort_row (seq 0 n) c) b)%Z).
Proof.
  induction n as [|n IH]; intros Hn.
  - simpl. split_and!; [done|done|]. intros a b Ha. lia.
  - specialize (IH ltac:(lia)). destruct IH as (Hlen & Hperm & H2).
    rewrite fold_left_seq_S. simpl.
    set (c' := fold_left sort_row (seq 0 n) c) in *.
    unfold sort_row.
    destruct (sort_cell_fold c' n (length c' - S n)) as (Hlen' & Hperm' & H2' & H3');
      [lia|lia| |].
    { intros a b Ha Hb. apply H2; lia. }
    split_and!.
    + congruence.
    + by rewrite Hperm'.
    + intros a b Ha Hb. destruct (decide (a = n)) as [->|Hne].
      * apply H3'. lia.
      * apply H2'; lia.
Qed.

Lemma StronglySorted_nth (c : list PathDist) :
  (forall a b, a < b < length c -> (dist_at c a <= dist_at c b)%Z) ->
  StronglySorted by_distance c.
Proof.
  induction c as [|x c IH]; intros H; constructor.
  - apply IH. intros a b Hab. apply (H (S a) (S b)). simpl. lia.
  - apply List.Forall_forall. intros y Hy.
    apply (In_nth _ _ dflt_pd) in Hy as (k & Hk & <-).
    apply (H 0 (S k)). simpl. lia.
Qed.

(** The exchange sort does sort, and loses nothing. *)
Lemma sort_by_distance_sorted c :
  sort_by_distance c ≡ₚ c /\ StronglySorted by_distance (sort_by_distance c).
Proof.
  unfold sort_by_distance.
  destruct (sort_row_fold c (length c) (le_n _)) as (Hlen & Hperm & H2).
  split; [done|]. apply StronglySorted_nth.
  intros a b Hab. rewrite Hlen in Hab. apply H2; lia.
Qed.

(** ** FillViaNeighborPaths: what it writes *)

Lemma set_via_first rs fromName toName dedup k :
  k < length rs ->
  names_match fromName toName (nth k rs dflt_pr) = true ->
  (forall k', k' < k -> names_match fromName toName (nth k' rs dflt_pr) = false) ->
  set_via rs fromName toName dedup = <[k := with_via (nth k rs dflt_pr) dedup]> rs.
Proof.
  revert k. induction rs as [|pr rs IH]; intros k Hk Hm Hfirst; [simpl in Hk; lia|].
  simpl. fold (names_match fromName toName pr). destruct k as [|k].
  - simpl in Hm. by rewrite Hm.
  - pose proof (Hfirst 0 ltac:(lia)) as H0. simpl in H0. rewrite H0. simpl. f_equal.
    apply IH; [simpl in Hk; lia|done|].
    intros k' Hk'. apply (Hfirst (S k')). lia.
Qed.

Lemma pair_index_inj N a b i j :
  b < N -> j < N -> a * N + b = i * N + j -> a = i /\ b = j.
Proof.
  intros Hb Hj H. destruct (lt_eq_lt_dec a i) as [[Hlt|Heq]|Hgt].
  - assert (S a * N <= i * N) by (apply Nat.mul_le_mono_r; lia). simpl in *. lia.
  - subst. lia.
  - assert (S i * N <= a * N) by (apply Nat.mul_le_mono_r; lia). simpl in *. lia.
Qed.

Lemma pair_index_lt N a b : a < N -> b < N -> a * N + b < N * N.
Proof.
  intros Ha Hb.
  assert (S a * N <= N * N) by (apply Nat.mul_le_mono_r; lia). simpl in *. lia.
Qed.

Lemma set_via_at g rs i j dedup a b :
  NoDup (Nodes g) ->
  let N := NumNodes g in
  length rs = N * N ->
  (forall a b, a < N -> b < N ->
     From (pair_at rs N a b) = Name g a /\ To (pair_at rs N a b) = Name g b) ->
  i < N -> j < N -> a < N -> b < N ->
  length (set_via rs (Name g i) (Name g j) dedup) = N * N /\
  pair_at (set_via rs (Name g i) (Name g j) dedup) N a b =
  if decide (a = i /\ b = j) then with_via (pair_at rs N a b) dedup
  else pair_at rs N a b.
Proof.
  intros Hnd N Hlen Hnames Hi Hj Ha Hb.
  rewrite (set_via_first rs _ _ dedup (i * N + j)).
  - split; [by rewrite length_insert|]. unfold pair_at.
    case_decide as E.
    + destruct E as [-> ->]. rewrite nth_insert_eq; [done|].
      rewrite Hlen. by apply pair_index_lt.
    + rewrite nth_insert_ne; [done|]. intros Heq.
      apply pair_index_inj in Heq; [|done..]. apply E. by destruct Heq.
  - rewrite Hlen. by apply pair_index_lt.
  - destruct (Hnames i j Hi Hj) as [HF HT]. unfold pair_at in HF, HT.
    unfold names_match. rewrite HF, HT. by rewrite !String.eqb_refl.
  - intros k' Hk'.
    assert (0 < N) as HN by lia.
    assert (k' = (k' / N) * N + k' mod N) as Hdm.
    { pose proof (Nat.div_mod_eq k' N). lia. }
    assert (k' mod N < N) as Hmod by (apply Nat.mod_upper_bound; lia).
    assert (k' / N < N) as Hdiv.
    { apply Nat.Div0.div_lt_upper_bound. pose proof (pair_index_lt N i j Hi Hj). lia. }
    destruct (Hnames (k' / N) (k' mod N) Hdiv Hmod) as [HF HT].
    unfold pair_at in HF, HT. rewrite <- Hdm in HF, HT.
    unfold names_match. rewrite HF, HT.
    destruct (String.eqb_spec (Name g (k' / N)) (Name g i)) as [E1|E1]; [|done].
    destruct (String.eqb_spec (Name g (k' mod N)) (Name g j)) as [E2|E2]; [|done].
    apply Name_inj in E1; [|done..]. apply Name_inj in E2; [|done..].
    exfalso. rewrite E1, E2 in Hdm. lia.
Qed.

Lemma with_via_pair_result g dist pred a b :
  with_via (pair_result g dist pred a b) [] = pair_result g dist pred a b.
Proof. unfold pair_result, with_via. by destruct (_ =? _)%Z. Qed.

Lemma with_via_with_via pr v v' : with_via (with_via pr v) v' = with_via pr v'.
Proof. done. Qed.

Lemma pair_result_names g dist pred a b v :
  From (with_via (pair_result g dist pred a b) v) = Name g a /\
  To (with_via (pair_result g dist pred a b) v) = Name g b.
Proof. unfold pair_result, with_via. by destruct (_ =? _)%Z. Qed.

Lemma fill_state_names g n m rs a b :
  fill_state g n m rs -> a < NumNodes g -> b < NumNodes g ->
  From (pair_at rs (NumNodes g) a b) = Name g a /\
  To (pair_at rs (NumNodes g) a b) = Name g b.
Proof.
  intros [_ H] Ha Hb. rewrite H by done. apply pair_result_names.
Qed.

Lemma fill_state_init g : fill_state g 0 0 (Results (RunFloyd g)).
Proof.
  split.
  - unfold RunFloyd. cbn [Results]. by rewrite length_flat_map_seq.
  - intros a b Ha Hb. rewrite pair_at_RunFloyd by done.
    rewrite decide_False by lia. by rewrite with_via_pair_result.
Qed.

Lemma fill_to_step g n m rs :
  wf_graph g -> n < NumNodes g -> m < NumNodes g ->
  length (Neighbors g n) <> 0 ->
  fill_state g n m rs ->
  fill_state g n (S m)
    (fill_to g (CopyWithoutNode g n).1 (CopyWithoutNode g n).2
       (runFloydOnSubgraph (CopyWithoutNode g n).1).1
       (runFloydOnSubgraph (CopyWithoutNode g n).1).2
       (Neighbors g n) n rs m).
Proof.
  intros Hwf Hn Hm Hnb Hst. unfold fill_to.
  destruct (m =? n) eqn:E; bool_to_prop.
  - subst m. destruct Hst as [Hlen Hc]. split; [done|].
    intros a b Ha Hb. rewrite Hc by done.
    destruct (decide (a = n /\ b = n)) as [[-> ->]|Hne].
    + rewrite decide_False by lia. rewrite decide_True by lia.
      unfold via_for. by rewrite Nat.eqb_refl.
    + f_equal. apply decide_ext. lia.
  - destruct (CopyWithoutNode_facts g n Hn) as (_ & _ & _ & _ & _ & _ & _ & Hmap).
    destruct (Hmap m Hm E) as (Hnew & _ & _). rewrite Hnew.
    destruct (_ <? 0)%Z eqn:E'; bool_to_prop; [lia|]. rewrite <- Hnew.
    pose proof Hwf as (Hnd & _).
    destruct Hst as [Hlen Hc]. split.
    + apply (set_via_at g rs n m _ 0 0 Hnd Hlen); try done; try lia.
      intros a b Ha Hb. apply (fill_state_names g n m); [by split|done..].
    + intros a b Ha Hb.
      destruct (set_via_at g rs n m
                  (dedupPathsByKey (via_candidates g (CopyWithoutNode g n).1
                     (CopyWithoutNode g n).2
                     (runFloydOnSubgraph (CopyWithoutNode g n).1).1
                     (runFloydOnSubgraph (CopyWithoutNode g n).1).2
                     (Neighbors g n) n (nth m (CopyWithoutNode g n).2 0%Z))
                     MaxViaNeighborPaths) a b Hnd Hlen) as [_ ->]; try done.
      { intros a' b' Ha' Hb'. apply (fill_state_names g n m); [by split|done..]. }
      rewrite Hc by done. case_decide as Eab.
      * destruct Eab as [-> ->]. rewrite with_via_with_via.
        rewrite decide_True by lia. f_equal. unfold via_for.
        rewrite (proj2 (Nat.eqb_neq _ _) E), (proj2 (Nat.eqb_neq _ _) Hnb). done.
      * f_equal. apply decide_ext. lia.
Qed.

Lemma fill_from_step g n rs :
  wf_graph g -> n < NumNodes g ->
  fill_state g n 0 rs -> fill_state g (S n) 0 (fill_from g (NumNodes g) rs n).
Proof.
  intros Hwf Hn Hst.
  assert (forall rs', fill_state g n (NumNodes g) rs' -> fill_state g (S n) 0 rs') as Hend.
  { intros rs' [Hlen Hc]. split; [done|]. intros a b Ha Hb.
    rewrite Hc by done. f_equal. apply decide_ext. lia. }
  unfold fill_from. destruct (_ =? 0) eqn:E; bool_to_prop.
  - destruct Hst as [Hlen Hc]. split; [done|]. intros a b Ha Hb.
    rewrite Hc by done. f_equal. destruct (decide (a = n)) as [->|Hne].
    + rewrite decide_False by lia. rewrite decide_True by lia.
      unfold via_for. rewrite E. by rewrite orb_true_r.
    + apply decide_ext. lia.
  - apply Hend.
    assert (forall m, m <= NumNodes g ->
              fill_state g n m
                (fold_left (fill_to g (CopyWithoutNode g n).1 (CopyWithoutNode g n).2
                   (runFloydOnSubgraph (CopyWithoutNode g n).1).1
                   (runFloydOnSubgraph (CopyWithoutNode g n).1).2
                   (Neighbors g n) n) (seq 0 m) rs)) as Hfold.
    { induction m as [|m IH]; intros Hm; [done|].
      rewrite fold_left_seq_S. apply fill_to_step; auto with lia. }
    by apply Hfold.
Qed.

(** Every entry after the post-pass: the primary result with the
    via-neighbor list of its pair. *)
Lemma FillViaNeighborPaths_pair_at g a b :
  wf_graph g -> a < NumNodes g -> b < NumNodes g ->
  pair_at (Results (FillViaNeighborPaths (RunFloyd g))) (NumNodes g) a b =
  with_via (pair_at (Results (RunFloyd g)) (NumNodes g) a b) (via_for g a b).
Proof.
  intros Hwf Ha Hb.
  assert (forall n, n <= NumNodes g ->
            fill_state g n 0
              (fold_left (fill_from g (NumNodes g)) (seq 0 n) (Results (RunFloyd g))))
    as Hfold.
  { induction n as [|n IH]; intros Hn; [apply fill_state_init|].
    rewrite fold_left_seq_S. apply fill_from_step; auto with lia. }
  destruct (Hfold _ (le_n _)) as [_ Hc].
  rewrite pair_at_RunFloyd by done.
  unfold FillViaNeighborPaths. cbn [Results].
  change (r_g (RunFloyd g)) with g.
  rewrite Hc by done. by rewrite decide_True by lia.
Qed.

Lemma length_Results_Fill g :
  length (Results (FillViaNeighborPaths (RunFloyd g))) = NumNodes g * NumNodes g.
Proof.
  rewrite <- (length_map primary), FillViaNeighborPaths_primary, length_map.
  unfold RunFloyd. cbn [Results]. by rewrite length_flat_map_seq.
Qed.

Lemma dedup_loop_length max cs result seen :
  length result <= max -> length (dedup_loop max cs result seen) <= max.
Proof.
  revert result seen. induction cs as [|c cs IH]; intros result seen Hlen; simpl; [done|].
  destruct (max <=? length result) eqn:E; bool_to_prop; [done|].
  case_bool_decide; [by apply IH|]. apply IH. rewrite length_app. simpl. lia.
Qed.

Lemma dedup_loop_sublist max cs result seen :
  exists l, dedup_loop max cs result seen = result ++ l /\ sublist l cs.
Proof.
  revert result seen. induction cs as [|c cs IH]; intros result seen; simpl.
  - exists []. by rewrite app_nil_r.
  - destruct (max <=? length result).
    { exists []. rewrite app_nil_r. split; [done|]. apply sublist_nil_l. }
    case_bool_decide.
    + destruct (IH result seen) as (l & -> & Hl). exists l. split; [done|].
      by apply sublist_cons.
    + destruct (IH (result ++ [c]) ({[pathKey (Path c)]} ∪ seen)) as (l & -> & Hl).
      exists (c :: l). rewrite <- app_assoc. split; [done|]. by apply sublist_skip.
Qed.

(** The second loop never keeps two entries with the same path. *)
Lemma dedup_loop_NoDup max cs result seen :
  NoDup (map Path result) ->
  (forall c, c ∈ result -> pathKey (Path c) ∈ seen) ->
  NoDup (map Path (dedup_loop max cs result seen)).
Proof.
  revert result seen. induction cs as [|c cs IH]; intros result seen Hnd Hseen; simpl;
    [done|].
  destruct (max <=? length result); [done|].
  case_bool_decide as Hkey; [by apply IH|]. apply IH.
  - rewrite map_app. apply NoDup_app. split_and!; [done| |apply NoDup_singleton].
    intros p Hp Hp'. apply list_elem_of_singleton in Hp'. subst.
    apply list_elem_of_In, in_map_iff in Hp as (c' & Heq & Hc').
    apply Hkey. rewrite <- Heq. by apply Hseen, list_elem_of_In.
  - intros c' Hc'. apply elem_of_app in Hc' as [Hc'|Hc'].
    + apply elem_of_union. right. by apply Hseen.
    + apply list_elem_of_singleton in Hc'. subst. apply elem_of_union. left.
      by apply elem_of_singleton.
Qed.

Lemma StronglySorted_sublist {A} (R : A -> A -> Prop) l1 l2 :
  sublist l1 l2 -> StronglySorted R l2 -> StronglySorted R l1.
Proof.
  intros Hsub. induction Hsub as [|x l1 l2 Hsub IH|x l1 l2 Hsub IH]; intros Hs.
  - constructor.
  - apply StronglySorted_inv in Hs as [Hs Hall]. constructor; [by apply IH|].
    rewrite List.Forall_forall in Hall |- *. intros y Hy. apply Hall.
    apply list_elem_of_In. apply list_elem_of_In in Hy.
    by eapply sublist_subseteq.
  - apply StronglySorted_inv in Hs as [Hs _]. by apply IH.
Qed.

Lemma dedupPathsByKey_spec cands max :
  dedupPathsByKey cands max = dedup_loop max (sort_by_distance cands) [] ∅.
Proof.
  unfold dedupPathsByKey. destruct cands as [|c cands]; [|done].
  simpl. done.
Qed.

Lemma dedupPathsByKey_props cands max :
  sublist (dedupPathsByKey cands max) (sort_by_distance cands) /\
  StronglySorted by_distance (dedupPathsByKey cands max) /\
  NoDup (map Path (dedupPathsByKey cands max)) /\
  length (dedupPathsByKey cands max) <= max /\
  (forall c, c ∈ dedupPathsByKey cands max -> c ∈ cands).
Proof.
  rewrite dedupPathsByKey_spec.
  destruct (sort_by_distance_sorted cands) as [Hperm Hsorted].
  destruct (dedup_loop_sublist max (sort_by_distance cands) [] ∅) as (l & Hl & Hsub).
  simpl in Hl. rewrite Hl. split_and!.
  - done.
  - by eapply StronglySorted_sublist.
  - rewrite <- Hl. apply dedup_loop_NoDup; [constructor|].
    intros c Hc. by apply elem_of_nil in Hc.
  - rewrite <- Hl. apply dedup_loop_length. simpl. lia.
  - intros c Hc. rewrite <- Hperm. by eapply sublist_subseteq.
Qed.

(** C4 (amended). The pooled candidates of a pair are put in ascending order
    of total distance by a sort that only rearranges them; the final list is
    what the de-duplicating, capped second loop keeps of that sorted pool, so
    it is a subsequence of it and ascending as well.  No order is promised
    among candidates of equal distance. *)
Theorem via_neighbor_paths_sorted gj g i j :
  NewFromStruct gj = (Some g, None) -> i < NumNodes g -> j < NumNodes g ->
  let cands := pair_candidates g i j in
  let final := ViaNeighborPaths
                 (pair_at (Results (FillViaNeighborPaths (RunFloyd g))) (NumNodes g) i j) in
  sort_by_distance cands ≡ₚ cands /\
  StronglySorted by_distance (sort_by_distance cands) /\
  final = (if (j =? i) || (length (Neighbors g i) =? 0) then []
           else dedup_loop MaxViaNeighborPaths (sort_by_distance cands) [] ∅) /\
  sublist final (sort_by_distance cands) /\
  StronglySorted by_distance final.
Proof.
  intros Hnew Hi Hj cands final.
  destruct (NewFromStruct_wf gj g Hnew) as (Hwf & _ & _).
  destruct (sort_by_distance_sorted cands) as [Hperm Hsorted].
  assert (final = via_for g i j) as Hfinal.
  { subst final. by rewrite FillViaNeighborPaths_pair_at. }
  rewrite Hfinal. unfold via_for. fold cands.
  destruct (dedupPathsByKey_props cands MaxViaNeighborPaths) as (Hsub & Hss & _).
  rewrite <- dedupPathsByKey_spec.
  split_and!; try done.
  - destruct (_ || _); [apply sublist_nil_l|done].
  - destruct (_ || _); [constructor|done].
Qed.

(** C4 as stated fails: on [two_ties_input] the pair (S, D) gets its two
    candidates of distance 3 in the order opposite to their generation. *)
Lemma via_order_not_stable :
  exists g, NewFromStruct two_ties_input = (Some g, None) /\
    ~ keeps_generation_order (pair_candidates g 0 5)
        (ViaNeighborPaths
           (pair_at (Results (FillViaNeighborPaths (RunFloyd g))) (NumNodes g) 0 5)).
Proof.
  eexists. split; [vm_compute; reflexivity|].
  match goal with |- ~ keeps_generation_order ?c ?f =>
    set (cands := c); set (final := f) end.
  assert (cands = [mkPathDist ["S"; "N1"; "X"; "D"]%string 3;
                   mkPathDist ["S"; "N1"; "Y"; "D"]%string 3;
                   mkPathDist ["S"; "N2"; "D"]%string 2]) as Hc
    by (vm_compute; reflexivity).
  assert (final = [mkPathDist ["S"; "N2"; "D"]%string 2;
                   mkPathDist ["S"; "N1"; "Y"; "D"]%string 3;
                   mkPathDist ["S"; "N1"; "X"; "D"]%string 3]) as Hf
    by (vm_compute; reflexivity).
  rewrite Hc, Hf. clear. intros H.
  destruct (H 1 2 _ _ eq_refl eq_refl ltac:(lia) eq_refl) as (ja & jb & Ha & Hb & Hlt).
  destruct ja as [|[|[|ja]]]; destruct jb as [|[|[|jb]]];
    simpl in Ha, Hb; try discriminate; lia.
Qed.

(** ** Caps and the shape of via-neighbor paths *)

Lemma pget_build_pred_lt g N dist a b m :
  m ∈ pget (build_pred g N dist) a b -> m < N.
Proof.
  intros Hm. destruct (decide (a < N /\ b < N)) as [[Ha Hb]|Hn].
  - rewrite pget_build_pred in Hm by done.
    destruct (_ || _); [by apply elem_of_nil in Hm|].
    apply list_elem_of_In, filter_In in Hm as [Hm _]. apply in_seq in Hm. lia.
  - exfalso. unfold pget, build_pred in Hm.
    destruct (decide (a < N)) as [Ha|Ha].
    + rewrite nth_map_seq in Hm by done.
      match type of Hm with _ ∈ nth b ?l [] =>
        assert (nth b l [] = []) as E
          by (apply nth_overflow; rewrite length_map, length_seq; lia) end.
      rewrite E in Hm. by apply elem_of_nil in Hm.
    + match type of Hm with _ ∈ nth b (nth a ?l []) [] =>
        assert (nth a l [] = []) as E
          by (apply nth_overflow; rewrite length_map, length_seq; lia) end.
      rewrite E in Hm. destruct b; by apply elem_of_nil in Hm.
Qed.

Lemma Name_in_Nodes g v : v < NumNodes g -> Name g v ∈ Nodes g.
Proof. intros Hv. apply list_elem_of_In. unfold Name. by apply nth_In. Qed.

Lemma emit_names (P : string -> Prop) path st :
  Forall P path -> Forall (Forall P) st.1 -> Forall (Forall P) (emit path st).1.
Proof.
  intros Hp Hst. unfold emit. case_bool_decide; [done|]. cbn [fst].
  apply Forall_app. split; [done|]. by constructor.
Qed.

(** Every name [collectPaths] emits is a node of the graph it runs on. *)
Lemma collectPaths_names fuel g dist i j suffix st maxPaths :
  i < NumNodes g ->
  Forall (fun n => n ∈ Nodes g) suffix ->
  Forall (Forall (fun n => n ∈ Nodes g)) st.1 ->
  Forall (Forall (fun n => n ∈ Nodes g))
    (collectPaths fuel g dist (build_pred g (NumNodes g) dist) i j suffix st maxPaths).1.
Proof.
  intros Hi. revert j suffix st.
  induction fuel as [|fuel IH]; intros j suffix st Hsuf Hst; [done|].
  assert (Forall (fun n => n ∈ Nodes g) (Name g i :: suffix)) as Hpath.
  { constructor; [by apply Name_in_Nodes|done]. }
  simpl. destruct (maxPaths <=? length st.1); [done|].
  destruct (i =? j); [by apply emit_names|].
  apply (fold_left_invariant (fun st => Forall (Forall (fun n => n ∈ Nodes g)) st.1)).
  - intros st' m Hm Hst'. apply IH; [|done].
    constructor; [|done]. apply Name_in_Nodes. by eapply pget_build_pred_lt.
  - destruct (_ && _); [by apply emit_names|done].
Qed.

Lemma enumeratePathsOnSub_names g dist i j maxPaths :
  i < NumNodes g -> j < NumNodes g ->
  Forall (Forall (fun n => n ∈ Nodes g))
    (enumeratePathsOnSub g dist (build_pred g (NumNodes g) dist) i j maxPaths).
Proof.
  intros Hi Hj. unfold enumeratePathsOnSub.
  destruct (i =? j).
  { repeat constructor. by apply Name_in_Nodes. }
  destruct (_ =? Inf)%Z; [constructor|].
  apply collectPaths_names; [done| |constructor].
  repeat constructor. by apply Name_in_Nodes.
Qed.

(** Where a pooled candidate comes from. *)
Lemma via_candidates_elem g sub oldToNew subDist subPred nbs i newTo pd :
  pd ∈ via_candidates g sub oldToNew subDist subPred nbs i newTo ->
  exists nb p,
    nb ∈ nbs /\ (0 <= nth nb oldToNew 0)%Z /\
    mget subDist (Z.to_nat (nth nb oldToNew 0%Z)) (Z.to_nat newTo) <> Inf /\
    p ∈ enumeratePathsOnSub sub subDist subPred (Z.to_nat (nth nb oldToNew 0%Z))
          (Z.to_nat newTo) MaxViaNeighborPaths /\
    pd = mkPathDist (Name g i :: p)
           (wadd (Weight g i nb)
              (mget subDist (Z.to_nat (nth nb oldToNew 0%Z)) (Z.to_nat newTo))).
Proof.
  unfold via_candidates.
  assert (forall acc,
    pd ∈ fold_left (via_step g sub oldToNew subDist subPred i newTo) nbs acc ->
    pd ∈ acc \/
    exists nb p,
      nb ∈ nbs /\ (0 <= nth nb oldToNew 0)%Z /\
      mget subDist (Z.to_nat (nth nb oldToNew 0%Z)) (Z.to_nat newTo) <> Inf /\
      p ∈ enumeratePathsOnSub sub subDist subPred (Z.to_nat (nth nb oldToNew 0%Z))
            (Z.to_nat newTo) MaxViaNeighborPaths /\
      pd = mkPathDist (Name g i :: p)
             (wadd (Weight g i nb)
                (mget subDist (Z.to_nat (nth nb oldToNew 0%Z)) (Z.to_nat newTo)))) as H.
  { induction nbs as [|nb nbs IH]; intros acc Hin; simpl in Hin; [by left|].
    apply IH in Hin as [Hin|(nb' & p & Hnb' & ?)].
    - unfold via_step in Hin.
      destruct (_ <? 0)%Z eqn:E1; bool_to_prop; [by left|].
      destruct (_ =? Inf)%Z eqn:E2; bool_to_prop; [by left|].
      apply elem_of_app in Hin as [Hin|Hin]; [by left|]. right.
      apply list_elem_of_In, in_map_iff in Hin as (p & <- & Hp).
      exists nb, p. split_and!; try done; [left|by apply list_elem_of_In].
    - right. exists nb', p. split; [by right|done]. }
  intros Hin. apply H in Hin as [Hin|Hin]; [by apply elem_of_nil in Hin|done].
Qed.

Lemma Neighbors_spec g i nb :
  wf_graph g -> i < NumNodes g ->
  nb ∈ Neighbors g i -> nb < NumNodes g /\ (0 < Weight g i nb)%Z.
Proof.
  intros (_ & [Hl Hr] & _) Hi Hnb. unfold Neighbors in Hnb.
  apply list_elem_of_In, filter_In in Hnb as [Hnb Hw]. apply in_seq in Hnb.
  rewrite Hr in Hnb by done. bool_to_prop. split; [lia|done].
Qed.

Lemma pair_in_Results rs N pr :
  length rs = N * N -> pr ∈ rs -> exists a b, a < N /\ b < N /\ pr = pair_at rs N a b.
Proof.
  intros Hlen Hin. apply list_elem_of_In, (In_nth _ _ dflt_pr) in Hin as (k & Hk & <-).
  rewrite Hlen in Hk.
  assert (0 < N) as HN by (destruct N; lia).
  exists (k / N), (k mod N). split_and!.
  - by apply Nat.Div0.div_lt_upper_bound.
  - apply Nat.mod_upper_bound. lia.
  - unfold pair_at. f_equal. pose proof (Nat.div_mod_eq k N). lia.
Qed.

(** The via-neighbor list of a pair: capped, and each path leaves the source
    once and for all. *)
Lemma via_for_shape g i j :
  wf_graph g -> i < NumNodes g -> j < NumNodes g ->
  length (via_for g i j) <= MaxViaNeighborPaths /\
  forall pd, pd ∈ via_for g i j ->
    exists tl, Path pd = Name g i :: tl /\ Name g i ∉ tl.
Proof.
  intros Hwf Hi Hj. unfold via_for.
  destruct (j =? i) eqn:Eji; simpl.
  { split; [lia|]. intros pd Hpd. by apply elem_of_nil in Hpd. }
  destruct (_ =? 0).
  { split; [simpl; lia|]. intros pd Hpd. by apply elem_of_nil in Hpd. }
  bool_to_prop.
  destruct (dedupPathsByKey_props (pair_candidates g i j) MaxViaNeighborPaths)
    as (_ & _ & _ & Hlen & Hsub).
  split; [done|]. intros pd Hpd. apply Hsub in Hpd.
  apply via_candidates_elem in Hpd as (nb & p & Hnb & Hge & _ & Hp & ->).
  exists p. split; [done|].
  destruct (CopyWithoutNode_facts g i Hi)
    as (Hnodes & HN & Hname & _ & _ & _ & Hx & Hmap).
  cbn [fst snd] in *.
  destruct (Neighbors_spec g i nb Hwf Hi Hnb) as [HnbN _].
  assert (nb <> i) as Hnbi by (intros ->; lia).
  destruct (Hmap nb HnbN Hnbi) as (Hnew & Hlt & _).
  destruct (Hmap j Hj Eji) as (Hnew' & Hlt' & _).
  rewrite Hnew, Hnew', !Nat2Z.id in Hp. unfold runFloydOnSubgraph in Hp. cbn [fst snd] in Hp.
  pose proof (enumeratePathsOnSub_names (CopyWithoutNode g i).1
                (floyd_dist (CopyWithoutNode g i).1 (NumNodes (CopyWithoutNode g i).1))
                (new_index i nb) (new_index i j) MaxViaNeighborPaths) as Hall.
  specialize (Hall ltac:(by rewrite HN) ltac:(by rewrite HN)).
  rewrite Forall_forall in Hall. specialize (Hall p Hp).
  rewrite Forall_forall in Hall. intros Hin. apply Hall in Hin.
  rewrite Hnodes in Hin. apply list_elem_of_In, in_map_iff in Hin as (v & Heq & Hv).
  unfold retained in Hv. apply filter_In in Hv as [Hv Hne]. apply in_seq in Hv.
  bool_to_prop. apply Name_inj in Heq; [done|by destruct Hwf|lia|done].
Qed.

(** C5. After [RunFloyd] and [FillViaNeighborPaths] every entry has at most
    4 paths and at most 3 via-neighbor paths, and each via-neighbor path
    starts with the source's name, which none of its later elements repeats. *)
Theorem result_caps gj g pr :
  NewFromStruct gj = (Some g, None) ->
  pr ∈ Results (FillViaNeighborPaths (RunFloyd g)) ->
  length (Paths pr) <= 4 /\
  length (ViaNeighborPaths pr) <= 3 /\
  forall pd, pd ∈ ViaNeighborPaths pr ->
    exists tl, Path pd = From pr :: tl /\ From pr ∉ tl.
Proof.
  intros Hnew Hin.
  destruct (NewFromStruct_wf gj g Hnew) as (Hwf & _ & _).
  apply (pair_in_Results _ (NumNodes g)) in Hin as (a & b & Ha & Hb & ->);
    [|apply length_Results_Fill].
  rewrite FillViaNeighborPaths_pair_at, pair_at_RunFloyd by done.
  destruct (via_for_shape g a b Hwf Ha Hb) as [Hlen Hshape].
  destruct (pair_result_names g (floyd_dist g (NumNodes g))
              (build_pred g (NumNodes g) (floyd_dist g (NumNodes g))) a b
              (via_for g a b)) as [-> _].
  cbn [with_via Paths ViaNeighborPaths]. split_and!; [|done|done].
  unfold pair_result. destruct (_ =? Inf)%Z; cbn [Paths]; [simpl; lia|].
  apply (enumeratePaths_length g _ _ a b MaxShortestPaths). unfold MaxShortestPaths. lia.
Qed.

(** ** Unreachable pairs *)

Lemma fits_pred N : fits N -> fits (N - 1).
Proof. unfold fits. lia. Qed.

(** A walk of the subgraph is a walk of the graph it was cut from. *)
Lemma walk_old_index g sub x M a p b :
  (forall a b, a < M -> b < M -> Weight sub a b = Weight g (old_index x a) (old_index x b)) ->
  (forall a b, (0 < Weight sub a b)%Z -> a < M /\ b < M) ->
  walk (Weight sub) a p b ->
  walk (Weight g) (old_index x a) (map (old_index x) p) (old_index x b).
Proof.
  intros Hw HM. revert a. induction p as [|m p IH]; intros a; simpl.
  - by intros ->.
  - intros [He Hp]. destruct (HM a m He) as [Ha Hm].
    split; [by rewrite <- Hw|by apply IH].
Qed.

Lemma pair_candidates_unreachable g i j :
  wf_graph g -> fits (NumNodes g) -> i < NumNodes g -> j < NumNodes g -> j <> i ->
  ~ reachable g i j -> pair_candidates g i j = [].
Proof.
  intros Hwf Hfits Hi Hj Hji Hun.
  destruct (pair_candidates g i j) as [|pd l] eqn:E; [done|]. exfalso.
  assert (pd ∈ pair_candidates g i j) as Hpd by (rewrite E; left).
  apply via_candidates_elem in Hpd as (nb & p & Hnb & Hge & Hfin & _).
  destruct (CopyWithoutNode_facts g i Hi)
    as (_ & HN & _ & Hsq & Hw & _ & _ & Hmap).
  pose proof (CopyWithoutNode_wf g i Hwf Hi) as Hwfs.
  cbn [fst snd] in *.
  destruct (Neighbors_spec g i nb Hwf Hi Hnb) as [HnbN Hedge].
  assert (nb <> i) as Hnbi.
  { intros ->. destruct (CopyWithoutNode_facts g i Hi) as (_ & _ & _ & _ & _ & _ & Hx & _).
    lia. }
  destruct (Hmap nb HnbN Hnbi) as (Hnew & Hlt & Hold).
  destruct (Hmap j Hj Hji) as (Hnew' & Hlt' & Hold').
  rewrite Hnew, Hnew', !Nat2Z.id in Hfin.
  unfold runFloydOnSubgraph in Hfin. cbn [fst] in Hfin.
  set (sub := (CopyWithoutNode g i).1) in *.
  assert (fits (NumNodes sub)) as Hfits' by (rewrite HN; by apply fits_pred).
  destruct (floyd_dist_fw sub Hwfs Hfits') as [_ Hd].
  rewrite Hd in Hfin by (by rewrite HN).
  pose proof Hwfs as (_ & Hsqs & Hbnds & _).
  destruct (fw_shortest (Weight sub) (NumNodes sub) Hbnds
              (fun a b => Weight_lt sub a b Hsqs) Hfits'
              (new_index i nb) (new_index i j)) as [_ Hex].
  destruct (Hex Hfin) as (q & Hq & _).
  apply (walk_old_index g sub i (NumNodes g - 1)) in Hq.
  - rewrite Hold, Hold' in Hq. apply Hun.
    exists (nb :: map (old_index i) q). by split.
  - done.
  - intros a b Hab. rewrite <- HN. by apply Weight_lt.
Qed.

(** C6. A pair of distinct nodes with no directed walk between them gets
    distance [-1], no path, and no via-neighbor path either, also after
    [FillViaNeighborPaths]. *)
Theorem unreachable_pair gj g i j :
  NewFromStruct gj = (Some g, None) -> fits (NumNodes g) ->
  i < NumNodes g -> j < NumNodes g -> i <> j ->
  ~ reachable g i j ->
  let before := pair_at (Results (RunFloyd g)) (NumNodes g) i j in
  let after := pair_at (Results (FillViaNeighborPaths (RunFloyd g))) (NumNodes g) i j in
  Distance before = (-1)%Z /\ Paths before = [] /\ ViaNeighborPaths before = [] /\
  Distance after = (-1)%Z /\ Paths after = [] /\ ViaNeighborPaths after = [].
Proof.
  intros Hnew Hfits Hi Hj Hij Hun before after.
  destruct (NewFromStruct_wf gj g Hnew) as (Hwf & _ & _).
  destruct (RunFloyd_pair g i j Hwf Hfits Hi Hj) as (_ & _ & _ & _ & H5 & _).
  destruct (H5 Hun) as [Hd Hp]. fold before in Hd, Hp.
  assert (ViaNeighborPaths before = []) as Hv.
  { subst before. rewrite pair_at_RunFloyd by done. unfold pair_result.
    by destruct (_ =? Inf)%Z. }
  subst after. rewrite FillViaNeighborPaths_pair_at by done. fold before.
  cbn [with_via Distance Paths ViaNeighborPaths].
  split_and!; try done.
  unfold via_for. destruct (_ || _); [done|].
  by rewrite pair_candidates_unreachable.
Qed.

(** ** Self-loops are invisible *)

Lemma init_dist_in_int g N a b :
  (forall i j, (0 <= Weight g i j <= 1000)%Z) -> in_int (mget (init_dist g N) a b).
Proof.
  intros Hb. destruct (decide (a < N /\ b < N)) as [[Ha Hb']|Hn].
  - unfold init_dist. rewrite mget_tabulate by done. unfold init_cell.
    destruct (a =? b); [unfold in_int; lia|].
    destruct (_ <? _)%Z; [|apply Inf_in_int].
    specialize (Hb a b). unfold in_int. lia.
  - rewrite (mget_square_oob N) by (apply square_tabulate || lia).
    unfold in_int. lia.
Qed.

Lemma floyd_dist_in_int g N a b :
  (forall i j, (0 <= Weight g i j <= 1000)%Z) -> in_int (mget (floyd_dist g N) a b).
Proof.
  intros Hb. revert a b. unfold floyd_dist.
  apply (fold_left_invariant (fun d => forall a b, in_int (mget d a b))).
  - intros d k _ Hd. unfold relax_k.
    apply (fold_left_invariant (fun d => forall a b, in_int (mget d a b))); [|done].
    intros d' i _ Hd'. unfold relax_row. destruct (_ =? Inf)%Z; [done|].
    apply (fold_left_invariant (fun d => forall a b, in_int (mget d a b))); [|done].
    intros d'' j _ Hd''. unfold relax_cell. destruct (_ =? Inf)%Z; [done|].
    destruct (_ <? _)%Z; [|done]. intros a b.
    destruct (mget_mset_cases d'' i j (wadd (mget d'' i k) (mget d'' k j)) a b)
      as [-> | ->]; [apply wrap_in_int|done].
  - intros a b. by apply init_dist_in_int.
Qed.

Section OffDiagonal.
Variables g g' : Graph.
Hypothesis Hwf : wf_graph g.
Hypothesis Hwf' : wf_graph g'.
Hypothesis Hoff : off_diagonal_eq g g'.

Lemma off_NumNodes : NumNodes g' = NumNodes g.
Proof. destruct Hoff as [HN _]. unfold NumNodes. by rewrite HN. Qed.

Lemma off_Name v : Name g' v = Name g v.
Proof. destruct Hoff as [HN _]. unfold Name. by rewrite HN. Qed.

Lemma off_init_dist N : init_dist g' N = init_dist g N.
Proof.
  unfold init_dist. apply map_ext. intros i. apply map_ext. intros j.
  unfold init_cell. destruct (i =? j) eqn:E; bool_to_prop; [done|].
  destruct Hoff as [_ Hw]. by rewrite Hw.
Qed.

Lemma off_floyd_dist N : floyd_dist g' N = floyd_dist g N.
Proof. unfold floyd_dist. by rewrite off_init_dist. Qed.

Lemma is_pred_diag h dist i j :
  (forall a b, (0 <= Weight h a b <= 1000)%Z) ->
  (forall a b, in_int (mget dist a b)) -> is_pred h dist i j j = false.
Proof.
  intros Hb Hint. unfold is_pred.
  destruct (j =? i); [done|]. simpl.
  destruct (0 <? Weight h j j)%Z eqn:E; bool_to_prop; [|done]. simpl.
  destruct (negb _); [|done]. simpl. apply Z.eqb_neq.
  apply wadd_weight_ne; [done|]. specialize (Hb j j). lia.
Qed.

Lemma off_is_pred dist i j m :
  (forall a b, in_int (mget dist a b)) ->
  is_pred g' dist i j m = is_pred g dist i j m.
Proof.
  intros Hint. destruct (decide (m = j)) as [->|Hne].
  - destruct Hwf as (_ & _ & Hb & _). destruct Hwf' as (_ & _ & Hb' & _).
    by rewrite !is_pred_diag.
  - unfold is_pred. destruct Hoff as [_ Hw]. by rewrite Hw.
Qed.

Lemma off_build_pred N dist :
  (forall a b, in_int (mget dist a b)) ->
  build_pred g' N dist = build_pred g N dist.
Proof.
  intros Hint. unfold build_pred. apply map_ext. intros i. apply map_ext. intros j.
  destruct (_ || _); [done|]. apply filter_ext. intros m. by apply off_is_pred.
Qed.

Lemma off_collectPaths fuel dist pred i j suffix st maxPaths :
  collectPaths fuel g' dist pred i j suffix st maxPaths =
  collectPaths fuel g dist pred i j suffix st maxPaths.
Proof.
  revert j suffix st. induction fuel as [|fuel IH]; intros j suffix st; [done|].
  simpl. destruct (maxPaths <=? length st.1); [done|].
  rewrite off_Name. destruct (i =? j) eqn:E; bool_to_prop; [done|].
  destruct Hoff as [_ Hw]. rewrite Hw by done.
  apply fold_left_ext_in. intros st' m _. by rewrite IH, off_Name.
Qed.

Lemma off_enumeratePaths dist pred i j maxPaths :
  enumeratePaths g' dist pred i j maxPaths = enumeratePaths g dist pred i j maxPaths.
Proof.
  unfold enumeratePaths. rewrite !off_Name. destruct (i =? j); [done|].
  destruct (_ =? Inf)%Z; [done|]. by rewrite off_collectPaths.
Qed.

Lemma off_enumeratePathsOnSub dist pred i j maxPaths :
  enumeratePathsOnSub g' dist pred i j maxPaths =
  enumeratePathsOnSub g dist pred i j maxPaths.
Proof. apply off_enumeratePaths. Qed.

Lemma off_runFloydOnSubgraph : runFloydOnSubgraph g' = runFloydOnSubgraph g.
Proof.
  unfold runFloydOnSubgraph. rewrite off_NumNodes, off_floyd_dist.
  rewrite off_build_pred; [done|].
  intros a b. apply floyd_dist_in_int. by destruct Hwf as (_ & _ & Hb & _).
Qed.

Lemma off_pair_result i j :
  pair_result g' (floyd_dist g' (NumNodes g'))
    (build_pred g' (NumNodes g') (floyd_dist g' (NumNodes g'))) i j =
  pair_result g (floyd_dist g (NumNodes g))
    (build_pred g (NumNodes g) (floyd_dist g (NumNodes g))) i j.
Proof.
  pose proof off_runFloydOnSubgraph as H. unfold runFloydOnSubgraph in H.
  injection H as Hd Hp. rewrite off_NumNodes in *. rewrite Hp, Hd.
  unfold pair_result. rewrite !off_Name. destruct (_ =? Inf)%Z; [done|].
  by rewrite off_enumeratePaths.
Qed.
End OffDiagonal.

Lemma via_for_alt g i j :
  via_for g i j =
  if j =? i then [] else dedupPathsByKey (pair_candidates g i j) MaxViaNeighborPaths.
Proof.
  unfold via_for. destruct (j =? i); [done|]. simpl.
  destruct (length (Neighbors g i) =? 0) eqn:E; [|done]. bool_to_prop.
  unfold pair_candidates. destruct (Neighbors g i); [done|]. simpl in E. lia.
Qed.

(** The source itself, when it is its own out-neighbor, contributes nothing. *)
Lemma via_candidates_retained g sub oldToNew subDist subPred nbs i newTo :
  nth i oldToNew 0%Z = (-1)%Z ->
  via_candidates g sub oldToNew subDist subPred nbs i newTo =
  via_candidates g sub oldToNew subDist subPred (retained i nbs) i newTo.
Proof.
  intros Hx. unfold via_candidates. generalize (@nil PathDist) as acc.
  induction nbs as [|nb nbs IH]; intros acc; [done|].
  simpl. destruct (nb =? i) eqn:E; bool_to_prop; simpl.
  - subst nb. rewrite <- IH. f_equal. unfold via_step. by rewrite Hx.
  - apply IH.
Qed.

Lemma filter_filter_ext {A} (p p' q : A -> bool) l :
  (forall x, q x = true -> p' x = p x) ->
  List.filter q (List.filter p' l) = List.filter q (List.filter p l).
Proof.
  intros H. induction l as [|x l IH]; simpl; [done|].
  destruct (q x) eqn:Eq.
  - rewrite H by done. destruct (p x); simpl; rewrite ?Eq; by rewrite IH.
  - destruct (p' x), (p x); simpl; rewrite ?Eq; done.
Qed.

Section OffDiagonalVia.
Variables g g' : Graph.
Hypothesis Hwf : wf_graph g.
Hypothesis Hwf' : wf_graph g'.
Hypothesis Hoff : off_diagonal_eq g g'.

Lemma off_copy_map i :
  fold_left (copy_step g' i) (seq 0 (NumNodes g')) ([], repeat 0%Z (NumNodes g')) =
  fold_left (copy_step g i) (seq 0 (NumNodes g)) ([], repeat 0%Z (NumNodes g)).
Proof.
  rewrite (off_NumNodes g g' Hoff). apply fold_left_ext_in. intros st k _.
  unfold copy_step. destruct Hoff as [-> _]. done.
Qed.

Lemma off_oldToNew i : (CopyWithoutNode g' i).2 = (CopyWithoutNode g i).2.
Proof. unfold CopyWithoutNode. cbn [snd]. by rewrite off_copy_map. Qed.

Lemma off_sub i :
  i < NumNodes g ->
  off_diagonal_eq (CopyWithoutNode g i).1 (CopyWithoutNode g' i).1.
Proof.
  intros Hi. pose proof (off_NumNodes g g' Hoff) as HNN.
  destruct (CopyWithoutNode_facts g i Hi) as (_ & _ & _ & Hsq & Hw & _).
  destruct (CopyWithoutNode_facts g' i ltac:(lia)) as (_ & _ & _ & Hsq' & Hw' & _).
  cbn [fst snd] in *. rewrite HNN in *.
  split.
  - unfold CopyWithoutNode. cbn [fst Nodes]. by rewrite off_copy_map.
  - intros a b Hab.
    destruct (decide (a < NumNodes g - 1 /\ b < NumNodes g - 1)) as [[Ha Hb]|Hn].
    + rewrite Hw, Hw' by done. destruct Hoff as [_ Ho]. apply Ho.
      intros Heq. apply Hab.
      by rewrite <- (new_old_index i a), <- (new_old_index i b), Heq.
    + unfold Weight. rewrite (mget_square_oob _ _ _ _ Hsq) by lia.
      by rewrite (mget_square_oob _ _ _ _ Hsq') by lia.
Qed.

Lemma off_retained_Neighbors i :
  i < NumNodes g -> retained i (Neighbors g' i) = retained i (Neighbors g i).
Proof.
  intros Hi. unfold Neighbors, retained.
  destruct Hwf as (_ & [_ Hr] & _). destruct Hwf' as (_ & [_ Hr'] & _).
  rewrite Hr' by (rewrite (off_NumNodes g g' Hoff); lia). rewrite Hr by done.
  rewrite (off_NumNodes g g' Hoff).
  apply filter_filter_ext. intros nb Hnb. bool_to_prop.
  destruct Hoff as [_ Ho]. fold (Weight g' i nb). fold (Weight g i nb).
  by rewrite Ho.
Qed.

Lemma off_via_step sub sub' oldToNew sd sp i newTo acc nb :
  nb <> i ->
  (forall a b m, enumeratePathsOnSub sub' sd sp a b m = enumeratePathsOnSub sub sd sp a b m) ->
  via_step g' sub' oldToNew sd sp i newTo acc nb =
  via_step g sub oldToNew sd sp i newTo acc nb.
Proof.
  intros Hne He. unfold via_step. destruct Hoff as [_ Ho].
  rewrite Ho by done. rewrite He. by rewrite (off_Name g g' Hoff).
Qed.

Lemma off_pair_candidates i j :
  i < NumNodes g -> pair_candidates g' i j = pair_candidates g i j.
Proof.
  intros Hi. unfold pair_candidates.
  pose proof (off_sub i Hi) as Hsub.
  pose proof (CopyWithoutNode_wf g i Hwf Hi) as Hwfs.
  pose proof (CopyWithoutNode_wf g' i Hwf' ltac:(rewrite (off_NumNodes g g' Hoff); lia))
    as Hwfs'.
  rewrite (off_runFloydOnSubgraph _ _ Hwfs Hwfs' Hsub).
  rewrite off_oldToNew.
  destruct (CopyWithoutNode_facts g i Hi) as (_ & _ & _ & _ & _ & _ & Hx & _).
  rewrite (via_candidates_retained g') by done.
  rewrite (via_candidates_retained g) by done.
  rewrite off_retained_Neighbors by done.
  unfold via_candidates. apply fold_left_ext_in. intros acc nb Hnb.
  apply off_via_step.
  - unfold retained in Hnb. apply list_elem_of_In, filter_In in Hnb as [_ Hnb].
    by bool_to_prop.
  - intros a b m. by apply off_enumeratePathsOnSub.
Qed.

Lemma off_via_for i j : i < NumNodes g -> via_for g' i j = via_for g i j.
Proof.
  intros Hi. rewrite !via_for_alt. destruct (j =? i); [done|].
  by rewrite off_pair_candidates.
Qed.

(** Two stores that differ only in their self-loops give the same output. *)
Lemma off_Results :
  Results (FillViaNeighborPaths (RunFloyd g')) =
  Results (FillViaNeighborPaths (RunFloyd g)).
Proof.
  pose proof (off_NumNodes g g' Hoff) as HNN.
  apply (nth_ext _ _ dflt_pr dflt_pr).
  - rewrite !length_Results_Fill. by rewrite HNN.
  - intros k Hk. rewrite length_Results_Fill, HNN in Hk.
    assert (0 < NumNodes g) as HN by (destruct (NumNodes g); lia).
    assert (k = (k / NumNodes g) * NumNodes g + k mod NumNodes g) as Hdm.
    { pose proof (Nat.div_mod_eq k (NumNodes g)). lia. }
    assert (k mod NumNodes g < NumNodes g) as Hmod by (apply Nat.mod_upper_bound; lia).
    assert (k / NumNodes g < NumNodes g) as Hdiv
      by (by apply Nat.Div0.div_lt_upper_bound).
    rewrite Hdm.
    change (pair_at (Results (FillViaNeighborPaths (RunFloyd g'))) (NumNodes g)
              (k / NumNodes g) (k mod NumNodes g) =
            pair_at (Results (FillViaNeighborPaths (RunFloyd g))) (NumNodes g)
              (k / NumNodes g) (k mod NumNodes g)).
    rewrite <- HNN at 1.
    rewrite !FillViaNeighborPaths_pair_at, !pair_at_RunFloyd by (done || lia).
    rewrite (off_pair_result g g' Hwf Hwf' Hoff). rewrite ?HNN.
    by rewrite off_via_for.
Qed.
End OffDiagonalVia.

Lemma mget_mset_square N A i j v a b :
  square N A ->
  mget (mset A i j v) a b =
  if decide ((a, b) = (i, j) /\ i < N /\ j < N) then v else mget A a b.
Proof.
  intros [Hl Hr]. case_decide as E.
  - destruct E as ([= -> ->] & Hi & Hj). apply mget_mset_eq; [lia|]. rewrite Hr; lia.
  - destruct (decide ((a, b) = (i, j))) as [[= -> ->]|Hne]; [|by apply mget_mset_ne].
    unfold mget, mset. destruct (decide (i < N)) as [Hi|Hi].
    + rewrite nth_insert_eq by lia. rewrite list_insert_ge; [done|].
      rewrite Hr by done. destruct (decide (j < N)); [|lia]. exfalso. by apply E.
    + by rewrite list_insert_ge by lia.
Qed.

Lemma fold_set_edge_off_diag m es N A A' :
  square N A -> square N A' ->
  (forall a b, a <> b -> mget A' a b = mget A a b) ->
  forall a b, a <> b ->
    mget (fold_left (set_edge m) es A') a b = mget (fold_left (set_edge m) es A) a b.
Proof.
  revert A A'. induction es as [|e es IH]; intros A A' Hsq Hsq' Hagree; [done|].
  simpl. apply IH; [by apply square_mset..|].
  intros a b Hab. unfold set_edge.
  rewrite (mget_mset_square N A'), (mget_mset_square N A) by done.
  case_decide; [done|by apply Hagree].
Qed.

Lemma add_edge_nodes_seen st n w : n ∈ st.2 -> add_edge_nodes st (mkEdge n n w) = st.
Proof.
  intros H. unfold add_edge_nodes. simpl.
  rewrite (add_node_seen st n H). exact (add_node_seen st n H).
Qed.

Lemma with_self_loop_wf g x w :
  wf_graph g -> (1 <= w <= 1000)%Z -> wf_graph (with_self_loop g x w).
Proof.
  intros (Hnd & Hsq & Hb & Hidx) Hw. unfold wf_graph, with_self_loop, NumNodes, Weight.
  cbn [Nodes AdjMatrix NameToIndex]. split_and!; [done|by apply square_mset| |done].
  intros i j. destruct (mget_mset_cases (AdjMatrix g) x x w i j) as [-> | ->]; [lia|].
  apply Hb.
Qed.

Lemma with_self_loop_off g x w : off_diagonal_eq g (with_self_loop g x w).
Proof.
  split; [done|]. intros a b Hab. unfold Weight, with_self_loop. cbn [AdjMatrix].
  apply mget_mset_ne. congruence.
Qed.


(** ** Scenario A *)

Lemma scenario_A_loaded : NewFromStruct scenario_A = (Some graph_A, None).
Proof. vm_compute. reflexivity. Qed.

(** Scenario A and [TestFloyd_ThreeNodes] expect A,C, of weight 100, as the
    second path of (A, C): the list that [RunFloyd] returns has no second
    entry. *)
Lemma scenario_A_no_second_path :
  NewFromStruct scenario_A = (Some graph_A, None) /\
  Distance pair_AC = 70%Z /\
  Paths pair_AC !! 1 <> Some ["A"; "C"]%string.
Proof.
  split; [vm_compute; reflexivity|]. split; [vm_compute; reflexivity|].
  vm_compute. discriminate.
Qed.

(** C3. What [RunFloyd] computes on Scenario A: the distances are 50 for
    (A,B), 80 for (B,A) and 70 for (A,C), and the paths of (A,C) are the
    single path A,B,C, of weight 50 + 20 = 70.  The direct edge A->C weighs
    100, which is not the distance: [collectPaths] skips it, so the second
    path A,C that Scenario A and [TestFloyd_ThreeNodes] expect is missing
    from the list. *)
Theorem scenario_A_results :
  NewFromStruct scenario_A = (Some graph_A, None) /\
  Nodes graph_A = ["A"; "B"; "C"]%string /\
  Distance (pair_at (Results (RunFloyd graph_A)) 3 0 1) = 50%Z /\
  Distance (pair_at (Results (RunFloyd graph_A)) 3 1 0) = 80%Z /\
  Distance pair_AC = 70%Z /\
  Paths pair_AC = [["A"; "B"; "C"]%string] /\
  walk_weight (Weight graph_A) 0 [1; 2] = 70%Z /\
  Weight graph_A 0 2 = 100%Z.
Proof. repeat split; vm_compute; reflexivity. Qed.

(** ** The theorems at work on Scenario A *)

Lemma graph_A_wf : wf_graph graph_A.
Proof. exact (proj1 (NewFromStruct_wf scenario_A graph_A scenario_A_loaded)). Qed.

Lemma graph_A_fits : fits (NumNodes graph_A).
Proof. vm_compute. reflexivity. Qed.

Lemma graph_A_C_is_a_sink : ~ reachable graph_A 2 0.
Proof.
  intros [p Hp]. destruct p as [|m p]; [discriminate Hp|].
  destruct Hp as [He _].
  destruct m as [|[|[|m]]]; vm_compute in He; try discriminate He.
  destruct m; discriminate He.
Qed.

Lemma RunFloyd_shortest_distance_witness :
  let pr := pair_at (Results (RunFloyd graph_A)) (NumNodes graph_A) 0 2 in
  From pr = Name graph_A 0 /\ To pr = Name graph_A 2 /\
  (forall p, walk (Weight graph_A) 0 p 2 ->
     Distance pr <> (-1)%Z /\ (Distance pr <= walk_weight (Weight graph_A) 0 p)%Z) /\
  (Distance pr <> (-1)%Z ->
     exists p, walk (Weight graph_A) 0 p 2 /\
               walk_weight (Weight graph_A) 0 p = Distance pr) /\
  (~ reachable graph_A 0 2 -> Distance pr = (-1)%Z) /\
  (0 = 2 -> Distance pr = 0%Z /\ Paths pr = [[Name graph_A 0]]).
Proof.
  apply (RunFloyd_shortest_distance scenario_A graph_A 0 2).
  - vm_compute. reflexivity.
  - vm_compute. reflexivity.
  - vm_compute. lia.
  - vm_compute. lia.
Defined.

Lemma RunFloyd_paths_shortest_witness :
  let pr := pair_at (Results (RunFloyd graph_A)) (NumNodes graph_A) 0 2 in
  (forall names, names ∈ Paths pr ->
     exists p, names = map (Name graph_A) (0 :: p) /\ walk (Weight graph_A) 0 p 2 /\
               NoDup (0 :: p) /\ NoDup names /\
               walk_weight (Weight graph_A) 0 p = Distance pr) /\
  NoDup (Paths pr).
Proof.
  apply (RunFloyd_paths_shortest scenario_A graph_A 0 2).
  - vm_compute. reflexivity.
  - vm_compute. reflexivity.
  - vm_compute. lia.
  - vm_compute. lia.
  - vm_compute. discriminate.
Defined.

Lemma via_neighbor_paths_sorted_witness :
  let cands := pair_candidates graph_A 0 2 in
  let final := ViaNeighborPaths
                 (pair_at (Results (FillViaNeighborPaths (RunFloyd graph_A)))
                    (NumNodes graph_A) 0 2) in
  sort_by_distance cands ≡ₚ cands /\
  StronglySorted by_distance (sort_by_distance cands) /\
  final = (if (2 =? 0) || (length (Neighbors graph_A 0) =? 0) then []
           else dedup_loop MaxViaNeighborPaths (sort_by_distance cands) [] ∅) /\
  sublist final (sort_by_distance cands) /\
  StronglySorted by_distance final.
Proof.
  apply (via_neighbor_paths_sorted scenario_A graph_A 0 2).
  - vm_compute. reflexivity.
  - vm_compute. lia.
  - vm_compute. lia.
Defined.

Lemma result_caps_witness :
  let pr := pair_at (Results (FillViaNeighborPaths (RunFloyd graph_A)))
              (NumNodes graph_A) 0 2 in
  length (Paths pr) <= 4 /\
  length (ViaNeighborPaths pr) <= 3 /\
  forall pd, pd ∈ ViaNeighborPaths pr ->
    exists tl, Path pd = From pr :: tl /\ From pr ∉ tl.
Proof.
  apply (result_caps scenario_A graph_A).
  - vm_compute. reflexivity.
  - apply list_elem_of_lookup. exists 2. vm_compute. reflexivity.
Defined.

Lemma unreachable_pair_witness :
  let before := pair_at (Results (RunFloyd graph_A)) (NumNodes graph_A) 2 0 in
  let after := pair_at (Results (FillViaNeighborPaths (RunFloyd graph_A)))
                 (NumNodes graph_A) 2 0 in
  Distance before = (-1)%Z /\ Paths before = [] /\ ViaNeighborPaths before = [] /\
  Distance after = (-1)%Z /\ Paths after = [] /\ ViaNeighborPaths after = [].
Proof.
  apply (unreachable_pair scenario_A graph_A 2 0).
  - vm_compute. reflexivity.
  - vm_compute. reflexivity.
  - vm_compute. lia.
  - vm_compute. lia.
  - lia.
  - exact graph_A_C_is_a_sink.
Defined.

Lemma CopyWithoutNode_spec_witness :
  let sub := (CopyWithoutNode_call graph_A 0).2.1 in
  let oldToNew := (CopyWithoutNode_call graph_A 0).2.2 in
  Nodes sub = map (Name graph_A) (retained 0 (seq 0 (NumNodes graph_A))) /\
  NumNodes sub = NumNodes graph_A - 1 /\
  (forall a, a < NumNodes graph_A - 1 -> Name sub a = Name graph_A (old_index 0 a)) /\
  square (NumNodes graph_A - 1) (AdjMatrix sub) /\
  (forall a b, a < NumNodes graph_A - 1 -> b < NumNodes graph_A - 1 ->
     Weight sub a b = Weight graph_A (old_index 0 a) (old_index 0 b)) /\
  length oldToNew = NumNodes graph_A /\
  nth 0 oldToNew 0%Z = (-1)%Z /\
  (forall i, i < NumNodes graph_A -> i <> 0 ->
     nth i oldToNew 0%Z = Z.of_nat (new_index 0 i) /\
     new_index 0 i < NumNodes graph_A - 1 /\ old_index 0 (new_index 0 i) = i) /\
  Nodes (CopyWithoutNode_call graph_A 0).1 = Nodes graph_A /\
  AdjMatrix (CopyWithoutNode_call graph_A 0).1 = AdjMatrix graph_A.
Proof.
  apply (CopyWithoutNode_spec graph_A 0).
  - exact (proj1 (proj2 graph_A_wf)).
  - vm_compute. lia.
Defined.


(** ** The test suite, replayed on the embedding *)

Example test_TwoEqualPaths :
  (fun pr => (Distance pr, Paths pr)) <$> findResult (all_results scenario_B) "A" "F" =
  Some (30%Z, [["A"; "C"; "D"; "F"]; ["A"; "E"; "D"; "F"]]%string).
Proof. vm_compute. reflexivity. Qed.

Example test_Unreachable :
  (fun pr => (Distance pr, Paths pr)) <$> findResult (all_results scenario_C) "B" "A" =
  Some ((-1)%Z, []).
Proof. vm_compute. reflexivity. Qed.

Example test_MaxFourPaths :
  (fun pr => (Distance pr, Paths pr)) <$> findResult (all_results three_ways) "A" "E" =
  Some (2%Z, [["A"; "B"; "E"]; ["A"; "C"; "E"]; ["A"; "D"; "E"]]%string).
Proof. vm_compute. reflexivity. Qed.

Example test_FillViaNeighborPaths :
  ViaNeighborPaths <$> findResult (all_results scenario_D) "A" "D" =
  Some [mkPathDist ["A"; "B"; "D"]%string 20; mkPathDist ["A"; "C"; "D"]%string 20].
Proof. vm_compute. reflexivity. Qed.

Example test_StartHasNoOutEdges :
  ViaNeighborPaths <$> findResult (all_results scenario_E) "A" "B" = Some [].
Proof. vm_compute. reflexivity. Qed.

Example test_WeightRejected :
  NewFromStruct (mkGraphJSON ["A"; "B"]%string [mkEdge "A" "B" 0]) =
    (None, Some (ErrWeightOutOfRange (mkEdge "A" "B" 0))) /\
  NewFromStruct (mkGraphJSON ["A"; "B"]%string [mkEdge "A" "B" 1001]) =
    (None, Some (ErrWeightOutOfRange (mkEdge "A" "B" 1001))) /\
  Weight (loaded (mkGraphJSON ["A"; "B"]%string [mkEdge "A" "B" 1])) 0 1 = 1%Z /\
  NewFromStruct (mkGraphJSON [] []) = (None, Some ErrNoNodes).
Proof. repeat split; vm_compute; reflexivity. Qed.

Example test_NodesFromEdges :
  Nodes (loaded nodes_from_edges) = ["X"; "Y"; "Z"]%string /\
  Index (loaded nodes_from_edges) "X" = (0, true) /\
  Index (loaded nodes_from_edges) "Z" = (2, true) /\
  Index (loaded nodes_from_edges) "W" = (0, false).
Proof. repeat split; vm_compute; reflexivity. Qed.

Example test_Neighbors :
  Neighbors (loaded three_ways) 0 = [1; 2; 3] /\ Neighbors (loaded three_ways) 4 = [].
Proof. repeat split; vm_compute; reflexivity. Qed.

Example test_CopyWithoutNode :
  Nodes (CopyWithoutNode graph_A 0).1 = ["B"; "C"]%string /\
  (CopyWithoutNode graph_A 0).2 = [(-1)%Z; 0%Z; 1%Z] /\
  AdjMatrix (CopyWithoutNode graph_A 0).1 = [[0; 20]; [0; 0]]%Z.
Proof. repeat split; vm_compute; reflexivity. Qed.

(** After the post-pass Scenario A has the direct path A,C (100) next to
    A,B,C (70) among the via-neighbor paths of (A, C), not among its paths. *)
Example scenario_A_via :
  (fun pr => (Paths pr, ViaNeighborPaths pr)) <$>
    findResult (all_results scenario_A) "A" "C" =
  Some ([["A"; "B"; "C"]%string],
        [mkPathDist ["A"; "B"; "C"]%string 70; mkPathDist ["A"; "C"]%string 100]).
Proof. vm_compute. reflexivity. Qed.

(** * Further properties of the code *)

(** ** Loader: index assignment and lookups *)

Lemma fold_add_edge_nodes_flat es st :
  fold_left add_edge_nodes es st = fold_left add_node (flat_map endpoints es) st.
Proof.
  revert st. induction es as [|e es IH]; intros st; [done|].
  simpl. by rewrite IH.
Qed.

Lemma collect_nodes_fold gj :
  collect_nodes gj = (fold_left add_node (all_names gj) ([], ∅)).1.
Proof.
  unfold collect_nodes, all_names. by rewrite fold_left_app, fold_add_edge_nodes_flat.
Qed.

Lemma fold_add_node_prefix l st :
  exists tl, (fold_left add_node l st).1 = st.1 ++ tl.
Proof.
  revert st. induction l as [|n l IH]; intros st; simpl.
  - exists []. by rewrite app_nil_r.
  - destruct (IH (add_node st n)) as [tl ->]. unfold add_node.
    case_bool_decide; cbn [fst]; [by exists tl|].
    exists (n :: tl). by rewrite <- app_assoc.
Qed.

Lemma NoDup_same_length {A} (l k : list A) :
  NoDup l -> NoDup k -> (forall x, x ∈ l <-> x ∈ k) -> length l = length k.
Proof. intros Hl Hk H. apply Permutation_length. by apply NoDup_Permutation. Qed.

(** X1. The loader numbers the names in the order it first meets them
    (declared nodes, then edge endpoints): a name is given the number of
    distinct names met before its first occurrence, and [Index] finds it
    there. *)
Theorem NewFromStruct_index_order gj g l1 n l2 :
  NewFromStruct gj = (Some g, None) ->
  all_names gj = l1 ++ n :: l2 -> n ∉ l1 ->
  Nodes g !! length (remove_dups l1) = Some n /\
  Index g n = (length (remove_dups l1), true).
Proof.
  intros Hnew Hsplit Hn.
  destruct (NewFromStruct_wf gj g Hnew) as (Hwf & _ & Hg).
  assert (Nodes g !! length (remove_dups l1) = Some n) as Hlook.
  { rewrite Hg, collect_nodes_fold, Hsplit, fold_left_app. cbn [fold_left].
    destruct (fold_add_node_inv l1 _ nodes_inv_init) as [[Hnd Hseen] Hel].
    set (st := fold_left add_node l1 ([], ∅)) in *.
    assert (length st.1 = length (remove_dups l1)) as Hlen.
    { apply NoDup_same_length; [done|apply NoDup_remove_dups|].
      intros x. rewrite Hel, elem_of_remove_dups. cbn [fst]. rewrite elem_of_nil. tauto. }
    assert (add_node st n = (st.1 ++ [n], {[n]} ∪ st.2)) as ->.
    { unfold add_node. rewrite bool_decide_eq_false_2; [done|].
      rewrite Hseen, Hel. cbn [fst]. rewrite elem_of_nil. tauto. }
    destruct (fold_add_node_prefix l2 (st.1 ++ [n], {[n]} ∪ st.2)) as [tl ->].
    cbn [fst]. rewrite <- Hlen, <- app_assoc. cbn [app]. by apply list_lookup_middle. }
  split; [done|]. unfold Index.
  destruct Hwf as (Hnd & _ & _ & ->). by rewrite (index_map_lookup _ _ _ Hnd Hlook).
Qed.

Lemma index_map_Some l n i :
  NoDup l -> index_map l !! n = Some i -> l !! i = Some n.
Proof.
  intros Hnd Hi. destruct (decide (n ∈ l)) as [Hin|Hin].
  - apply list_elem_of_lookup in Hin as [j Hj].
    rewrite (index_map_lookup _ _ _ Hnd Hj) in Hi. by injection Hi as <-.
  - by rewrite index_map_None in Hi.
Qed.

(** X2. [Index] and [Name] are inverse on a well-formed store: the index of
    the name at [i] is [i]; a name that is found sits at the index returned,
    which is in range; and a name is not found exactly when it is no node. *)
Theorem Index_Name_roundtrip g :
  wf_graph g ->
  (forall i, i < NumNodes g -> Index g (Name g i) = (i, true)) /\
  (forall name i, Index g name = (i, true) -> i < NumNodes g /\ Name g i = name) /\
  (forall name, name ∉ Nodes g <-> Index g name = (0, false)).
Proof.
  intros Hwf. pose proof Hwf as (Hnd & _ & _ & Hidx). split_and!.
  - intros i Hi. unfold Index. by rewrite index_map_Name.
  - intros name i. unfold Index. rewrite Hidx.
    destruct (index_map (Nodes g) !! name) as [k|] eqn:E; [|done].
    intros [= ->]. apply index_map_Some in E; [|done].
    split; [by apply lookup_lt_Some in E|]. unfold Name. by rewrite nth_lookup, E.
  - intros name. unfold Index. rewrite Hidx. split.
    + intros Hn. by rewrite index_map_None.
    + destruct (index_map (Nodes g) !! name) as [k|] eqn:E; [done|].
      intros _ Hin. apply list_elem_of_lookup in Hin as [j Hj].
      by rewrite (index_map_lookup _ _ _ Hnd Hj) in E.
Qed.

Lemma idx_of_node nodes a :
  NoDup nodes -> a ∈ nodes ->
  idx_of (index_map nodes) a < length nodes /\
  nodes !! idx_of (index_map nodes) a = Some a.
Proof.
  intros Hnd Ha. apply list_elem_of_lookup in Ha as [i Hi].
  unfold idx_of. rewrite (index_map_lookup _ _ _ Hnd Hi). simpl.
  split; [by apply lookup_lt_Some in Hi|done].
Qed.

Lemma fold_set_edge_other m es A i j :
  (forall e, e ∈ es -> (idx_of m (e_From e), idx_of m (e_To e)) <> (i, j)) ->
  mget (fold_left (set_edge m) es A) i j = mget A i j.
Proof.
  revert A. induction es as [|e es IH]; intros A H; [done|].
  simpl. rewrite IH by (intros e' He'; apply H; by right).
  unfold set_edge. apply mget_mset_ne. intros Heq. apply (H e); [left|done].
Qed.

Lemma fold_set_edge_origin m es N i j :
  (0 < mget (fold_left (set_edge m) es (zero_matrix N)) i j)%Z ->
  exists e, e ∈ es /\ idx_of m (e_From e) = i /\ idx_of m (e_To e) = j /\
            e_Weight e = mget (fold_left (set_edge m) es (zero_matrix N)) i j.
Proof.
  revert i j.
  apply (fold_left_invariant
           (fun A => square N A /\ forall i j, (0 < mget A i j)%Z ->
              exists e, e ∈ es /\ idx_of m (e_From e) = i /\ idx_of m (e_To e) = j /\
                        e_Weight e = mget A i j)).
  - intros A e He [Hsq HA]. split; [by apply square_mset|].
    intros i j. unfold set_edge. rewrite (mget_mset_square N) by done.
    case_decide as E; [|apply HA].
    destruct E as ([= -> ->] & _). intros _. by exists e.
  - split; [apply square_zero_matrix|]. intros i j. rewrite mget_zero_matrix. lia.
Qed.

Lemma endpoints_in_all_names gj e :
  e ∈ gj_Edges gj -> e_From e ∈ all_names gj /\ e_To e ∈ all_names gj.
Proof.
  intros He. unfold all_names. rewrite !elem_of_app.
  assert (forall x, x ∈ endpoints e -> x ∈ flat_map endpoints (gj_Edges gj)) as H.
  { intros x Hx. apply list_elem_of_In, in_flat_map. exists e.
    split; by apply list_elem_of_In. }
  split; right; apply H; unfold endpoints; [left|right; left].
Qed.

(** X3. The store holds the edges of the input and nothing else: an edge
    that no later edge with the same endpoints overwrites is found, through
    [Index], with its weight; and every positive cell is the weight of an
    edge of the input between the nodes of that cell. *)
Theorem NewFromStruct_edge_weight gj g :
  NewFromStruct gj = (Some g, None) ->
  (forall es1 e es2, gj_Edges gj = es1 ++ e :: es2 ->
     (forall e', e' ∈ es2 -> ~ (e_From e' = e_From e /\ e_To e' = e_To e)) ->
     exists i j, Index g (e_From e) = (i, true) /\ Index g (e_To e) = (j, true) /\
                 Weight g i j = e_Weight e) /\
  (forall i j, (0 < Weight g i j)%Z ->
     exists e, e ∈ gj_Edges gj /\ e_From e = Name g i /\ e_To e = Name g j /\
               e_Weight e = Weight g i j).
Proof.
  intros Hnew. destruct (NewFromStruct_wf gj g Hnew) as (Hwf & _ & Hg).
  pose proof Hwf as (Hnd & Hsq & _ & Hidx).
  assert (AdjMatrix g =
          fold_left (set_edge (NameToIndex g)) (gj_Edges gj) (zero_matrix (NumNodes g)))
    as Hadj.
  { unfold NewFromStruct in Hnew. destruct (find _ _); [done|].
    destruct (_ =? 0); [done|]. by injection Hnew as <-. }
  assert (forall e, e ∈ gj_Edges gj ->
            (idx_of (NameToIndex g) (e_From e) < NumNodes g /\
             Nodes g !! idx_of (NameToIndex g) (e_From e) = Some (e_From e)) /\
            (idx_of (NameToIndex g) (e_To e) < NumNodes g /\
             Nodes g !! idx_of (NameToIndex g) (e_To e) = Some (e_To e))) as Hends.
  { intros e He. destruct (endpoints_in_all_names gj e He) as [HF HT].
    rewrite Hidx. unfold NumNodes.
    split; apply idx_of_node; try done; rewrite Hg; by apply elem_of_collect_nodes. }
  split.
  - intros es1 e es2 Hsplit Hlast.
    assert (e ∈ gj_Edges gj) as He by (rewrite Hsplit, elem_of_app; right; left).
    destruct (Hends e He) as [[HiN Hi] [HjN Hj]].
    exists (idx_of (NameToIndex g) (e_From e)), (idx_of (NameToIndex g) (e_To e)).
    split_and!.
    + unfold Index, idx_of in *. rewrite Hidx in *.
      apply (index_map_lookup _ _ _ Hnd) in Hi. by rewrite Hi.
    + unfold Index, idx_of in *. rewrite Hidx in *.
      apply (index_map_lookup _ _ _ Hnd) in Hj. by rewrite Hj.
    + unfold Weight. rewrite Hadj, Hsplit, fold_left_app. cbn [fold_left].
      rewrite fold_set_edge_other.
      * pose proof (fold_set_edge_square _ (NameToIndex g) es1 _
                      (square_zero_matrix (NumNodes g))) as [Hl Hr].
        apply mget_mset_eq; [by rewrite Hl|by rewrite Hr].
      * intros e' He' [= HF HT]. apply (Hlast e' He').
        assert (e' ∈ gj_Edges gj) as He'' by (rewrite Hsplit, elem_of_app; right; by right).
        destruct (Hends e' He'') as [[_ Hi'] [_ Hj']].
        rewrite HF in Hi'. rewrite HT in Hj'. split; congruence.
  - intros i j Hpos. unfold Weight in *. rewrite Hadj in Hpos |- *.
    destruct (fold_set_edge_origin _ _ _ _ _ Hpos) as (e & He & Hi & Hj & Hw).
    exists e. destruct (Hends e He) as [[_ Hi'] [_ Hj']].
    rewrite Hi in Hi'. rewrite Hj in Hj'.
    unfold Name. rewrite !nth_lookup, Hi', Hj'. done.
Qed.

(** ** Out-neighbors *)

Lemma StronglySorted_filter_seq (p : nat -> bool) a n :
  StronglySorted lt (List.filter p (seq a n)).
Proof.
  revert a. induction n as [|n IH]; intros a; simpl; [constructor|].
  destruct (p a); [|apply IH]. constructor; [apply IH|].
  apply List.Forall_forall. intros x Hx. apply filter_In in Hx as [Hx _].
  apply in_seq in Hx. lia.
Qed.

(** X4. [Neighbors i] lists, in ascending order and without repetition,
    exactly the nodes that [i] has an edge to. *)
Theorem Neighbors_ascending g i :
  wf_graph g -> i < NumNodes g ->
  (forall j, j ∈ Neighbors g i <-> j < NumNodes g /\ (0 < Weight g i j)%Z) /\
  StronglySorted lt (Neighbors g i).
Proof.
  intros Hwf Hi. split; [|apply StronglySorted_filter_seq].
  intros j. split; [by apply Neighbors_spec|].
  intros [Hj Hw]. destruct Hwf as (_ & [_ Hr] & _).
  unfold Neighbors. rewrite Hr by done.
  apply list_elem_of_In, filter_In. split; [apply in_seq; lia|].
  by apply Z.ltb_lt.
Qed.

(** ** Lookups in the subgraph and in the results *)

(** X5. In the subgraph without node [x] the removed name is no longer
    found, and every other name is found at the index that [oldToNew] gives
    for it. *)
Theorem CopyWithoutNode_Index g x :
  wf_graph g -> x < NumNodes g ->
  Index (CopyWithoutNode g x).1 (Name g x) = (0, false) /\
  forall i, i < NumNodes g -> i <> x ->
    (0 <= nth i (CopyWithoutNode g x).2 0)%Z /\
    Index (CopyWithoutNode g x).1 (Name g i) =
      (Z.to_nat (nth i (CopyWithoutNode g x).2 0%Z), true).
Proof.
  intros Hwf Hx.
  destruct (CopyWithoutNode_facts g x Hx) as (Hnodes & HN & Hname & _ & _ & _ & _ & Hmap).
  pose proof (CopyWithoutNode_wf g x Hwf Hx) as Hwfs.
  cbn [fst snd] in *. pose proof Hwf as (Hnd & _).
  pose proof Hwfs as (_ & _ & _ & Hidx). split.
  - unfold Index. rewrite Hidx, index_map_None; [done|].
    rewrite Hnodes. intros Hin.
    apply list_elem_of_In, in_map_iff in Hin as (v & Heq & Hv).
    unfold retained in Hv. apply filter_In in Hv as [Hv Hne]. apply in_seq in Hv.
    bool_to_prop. apply Name_inj in Heq; [done|done|lia|done].
  - intros i Hi Hix. destruct (Hmap i Hi Hix) as (-> & Hlt & Hold).
    split; [lia|]. rewrite Nat2Z.id. unfold Index.
    rewrite <- Hold at 1. rewrite <- Hname by done.
    rewrite index_map_Name; [done|done|by rewrite HN].
Qed.

Lemma find_first {A} (p : A -> bool) l k d :
  k < length l -> p (nth k l d) = true ->
  (forall k', k' < k -> p (nth k' l d) = false) ->
  find p l = Some (nth k l d).
Proof.
  revert k. induction l as [|a l IH]; intros k Hk Hp Hfirst; [simpl in Hk; lia|].
  simpl. destruct k as [|k].
  - simpl in Hp. by rewrite Hp.
  - pose proof (Hfirst 0 ltac:(lia)) as H0. simpl in H0. rewrite H0.
    apply IH; [simpl in Hk; lia|done|].
    intros k' Hk'. apply (Hfirst (S k')). lia.
Qed.

Lemma find_all_false {A} (p : A -> bool) l :
  (forall a, a ∈ l -> p a = false) -> find p l = None.
Proof.
  induction l as [|a l IH]; intros H; [done|]. simpl.
  rewrite H by left. apply IH. intros b Hb. apply H. by right.
Qed.

Lemma names_match_at g rs i j k :
  NoDup (Nodes g) ->
  length rs = NumNodes g * NumNodes g ->
  (forall a b, a < NumNodes g -> b < NumNodes g ->
     From (pair_at rs (NumNodes g) a b) = Name g a /\
     To (pair_at rs (NumNodes g) a b) = Name g b) ->
  i < NumNodes g -> j < NumNodes g -> k < i * NumNodes g + j ->
  names_match (Name g i) (Name g j) (nth k rs dflt_pr) = false.
Proof.
  intros Hnd Hlen Hnames Hi Hj Hk. set (N := NumNodes g) in *.
  assert (0 < N) as HN by lia.
  assert (k = (k / N) * N + k mod N) as Hdm.
  { pose proof (Nat.div_mod_eq k N). lia. }
  assert (k mod N < N) as Hmod by (apply Nat.mod_upper_bound; lia).
  assert (k / N < N) as Hdiv.
  { apply Nat.Div0.div_lt_upper_bound. pose proof (pair_index_lt N i j Hi Hj). lia. }
  destruct (Hnames (k / N) (k mod N) Hdiv Hmod) as [HF HT].
  unfold pair_at in HF, HT. rewrite <- Hdm in HF, HT.
  unfold names_match. rewrite HF, HT.
  destruct (String.eqb_spec (Name g (k / N)) (Name g i)) as [E1|E1]; [|done].
  destruct (String.eqb_spec (Name g (k mod N)) (Name g j)) as [E2|E2]; [|done].
  apply Name_inj in E1; [|done..]. apply Name_inj in E2; [|done..].
  exfalso. rewrite E1, E2 in Hdm. lia.
Qed.

(** X6. The results hold one entry per ordered pair of nodes, and looking
    one up by names, as the tests' [findResult] does, returns the entry of
    that pair; names that are not both nodes find nothing. *)
Theorem findResult_by_names gj g :
  NewFromStruct gj = (Some g, None) ->
  let rs := Results (FillViaNeighborPaths (RunFloyd g)) in
  length rs = NumNodes g * NumNodes g /\
  (forall i j, i < NumNodes g -> j < NumNodes g ->
     findResult rs (Name g i) (Name g j) = Some (pair_at rs (NumNodes g) i j) /\
     From (pair_at rs (NumNodes g) i j) = Name g i /\
     To (pair_at rs (NumNodes g) i j) = Name g j) /\
  (forall a b, a ∉ Nodes g \/ b ∉ Nodes g -> findResult rs a b = None).
Proof.
  intros Hnew rs. destruct (NewFromStruct_wf gj g Hnew) as (Hwf & _ & _).
  pose proof Hwf as (Hnd & _).
  pose proof (length_Results_Fill g) as Hlen. fold rs in Hlen.
  assert (forall a b, a < NumNodes g -> b < NumNodes g ->
            From (pair_at rs (NumNodes g) a b) = Name g a /\
            To (pair_at rs (NumNodes g) a b) = Name g b) as Hnames.
  { intros a b Ha Hb. subst rs.
    rewrite FillViaNeighborPaths_pair_at, pair_at_RunFloyd by done.
    apply pair_result_names. }
  split_and!; [done| |].
  - intros i j Hi Hj. split; [|by apply Hnames].
    unfold findResult, pair_at. apply find_first.
    + rewrite Hlen. by apply pair_index_lt.
    + destruct (Hnames i j Hi Hj) as [HF HT]. unfold pair_at in HF, HT.
      unfold names_match. rewrite HF, HT. by rewrite !String.eqb_refl.
    + intros k Hk. by apply (names_match_at g).
  - intros a b Hab. apply find_all_false. intros pr Hpr.
    apply (pair_in_Results _ (NumNodes g)) in Hpr as (i & j & Hi & Hj & ->); [|done].
    destruct (Hnames i j Hi Hj) as [HF HT]. unfold names_match. rewrite HF, HT.
    destruct (String.eqb_spec (Name g i) a) as [E1|E1]; [|done].
    destruct (String.eqb_spec (Name g j) b) as [E2|E2]; [|done]. exfalso.
    subst. destruct Hab as [H|H]; apply H; by apply Name_in_Nodes.
Qed.

(** ** Distances *)

(** X7. Reported distances obey the triangle inequality: when [j] can be
    reached from [i] and [k] from [j], then [k] can be reached from [i], at a
    distance no more than the sum. *)
Theorem Distance_triangle gj g i j k :
  NewFromStruct gj = (Some g, None) -> fits (NumNodes g) ->
  i < NumNodes g -> j < NumNodes g -> k < NumNodes g ->
  let d a b := Distance (pair_at (Results (RunFloyd g)) (NumNodes g) a b) in
  d i j <> (-1)%Z -> d j k <> (-1)%Z ->
  d i k <> (-1)%Z /\ (d i k <= d i j + d j k)%Z.
Proof.
  intros Hnew Hfits Hi Hj Hk d Hij Hjk. subst d. cbv beta in *.
  destruct (NewFromStruct_wf gj g Hnew) as (Hwf & _ & _).
  destruct (RunFloyd_pair g i j Hwf Hfits Hi Hj) as (_ & _ & _ & Hex1 & _).
  destruct (RunFloyd_pair g j k Hwf Hfits Hj Hk) as (_ & _ & _ & Hex2 & _).
  destruct (RunFloyd_pair g i k Hwf Hfits Hi Hk) as (_ & _ & Hmin & _).
  destruct (Hex1 Hij) as (p & Hp & Hwp). destruct (Hex2 Hjk) as (q & Hq & Hwq).
  destruct (Hmin (p ++ q)) as [Hne Hle]; [by eapply walk_app|].
  rewrite (walk_weight_app _ i p j q Hp) in Hle. split; [done|lia].
Qed.

(** X8. A finite distance between distinct nodes is at least 1 and at most
    1000 times the number of other nodes; a direct edge bounds it by its
    weight. *)
Theorem Distance_bounds gj g i j :
  NewFromStruct gj = (Some g, None) -> fits (NumNodes g) ->
  i < NumNodes g -> j < NumNodes g -> i <> j ->
  let d := Distance (pair_at (Results (RunFloyd g)) (NumNodes g) i j) in
  (d <> (-1)%Z -> (1 <= d <= 1000 * (Z.of_nat (NumNodes g) - 1))%Z) /\
  ((0 < Weight g i j)%Z -> d <> (-1)%Z /\ (d <= Weight g i j)%Z).
Proof.
  intros Hnew Hfits Hi Hj Hij d. subst d.
  destruct (NewFromStruct_wf gj g Hnew) as (Hwf & _ & _).
  pose proof Hwf as (_ & Hsq & Hbnd & _).
  destruct (RunFloyd_pair g i j Hwf Hfits Hi Hj) as (_ & _ & Hmin & Hex & _).
  split.
  - intros Hfin. destruct (Hex Hfin) as (p & Hp & Hwp). split.
    + rewrite <- Hwp. destruct p as [|m p]; [done|]. destruct Hp as [He _].
      cbn [walk_weight]. pose proof (walk_weight_nonneg _ Hbnd m p). lia.
    + destruct (walk_simple _ Hbnd i p j Hp) as (q & Hq & Hnd & _ & _).
      destruct (Hmin q Hq) as [_ Hle].
      pose proof (walk_weight_le_length _ Hbnd i q).
      destruct (walk_simple_length _ _ (fun a b => Weight_lt g a b Hsq) i q j Hq Hnd)
        as [Hlen| ->]; [lia|done].
  - intros He. destruct (Hmin [j]) as [Hne Hle]; [done|]. cbn [walk_weight] in Hle.
    split; [done|lia].
Qed.

(** ** Path keys *)

Lemma append_cons c s t : (String c s +:+ t)%string = String c (s +:+ t)%string.
Proof. reflexivity. Qed.

Lemma append_nil_l t : ("" +:+ t)%string = t.
Proof. reflexivity. Qed.

Lemma append_nil_r s : (s +:+ "")%string = s.
Proof. induction s as [|c s IH]; [done|]. by rewrite append_cons, IH. Qed.

Lemma append_assoc s1 s2 s3 :
  ((s1 +:+ s2) +:+ s3)%string = (s1 +:+ (s2 +:+ s3))%string.
Proof. induction s1 as [|c s1 IH]; [done|]. by rewrite !append_cons, IH. Qed.

Lemma append_nonempty_l s1 s2 : s1 <> ""%string -> (s1 +:+ s2)%string <> ""%string.
Proof. by destruct s1. Qed.

Lemma pathKey_fold l s :
  s <> ""%string ->
  fold_left (fun s p => ((if String.eqb s "" then s else s +:+ "|") +:+ p)%string) l s =
  (s +:+ key_tail l)%string.
Proof.
  revert s. induction l as [|y l IH]; intros s Hs; cbn [fold_left key_tail].
  - by rewrite append_nil_r.
  - rewrite (proj2 (String.eqb_neq _ _) Hs).
    rewrite IH by (by do 2 apply append_nonempty_l).
    by rewrite !append_assoc.
Qed.

Lemma pathKey_cons x l : x <> ""%string -> pathKey (x :: l) = (x +:+ key_tail l)%string.
Proof.
  intros Hx. unfold pathKey. cbn [fold_left]. rewrite String.eqb_refl, append_nil_l.
  by apply pathKey_fold.
Qed.

Lemma key_head_inj x y A B :
  bar_free x -> bar_free y ->
  (A = ""%string \/ exists A', A = ("|" +:+ A')%string) ->
  (B = ""%string \/ exists B', B = ("|" +:+ B')%string) ->
  (x +:+ A)%string = (y +:+ B)%string -> x = y /\ A = B.
Proof.
  revert y. induction x as [|a x IH]; intros [|c y] Hx Hy HA HB Heq;
    rewrite ?append_cons, ?append_nil_l in Heq; cbn [bar_free] in *.
  - done.
  - exfalso. destruct Hy as [Hc _]. destruct HA as [->|[A' ->]]; [done|].
    rewrite append_cons in Heq. injection Heq as <- _. by apply Hc.
  - exfalso. destruct Hx as [Ha _]. destruct HB as [->|[B' ->]]; [done|].
    rewrite append_cons in Heq. injection Heq as -> _. by apply Ha.
  - injection Heq as -> Heq. destruct Hx as [_ Hx]. destruct Hy as [_ Hy].
    destruct (IH y Hx Hy HA HB Heq) as [-> ->]. done.
Qed.

Lemma key_tail_shape l :
  key_tail l = ""%string \/ exists A', key_tail l = ("|" +:+ A')%string.
Proof. destruct l; [by left|right]. cbn [key_tail]. eauto. Qed.

Lemma key_tail_inj xs ys :
  Forall plain_name xs -> Forall plain_name ys -> key_tail xs = key_tail ys -> xs = ys.
Proof.
  revert ys. induction xs as [|x xs IH]; intros [|y ys] Hxs Hys Heq;
    cbn [key_tail] in Heq; rewrite ?append_cons, ?append_nil_l in Heq; try done.
  injection Heq as Heq.
  inversion Hxs as [|? ? [_ Hx] Hxs']; subst. inversion Hys as [|? ? [_ Hy] Hys']; subst.
  destruct (key_head_inj x y _ _ Hx Hy (key_tail_shape xs) (key_tail_shape ys) Heq)
    as [-> Ht].
  f_equal. by apply IH.
Qed.

Lemma pathKey_plain_inj xs ys :
  Forall plain_name xs -> Forall plain_name ys ->
  pathKey xs = pathKey ys -> xs = ys.
Proof.
  intros Hxs Hys Heq. destruct xs as [|x xs], ys as [|y ys]; [done| | |].
  - exfalso. inversion Hys as [|? ? [Hy _] _]; subst.
    rewrite (pathKey_cons y ys Hy) in Heq. by destruct y.
  - exfalso. inversion Hxs as [|? ? [Hx _] _]; subst.
    rewrite (pathKey_cons x xs Hx) in Heq. by destruct x.
  - inversion Hxs as [|? ? [Hx Hbx] Hxs']; subst.
    inversion Hys as [|? ? [Hy Hby] Hys']; subst.
    rewrite pathKey_cons in Heq by done. rewrite pathKey_cons in Heq by done.
    destruct (key_head_inj x y _ _ Hbx Hby (key_tail_shape xs) (key_tail_shape ys) Heq)
      as [-> Ht].
    f_equal. by apply key_tail_inj.
Qed.

(** ** Path enumeration is exhaustive below the cap *)

Lemma emit_mono path st :
  st.2 ⊆ (emit path st).2 /\ length st.1 <= length (emit path st).1 /\
  pathKey path ∈ (emit path st).2.
Proof.
  unfold emit. case_bool_decide as E; cbn [fst snd]; [done|].
  rewrite length_app. split_and!; [set_solver|lia|set_solver].
Qed.

Lemma collectPaths_mono fuel g dist pred i j suffix st maxPaths :
  st.2 ⊆ (collectPaths fuel g dist pred i j suffix st maxPaths).2 /\
  length st.1 <= length (collectPaths fuel g dist pred i j suffix st maxPaths).1.
Proof.
  revert j suffix st. induction fuel as [|fuel IH]; intros j suffix st; [done|].
  simpl. destruct (maxPaths <=? length st.1); [done|].
  destruct (i =? j).
  { destruct (emit_mono (Name g i :: suffix) st) as (? & ? & _). done. }
  apply (fold_left_invariant (fun st' => st.2 ⊆ st'.2 /\ length st.1 <= length st'.1)).
  - intros st' m _ [H1 H2]. destruct (IH m (Name g m :: suffix) st') as [H3 H4].
    split; [by etrans|lia].
  - destruct (_ && _); [|done].
    destruct (emit_mono (Name g i :: suffix) st) as (? & ? & _). done.
Qed.

Lemma fold_collectPaths_mono fuel g dist pred i (sfx : nat -> list string) l st maxPaths :
  st.2 ⊆ (fold_left (fun st' m => collectPaths fuel g dist pred i m (sfx m) st' maxPaths)
            l st).2 /\
  length st.1 <=
  length (fold_left (fun st' m => collectPaths fuel g dist pred i m (sfx m) st' maxPaths)
            l st).1.
Proof.
  apply (fold_left_invariant (fun st' => st.2 ⊆ st'.2 /\ length st.1 <= length st'.1));
    [|done].
  intros st' m _ [H1 H2].
  destruct (collectPaths_mono fuel g dist pred i m (sfx m) st' maxPaths) as [H3 H4].
  split; [by etrans|lia].
Qed.

(** [seen] is exactly the set of keys of the paths emitted. *)
Lemma emit_seen path st :
  (forall k, k ∈ st.2 <-> exists p, p ∈ st.1 /\ pathKey p = k) ->
  forall k, k ∈ (emit path st).2 <-> exists p, p ∈ (emit path st).1 /\ pathKey p = k.
Proof.
  intros H k. unfold emit. case_bool_decide as E; cbn [fst snd]; [apply H|].
  rewrite elem_of_union, elem_of_singleton, H. split.
  - intros [->|(p & Hp & <-)].
    + exists path. split; [|done]. apply elem_of_app. right. left.
    + exists p. split; [|done]. apply elem_of_app. by left.
  - intros (p & Hp & <-). apply elem_of_app in Hp as [Hp|Hp]; [right; eauto|left].
    apply list_elem_of_singleton in Hp. by subst.
Qed.

Lemma collectPaths_seen fuel g dist pred i j suffix st maxPaths :
  (forall k, k ∈ st.2 <-> exists p, p ∈ st.1 /\ pathKey p = k) ->
  forall k, k ∈ (collectPaths fuel g dist pred i j suffix st maxPaths).2 <->
    exists p, p ∈ (collectPaths fuel g dist pred i j suffix st maxPaths).1 /\ pathKey p = k.
Proof.
  revert j suffix st. induction fuel as [|fuel IH]; intros j suffix st Hst; [done|].
  simpl. destruct (maxPaths <=? length st.1); [done|].
  destruct (i =? j); [by apply emit_seen|].
  apply (fold_left_invariant
           (fun st' => forall k, k ∈ st'.2 <-> exists p, p ∈ st'.1 /\ pathKey p = k)).
  - intros st' m _ Hst'. by apply IH.
  - destruct (_ && _); [by apply emit_seen|done].
Qed.

Lemma walk_unsnoc w i p j :
  walk w i p j -> p <> [] ->
  exists m, walk w i (removelast p) m /\ (0 < w m j)%Z /\
            walk_weight w i p = (walk_weight w i (removelast p) + w m j)%Z.
Proof.
  revert i. induction p as [|a p IH]; intros i Hp Hne; [done|].
  destruct Hp as [He Hp]. destruct p as [|b p].
  - simpl in Hp. subst a. exists i. simpl. split_and!; [done|done|lia].
  - destruct (IH a Hp ltac:(done)) as (m & Hm & Hw & Hsum).
    exists m. split_and!; [by split|done|].
    change (removelast (a :: b :: p)) with (a :: removelast (b :: p)).
    cbn [walk_weight] in *. lia.
Qed.

(** X10. On names that are not empty and hold no ["|"], [pathKey] tells
    paths apart: two paths with the same key are the same path, so that
    de-duplicating by key is de-duplicating by path. *)
Theorem pathKey_inj xs ys :
  Forall plain_name xs -> Forall plain_name ys ->
  pathKey xs = pathKey ys -> xs = ys.
Proof. apply pathKey_plain_inj. Qed.

Section EnumComplete.
Variables (g : Graph) (N : nat) (dist : list (list Z)) (pred : list (list (list nat))).
Variables (i maxPaths : nat).
Hypothesis Hi : i < N.
Hypothesis Hw : forall a b, (0 <= Weight g a b <= 1000)%Z.
Hypothesis HwN : forall a b, (0 < Weight g a b)%Z -> a < N /\ b < N.
Hypothesis Hpred : pred_ok g N dist pred.
Hypothesis Hpredc : pred_complete g N dist pred i.
Hypothesis Hopt : row_shortest g dist i.

Lemma collectPaths_complete fuel j suffix st p :
  Z.to_nat (mget dist i j) < fuel -> j < N -> i <> j ->
  length (collectPaths fuel g dist pred i j suffix st maxPaths).1 < maxPaths ->
  walk (Weight g) i p j -> walk_weight (Weight g) i p = mget dist i j ->
  pathKey (Name g i :: map (Name g) (removelast p) ++ suffix)
    ∈ (collectPaths fuel g dist pred i j suffix st maxPaths).2.
Proof.
  revert j suffix st p.
  induction fuel as [|fuel IH]; intros j suffix st p Hfuel Hj Hij Hlen Hp Hwp; [lia|].
  destruct Hopt as [Hmin Htri].
  simpl in Hlen |- *.
  destruct (maxPaths <=? length st.1) eqn:Ecap; bool_to_prop; [lia|].
  rewrite (proj2 (Nat.eqb_neq _ _) Hij) in Hlen |- *.
  set (st1 := if (0 <? Weight g i j)%Z && (Weight g i j =? mget dist i j)%Z
              then emit (Name g i :: suffix) st else st) in *.
  assert (p <> []) as Hpne by (intros ->; simpl in Hp; done).
  destruct (walk_unsnoc _ i p j Hp Hpne) as (m & Hp' & Hmj & Hsum).
  destruct (decide (removelast p = [])) as [E|E].
  - rewrite E in *. simpl in Hp'. subst m. simpl in Hsum.
    assert (pathKey (Name g i :: suffix) ∈ st1.2) as Hin.
    { subst st1. rewrite (proj2 (Z.ltb_lt _ _) Hmj).
      rewrite (proj2 (Z.eqb_eq _ _)) by lia. simpl. apply emit_mono. }
    simpl.
    by apply (fold_collectPaths_mono fuel g dist pred i
                (fun m => Name g m :: suffix) (pget pred i j) st1 maxPaths).
  - destruct (Hmin _ _ Hp') as [Hfin [H0 Hle]].
    pose proof (Htri m j Hfin Hmj) as Htr.
    destruct (Hmin _ _ Hp) as [_ [H0j _]].
    assert (walk_weight (Weight g) i (removelast p) = mget dist i m) as Hwp' by lia.
    destruct (HwN m j Hmj) as [HmN _].
    assert (m <> i) as Hmi.
    { intros ->. destruct (Hmin [] i eq_refl) as [_ [? Hz]]. simpl in Hz.
      destruct (removelast p) as [|a q] eqn:Eq; [done|]. destruct Hp' as [He _].
      cbn [walk_weight] in Hwp'. pose proof (walk_weight_nonneg _ Hw a q). lia. }
    assert (m ∈ pget pred i j) as Hm by (apply Hpredc; try done; lia).
    apply list_elem_of_split in Hm as (l1 & l2 & Hl).
    rewrite Hl in Hlen |- *. rewrite fold_left_app in Hlen |- *.
    cbn [fold_left] in Hlen |- *.
    set (stA := fold_left _ l1 st1) in *.
    set (stB := collectPaths fuel g dist pred i m (Name g m :: suffix) stA maxPaths) in *.
    destruct (fold_collectPaths_mono fuel g dist pred i
                (fun m => Name g m :: suffix) l2 stB maxPaths) as [Hsub Hlen2].
    cbv beta in Hsub, Hlen2. apply Hsub.
    assert (removelast p <> []) as E' by done.
    rewrite (walk_snoc _ i (removelast p) m Hp' E') at 1.
    rewrite map_app, <- app_assoc. cbn [map app].
    apply IH; try done; try lia. fold stB. lia.
Qed.
End EnumComplete.

Lemma floyd_row_shortest g i :
  wf_graph g -> fits (NumNodes g) -> i < NumNodes g ->
  row_shortest g (floyd_dist g (NumNodes g)) i.
Proof.
  intros Hwf Hfits Hi. pose proof Hwf as (_ & Hsq & Hbnd & _).
  destruct (floyd_dist_fw g Hwf Hfits) as [_ Hd].
  assert (forall p j, walk (Weight g) i p j -> j < NumNodes g) as HjN.
  { intros p j Hp. destruct (decide (p = [])) as [->|Hne]; [simpl in Hp; by subst|].
    pose proof (walk_vertices_lt _ _ (fun a b => Weight_lt g a b Hsq) i p j Hp) as Hall.
    rewrite (walk_snoc _ i p j Hp Hne) in Hall. apply Forall_app in Hall as [_ Hall].
    by inversion Hall. }
  split.
  - intros p j Hp. pose proof (HjN p j Hp) as Hj. rewrite Hd by done.
    destruct (fw_shortest (Weight g) (NumNodes g) Hbnd
                (fun a b => Weight_lt g a b Hsq) Hfits i j) as [Hmin _].
    destruct (Hmin p Hp) as [Hne Hle]. split; [done|].
    destruct (fw_range (Weight g) (NumNodes g) Hbnd
                (fun a b => Weight_lt g a b Hsq) Hfits (NumNodes g) i j); [done|lia].
  - intros m j Hfin He. destruct (Weight_lt g m j Hsq He) as [Hm Hj].
    rewrite !Hd in * by done.
    destruct (fw_shortest (Weight g) (NumNodes g) Hbnd
                (fun a b => Weight_lt g a b Hsq) Hfits i m) as [_ Hex].
    destruct (Hex Hfin) as (q & Hq & Hwq).
    destruct (fw_shortest (Weight g) (NumNodes g) Hbnd
                (fun a b => Weight_lt g a b Hsq) Hfits i j) as [Hmin _].
    destruct (Hmin (q ++ [j])) as [_ Hle].
    { eapply walk_app; [done|]. by split. }
    rewrite (walk_weight_app _ i q m [j] Hq) in Hle. simpl in Hle. lia.
Qed.

Lemma build_pred_complete g i :
  wf_graph g -> fits (NumNodes g) -> i < NumNodes g ->
  pred_complete g (NumNodes g) (floyd_dist g (NumNodes g))
    (build_pred g (NumNodes g) (floyd_dist g (NumNodes g))) i.
Proof.
  intros Hwf Hfits Hi j m Hj Hm Hij Hmi He Hfin Hsum.
  rewrite pget_build_pred by done.
  destruct (floyd_dist_range g i m Hwf Hfits Hi Hm) as [|Hr]; [done|].
  pose proof Hwf as (_ & _ & Hbnd & _). specialize (Hbnd m j).
  pose proof (Inf_big _ Hfits) as Hbig. unfold fits in Hfits.
  rewrite (proj2 (Nat.eqb_neq _ _) Hij).
  rewrite (proj2 (Z.eqb_neq _ _)) by lia. simpl.
  apply list_elem_of_In, filter_In. split; [apply in_seq; lia|].
  unfold is_pred. rewrite (proj2 (Nat.eqb_neq _ _) Hmi).
  rewrite (proj2 (Z.ltb_lt _ _) He), (proj2 (Z.eqb_neq _ _) Hfin). simpl.
  apply Z.eqb_eq. rewrite wadd_small by (unfold Inf, in_int in *; lia). done.
Qed.

(** Every shortest walk is listed, by its key, when the list is below the cap. *)
Lemma enumeratePaths_complete g i j p maxPaths :
  wf_graph g -> fits (NumNodes g) -> i < NumNodes g -> j < NumNodes g ->
  let dist := floyd_dist g (NumNodes g) in
  let pred := build_pred g (NumNodes g) dist in
  length (enumeratePaths g dist pred i j maxPaths) < maxPaths ->
  walk (Weight g) i p j -> walk_weight (Weight g) i p = mget dist i j ->
  exists names, names ∈ enumeratePaths g dist pred i j maxPaths /\
                pathKey names = pathKey (map (Name g) (i :: p)).
Proof.
  intros Hwf Hfits Hi Hj dist pred Hlen Hp Hwp.
  pose proof Hwf as (_ & Hsq & Hbnd & _).
  pose proof (floyd_row_shortest g i Hwf Hfits Hi) as Hrow. fold dist in Hrow.
  destruct (proj1 Hrow p j Hp) as [Hfin [H0 _]].
  unfold enumeratePaths in *. destruct (i =? j) eqn:E; bool_to_prop.
  - subst j. exists [Name g i]. split; [left|].
    destruct (proj1 Hrow [] i eq_refl) as [_ [? Hz]]. simpl in Hz.
    destruct p as [|a q]; [done|]. destruct Hp as [He _].
    cbn [walk_weight] in Hwp. pose proof (walk_weight_nonneg _ Hbnd a q). lia.
  - rewrite (proj2 (Z.eqb_neq _ _) Hfin) in *.
    pose proof (collectPaths_complete g (NumNodes g) dist pred i maxPaths Hi Hbnd
                  (fun a b => Weight_lt g a b Hsq)
                  (build_pred_complete g i Hwf Hfits Hi) Hrow
                  (path_fuel dist i j) j [Name g j] ([], ∅) p) as Hc.
    specialize (Hc ltac:(unfold path_fuel; lia) Hj E Hlen Hp Hwp).
    apply collectPaths_seen in Hc as (names & Hin & Hkey).
    + exists names. split; [done|]. rewrite Hkey. f_equal. cbn [map]. f_equal.
      assert (p <> []) as Hne by (intros ->; simpl in Hp; done).
      rewrite (walk_snoc _ i p j Hp Hne) at 2. by rewrite map_app.
    + intros k. cbn [fst snd]. split; [set_solver|].
      intros (q & Hq & _). by apply elem_of_nil in Hq.
Qed.

Lemma Name_plain g v :
  Forall plain_name (Nodes g) -> v < NumNodes g -> plain_name (Name g v).
Proof.
  intros Hall Hv. rewrite Forall_forall in Hall. by apply Hall, Name_in_Nodes.
Qed.

(** X9. A pair with fewer than four listed paths has all its shortest paths
    listed: every walk from [i] to [j] whose weight is the reported distance
    has its key among those of the list, and is itself in the list when the
    node names are plain. *)
Theorem Paths_exhaustive gj g i j p :
  NewFromStruct gj = (Some g, None) -> fits (NumNodes g) ->
  i < NumNodes g -> j < NumNodes g ->
  let pr := pair_at (Results (RunFloyd g)) (NumNodes g) i j in
  length (Paths pr) < MaxShortestPaths ->
  walk (Weight g) i p j -> walk_weight (Weight g) i p = Distance pr ->
  (exists names, names ∈ Paths pr /\ pathKey names = pathKey (map (Name g) (i :: p))) /\
  (Forall plain_name (Nodes g) -> map (Name g) (i :: p) ∈ Paths pr).
Proof.
  intros Hnew Hfits Hi Hj pr Hlen Hp Hwp. subst pr.
  destruct (NewFromStruct_wf gj g Hnew) as (Hwf & _ & _).
  pose proof Hwf as (_ & Hsq & Hbnd & _).
  rewrite pair_at_RunFloyd in * by done.
  destruct (proj1 (floyd_row_shortest g i Hwf Hfits Hi) p j Hp) as [Hfin _].
  unfold pair_result in *. rewrite (proj2 (Z.eqb_neq _ _) Hfin) in *.
  cbn [Paths Distance] in *.
  destruct (enumeratePaths_complete g i j p MaxShortestPaths Hwf Hfits Hi Hj Hlen Hp Hwp)
    as (names & Hin & Hkey).
  split; [eauto|]. intros Hplain.
  destruct (enumeratePaths_ok g i j MaxShortestPaths Hwf Hfits Hi Hj Hfin) as [Hgood _].
  rewrite Forall_forall in Hgood.
  destruct (Hgood names Hin) as (q & Hq & _ & _ & Hall & _).
  assert (names = map (Name g) (i :: p)) as <-; [|done].
  apply pathKey_plain_inj; [| |done].
  - rewrite Hq. apply Forall_forall. intros n Hn.
    apply list_elem_of_In, in_map_iff in Hn as (v & <- & Hv).
    apply Name_plain; [done|]. rewrite Forall_forall in Hall.
    by apply Hall, list_elem_of_In.
  - apply Forall_forall. intros n Hn.
    apply list_elem_of_In, in_map_iff in Hn as (v & <- & Hv).
    apply Name_plain; [done|]. destruct Hv as [<-|Hv]; [done|].
    pose proof (walk_vertices_lt _ _ (fun a b => Weight_lt g a b Hsq) i p j Hp) as Hall'.
    rewrite Forall_forall in Hall'. by apply Hall', list_elem_of_In.
Qed.

(** X11. A finite distance never comes without a path: the list of paths of
    a reachable pair is not empty. *)
Theorem Paths_nonempty gj g i j :
  NewFromStruct gj = (Some g, None) -> fits (NumNodes g) ->
  i < NumNodes g -> j < NumNodes g ->
  let pr := pair_at (Results (RunFloyd g)) (NumNodes g) i j in
  Distance pr <> (-1)%Z -> Paths pr <> [].
Proof.
  intros Hnew Hfits Hi Hj pr Hfin.
  destruct (NewFromStruct_wf gj g Hnew) as (Hwf & _ & _).
  destruct (RunFloyd_pair g i j Hwf Hfits Hi Hj) as (_ & _ & _ & Hex & _).
  fold pr in Hex. destruct (Hex Hfin) as (p & Hp & Hwp).
  destruct (decide (length (Paths pr) < MaxShortestPaths)) as [Hlt|Hge].
  - subst pr. rewrite pair_at_RunFloyd in * by done.
    destruct (proj1 (floyd_row_shortest g i Hwf Hfits Hi) p j Hp) as [Hf _].
    unfold pair_result in *. rewrite (proj2 (Z.eqb_neq _ _) Hf) in *.
    cbn [Paths Distance] in *.
    destruct (enumeratePaths_complete g i j p MaxShortestPaths Hwf Hfits Hi Hj Hlt Hp Hwp)
      as (names & Hin & _).
    intros E. rewrite E in Hin. by apply elem_of_nil in Hin.
  - intros E. rewrite E in Hge. unfold MaxShortestPaths in Hge. simpl in Hge. lia.
Qed.

(** X12. The predecessor list of a pair holds, in ascending order, exactly
    the nodes [m] other than the source that have an edge into the
    destination and lie on a shortest way to it:
    [dist[i][m] + w(m,j) = dist[i][j]] with [dist[i][m]] finite. *)
Theorem pred_characterization gj g i j m :
  NewFromStruct gj = (Some g, None) -> fits (NumNodes g) ->
  i < NumNodes g -> j < NumNodes g ->
  let dist := r_dist (RunFloyd g) in
  let pred := r_pred (RunFloyd g) in
  (m ∈ pget pred i j <->
   i <> j /\ m < NumNodes g /\ m <> i /\ (0 < Weight g m j)%Z /\
   mget dist i m <> Inf /\ (mget dist i m + Weight g m j = mget dist i j)%Z) /\
  StronglySorted lt (pget pred i j).
Proof.
  intros Hnew Hfits Hi Hj dist pred. subst dist pred. cbn [RunFloyd r_dist r_pred].
  destruct (NewFromStruct_wf gj g Hnew) as (Hwf & _ & _).
  split.
  - split.
    + intros Hm.
      destruct (build_pred_ok g Hwf Hfits i j m Hi Hj Hm) as (HmN & Hmi & He & H0 & Hsum).
      rewrite pget_build_pred in Hm by done.
      destruct (i =? j) eqn:E; bool_to_prop; [by apply elem_of_nil in Hm|].
      destruct (floyd_dist_range g i m Hwf Hfits Hi HmN) as [Hinf|Hr].
      * simpl in Hm. destruct (_ =? Inf)%Z; [by apply elem_of_nil in Hm|].
        apply list_elem_of_In, filter_In in Hm as [_ Hp]. unfold is_pred in Hp.
        bool_to_prop. done.
      * pose proof (Inf_big _ Hfits). split_and!; try done. lia.
    + intros (Hij & HmN & Hmi & He & Hfin & Hsum).
      by apply build_pred_complete.
  - rewrite pget_build_pred by done. destruct (_ || _); [constructor|].
    apply StronglySorted_filter_seq.
Qed.

Lemma Neighbors_intro g i j :
  wf_graph g -> i < NumNodes g -> j < NumNodes g -> (0 < Weight g i j)%Z ->
  j ∈ Neighbors g i.
Proof.
  intros Hwf Hi Hj Hw. destruct Hwf as (_ & [_ Hr] & _).
  unfold Neighbors. rewrite Hr by done.
  apply list_elem_of_In, filter_In. split; [apply in_seq; lia|].
  by apply Z.ltb_lt.
Qed.

Lemma walk_weight_old_index g sub x M a p b :
  (forall a b, a < M -> b < M -> Weight sub a b = Weight g (old_index x a) (old_index x b)) ->
  (forall a b, (0 < Weight sub a b)%Z -> a < M /\ b < M) ->
  walk (Weight sub) a p b ->
  walk_weight (Weight g) (old_index x a) (map (old_index x) p) =
  walk_weight (Weight sub) a p.
Proof.
  intros Hw HM. revert a. induction p as [|m p IH]; intros a; [done|].
  intros [He Hp]. destruct (HM a m He) as [Ha Hm].
  cbn [map walk_weight]. rewrite <- Hw by done. f_equal. by apply IH.
Qed.

(** A walk of the graph that stays away from [x] is a walk of the subgraph
    without [x], of the same weight. *)
Lemma walk_new_index g sub x N a q b :
  (forall a b, a < N - 1 -> b < N - 1 ->
     Weight sub a b = Weight g (old_index x a) (old_index x b)) ->
  (forall a b, (0 < Weight g a b)%Z -> a < N /\ b < N) ->
  x < N -> a < N -> a <> x -> x ∉ q -> walk (Weight g) a q b ->
  walk (Weight sub) (new_index x a) (map (new_index x) q) (new_index x b) /\
  walk_weight (Weight sub) (new_index x a) (map (new_index x) q) =
  walk_weight (Weight g) a q.
Proof.
  intros Hw HwN Hx. revert a. induction q as [|m q IH]; intros a Ha Hax Hq Hwalk.
  - simpl in *. by subst.
  - destruct Hwalk as [He Hwalk]. destruct (HwN a m He) as [_ Hm].
    apply not_elem_of_cons in Hq as [Hmx Hq].
    destruct (IH m Hm ltac:(done) Hq Hwalk) as [IH1 IH2].
    assert (Weight sub (new_index x a) (new_index x m) = Weight g a m) as Hedge.
    { rewrite Hw by (by apply new_index_lt). by rewrite !old_new_index. }
    cbn [map walk walk_weight]. rewrite Hedge, IH2. done.
Qed.

Lemma old_index_inj x a b : old_index x a = old_index x b -> a = b.
Proof. intros H. by rewrite <- (new_old_index x a), H, new_old_index. Qed.

(** What a candidate of the pair [(i, j)] is: an edge from [i] to a
    neighbour, then a shortest way to [j] in the graph without [i]. *)
Lemma pair_candidates_walk g i j pd :
  wf_graph g -> fits (NumNodes g) -> i < NumNodes g -> j < NumNodes g -> j <> i ->
  pd ∈ pair_candidates g i j ->
  exists nb p,
    Path pd = map (Name g) (i :: nb :: p) /\
    walk (Weight g) i (nb :: p) j /\
    NoDup (i :: nb :: p) /\
    pd_Distance pd = walk_weight (Weight g) i (nb :: p) /\
    forall q, walk (Weight g) nb q j -> i ∉ q ->
      (walk_weight (Weight g) nb p <= walk_weight (Weight g) nb q)%Z.
Proof.
  intros Hwf Hfits Hi Hj Hji Hpd.
  apply via_candidates_elem in Hpd as (nb & names & Hnb & Hge & Hfin & Hnames & ->).
  destruct (CopyWithoutNode_facts g i Hi)
    as (_ & HN & Hname & Hsq & Hw & _ & Hx & Hmap).
  pose proof (CopyWithoutNode_wf g i Hwf Hi) as Hwfs.
  cbn [fst snd] in *.
  destruct (Neighbors_spec g i nb Hwf Hi Hnb) as [HnbN Hedge].
  assert (nb <> i) as Hnbi by (intros ->; lia).
  destruct (Hmap nb HnbN Hnbi) as (Hnew & Hlt & Hold).
  destruct (Hmap j Hj Hji) as (Hnew' & Hlt' & Hold').
  rewrite Hnew, Hnew', !Nat2Z.id in *.
  unfold runFloydOnSubgraph in *. cbn [fst snd] in *.
  set (sub := (CopyWithoutNode g i).1) in *.
  assert (fits (NumNodes sub)) as Hfits' by (rewrite HN; by apply fits_pred).
  pose proof Hwfs as (_ & Hsqs & Hbnds & _).
  pose proof Hwf as (_ & Hsqg & Hbndg & _).
  assert (forall a b, (0 < Weight sub a b)%Z -> a < NumNodes g - 1 /\ b < NumNodes g - 1)
    as HM by (intros a b Hab; rewrite <- HN; by apply Weight_lt).
  destruct (enumeratePaths_ok sub (new_index i nb) (new_index i j) MaxViaNeighborPaths
              Hwfs Hfits' ltac:(by rewrite HN) ltac:(by rewrite HN) Hfin) as [Hgood _].
  rewrite Forall_forall in Hgood.
  destruct (Hgood names Hnames) as (p & -> & Hp & Hnd & Hall & Hwp).
  exists nb, (map (old_index i) p).
  assert (map (Name sub) (new_index i nb :: p) =
          map (Name g) (nb :: map (old_index i) p)) as Hnm.
  { rewrite <- Hold at 2. change (old_index i (new_index i nb) :: map (old_index i) p)
      with (map (old_index i) (new_index i nb :: p)).
    rewrite map_map. apply map_ext_in. intros v Hv.
    rewrite Forall_forall in Hall. apply Hname. rewrite <- HN.
    by apply Hall, list_elem_of_In. }
  pose proof (walk_old_index g sub i (NumNodes g - 1) _ _ _ Hw HM Hp) as Hwalk.
  pose proof (walk_weight_old_index g sub i (NumNodes g - 1) _ _ _ Hw HM Hp) as Hwt.
  rewrite Hold in Hwalk, Hwt. rewrite Hold' in Hwalk.
  assert (new_index i nb < NumNodes sub) as Hlts by (by rewrite HN).
  assert (new_index i j < NumNodes sub) as Hlts' by (by rewrite HN).
  destruct (floyd_dist_range sub _ _ Hwfs Hfits' Hlts Hlts') as [|Hr]; [done|].
  split_and!.
  - cbn [Path]. change (map (Name g) (i :: nb :: map (old_index i) p))
      with (Name g i :: map (Name g) (nb :: map (old_index i) p)). by rewrite Hnm.
  - by split.
  - apply NoDup_cons. split.
    + intros Hin. apply elem_of_cons in Hin as [->|Hin]; [done|].
      apply list_elem_of_In, in_map_iff in Hin as (v & Hv & _).
      by apply old_index_ne in Hv.
    + rewrite <- Hold. change (NoDup (map (old_index i) (new_index i nb :: p))).
      apply NoDup_fmap_2; [|done]. intros a b. apply old_index_inj.
  - cbn [pd_Distance walk_weight]. rewrite Hwt, Hwp.
    specialize (Hbndg i nb). pose proof (Inf_big _ Hfits'). unfold fits in Hfits.
    rewrite HN in *.
    apply wadd_small. unfold in_int, Inf in *. lia.
  - intros q Hq Hiq. rewrite Hwt, Hwp.
    destruct (walk_new_index g sub i (NumNodes g) nb q j Hw
                (fun a b => Weight_lt g a b Hsqg) Hi HnbN Hnbi Hiq Hq) as [Hq' Hwq'].
    rewrite <- Hwq'.
    destruct (floyd_dist_fw sub Hwfs Hfits') as [_ Hd].
    rewrite Hd by (by rewrite HN).
    destruct (fw_shortest (Weight sub) (NumNodes sub) Hbnds
                (fun a b => Weight_lt sub a b Hsqs) Hfits'
                (new_index i nb) (new_index i j)) as [Hmin _].
    by destruct (Hmin _ Hq').
Qed.

(** X13. Every via-neighbour path of a pair is a real path of the graph:
    an edge from the source to one of its neighbours followed by a walk to
    the destination, no node visited twice, with [Distance] the sum of the
    weights along it; and the part after the neighbour is as short as any
    walk from that neighbour to the destination that avoids the source. *)
Theorem ViaNeighborPaths_walks gj g i j pd :
  NewFromStruct gj = (Some g, None) -> fits (NumNodes g) ->
  i < NumNodes g -> j < NumNodes g ->
  pd ∈ ViaNeighborPaths
         (pair_at (Results (FillViaNeighborPaths (RunFloyd g))) (NumNodes g) i j) ->
  exists nb p,
    Path pd = map (Name g) (i :: nb :: p) /\
    walk (Weight g) i (nb :: p) j /\
    NoDup (i :: nb :: p) /\
    pd_Distance pd = walk_weight (Weight g) i (nb :: p) /\
    forall q, walk (Weight g) nb q j -> i ∉ q ->
      (walk_weight (Weight g) nb p <= walk_weight (Weight g) nb q)%Z.
Proof.
  intros Hnew Hfits Hi Hj Hpd.
  destruct (NewFromStruct_wf gj g Hnew) as (Hwf & _ & _).
  rewrite FillViaNeighborPaths_pair_at in Hpd by done. cbn [with_via ViaNeighborPaths] in Hpd.
  rewrite via_for_alt in Hpd.
  destruct (j =? i) eqn:E; bool_to_prop; [by apply elem_of_nil in Hpd|].
  destruct (dedupPathsByKey_props (pair_candidates g i j) MaxViaNeighborPaths)
    as (_ & _ & _ & _ & Hsub).
  apply Hsub in Hpd. by apply pair_candidates_walk.
Qed.

Lemma enumeratePaths_nonempty g i j maxPaths :
  wf_graph g -> fits (NumNodes g) -> i < NumNodes g -> j < NumNodes g ->
  0 < maxPaths ->
  let dist := floyd_dist g (NumNodes g) in
  let pred := build_pred g (NumNodes g) dist in
  mget dist i j <> Inf -> enumeratePaths g dist pred i j maxPaths <> [].
Proof.
  intros Hwf Hfits Hi Hj Hmax dist pred Hfin.
  pose proof Hwf as (_ & Hsq & Hbnd & _).
  destruct (floyd_dist_fw g Hwf Hfits) as [_ Hd].
  destruct (fw_shortest (Weight g) (NumNodes g) Hbnd
              (fun a b => Weight_lt g a b Hsq) Hfits i j) as [_ Hex].
  subst dist. rewrite Hd in Hfin by done. destruct (Hex Hfin) as (p & Hp & Hwp).
  rewrite <- Hd in Hwp by done.
  destruct (decide (length (enumeratePaths g (floyd_dist g (NumNodes g)) pred i j maxPaths)
                    < maxPaths)) as [Hlt|Hge].
  - destruct (enumeratePaths_complete g i j p maxPaths Hwf Hfits Hi Hj Hlt Hp Hwp)
      as (names & Hin & _).
    intros E. fold pred in Hin. rewrite E in Hin. by apply elem_of_nil in Hin.
  - intros E. rewrite E in Hge. simpl in Hge. lia.
Qed.

Lemma via_step_mono g sub oldToNew subDist subPred i newTo acc nb c :
  c ∈ acc -> c ∈ via_step g sub oldToNew subDist subPred i newTo acc nb.
Proof.
  intros Hc. unfold via_step. destruct (_ <? 0)%Z; [done|].
  destruct (_ =? Inf)%Z; [done|]. apply elem_of_app. by left.
Qed.

Lemma via_candidates_intro g sub oldToNew subDist subPred nbs i newTo nb p :
  nb ∈ nbs -> (0 <= nth nb oldToNew 0)%Z ->
  mget subDist (Z.to_nat (nth nb oldToNew 0%Z)) (Z.to_nat newTo) <> Inf ->
  p ∈ enumeratePathsOnSub sub subDist subPred (Z.to_nat (nth nb oldToNew 0%Z))
        (Z.to_nat newTo) MaxViaNeighborPaths ->
  mkPathDist (Name g i :: p)
    (wadd (Weight g i nb)
       (mget subDist (Z.to_nat (nth nb oldToNew 0%Z)) (Z.to_nat newTo)))
    ∈ via_candidates g sub oldToNew subDist subPred nbs i newTo.
Proof.
  intros Hnb Hge Hfin Hp. unfold via_candidates.
  set (c := mkPathDist _ _).
  assert (forall l acc, c ∈ acc \/ nb ∈ l ->
            c ∈ fold_left (via_step g sub oldToNew subDist subPred i newTo) l acc) as H.
  { induction l as [|n l IH]; intros acc [Hc|Hin]; cbn [fold_left].
    - done.
    - by apply elem_of_nil in Hin.
    - apply IH. left. by apply via_step_mono.
    - apply elem_of_cons in Hin as [<-|Hin]; [|apply IH; by right].
      apply IH. left. unfold via_step.
      rewrite (proj2 (Z.ltb_ge _ _) Hge), (proj2 (Z.eqb_neq _ _) Hfin).
      apply elem_of_app. right. apply list_elem_of_In, in_map_iff.
      exists p. split; [done|by apply list_elem_of_In]. }
  apply H. by right.
Qed.

Lemma dedup_loop_extends max cs result seen :
  exists ext, dedup_loop max cs result seen = result ++ ext.
Proof.
  revert result seen. induction cs as [|c cs IH]; intros result seen; cbn [dedup_loop].
  - exists []. by rewrite app_nil_r.
  - destruct (max <=? length result); [exists []; by rewrite app_nil_r|].
    destruct (bool_decide _); [apply IH|].
    destruct (IH (result ++ [c]) ({[pathKey (Path c)]} ∪ seen)) as [ext ->].
    exists (c :: ext). by rewrite <- app_assoc.
Qed.

Lemma dedup_loop_head max c cs :
  0 < max -> exists rest, dedup_loop max (c :: cs) [] ∅ = c :: rest.
Proof.
  intros Hmax. cbn [dedup_loop length].
  rewrite (proj2 (Nat.leb_gt _ _) Hmax).
  rewrite bool_decide_eq_false_2 by apply not_elem_of_empty.
  destruct (dedup_loop_extends max cs ([] ++ [c]) ({[pathKey (Path c)]} ∪ ∅)) as [ext ->].
  by exists ext.
Qed.

(** The first via-neighbour path of a reachable pair is a shortest path. *)
Lemma via_for_head g i j :
  wf_graph g -> fits (NumNodes g) -> i < NumNodes g -> j < NumNodes g -> i <> j ->
  mget (floyd_dist g (NumNodes g)) i j <> Inf ->
  exists pd rest, via_for g i j = pd :: rest /\
                  pd_Distance pd = mget (floyd_dist g (NumNodes g)) i j.
Proof.
  intros Hwf Hfits Hi Hj Hij Hfin.
  pose proof Hwf as (_ & Hsq & Hbnd & _).
  destruct (floyd_dist_fw g Hwf Hfits) as [_ Hd].
  destruct (fw_shortest (Weight g) (NumNodes g) Hbnd
              (fun a b => Weight_lt g a b Hsq) Hfits i j) as [Hmin Hex].
  rewrite Hd in * by done. destruct (Hex Hfin) as (p0 & Hp0 & Hwp0).
  destruct (walk_simple (Weight g) Hbnd i p0 j Hp0) as (q & Hq & Hnd & _ & Hle).
  destruct (Hmin q Hq) as [_ Hge].
  destruct q as [|nb t]; [simpl in Hq; done|].
  destruct Hq as [He Ht]. destruct (Weight_lt g i nb Hsq He) as [_ HnbN].
  apply NoDup_cons in Hnd as [Hnotin _].
  apply not_elem_of_cons in Hnotin as [Hinb Hit].
  assert (nb <> i) as Hnbi by done.
  pose proof (Neighbors_intro g i nb Hwf Hi HnbN He) as Hnb.
  destruct (CopyWithoutNode_facts g i Hi)
    as (_ & HN & Hname & Hsqs' & Hw & _ & Hx & Hmap).
  pose proof (CopyWithoutNode_wf g i Hwf Hi) as Hwfs.
  cbn [fst snd] in *.
  destruct (Hmap nb HnbN Hnbi) as (Hnew & Hlt & Hold).
  destruct (Hmap j Hj ltac:(done)) as (Hnew' & Hlt' & Hold').
  set (sub := (CopyWithoutNode g i).1) in *.
  assert (fits (NumNodes sub)) as Hfits' by (rewrite HN; by apply fits_pred).
  pose proof Hwfs as (_ & Hsqs & Hbnds & _).
  destruct (walk_new_index g sub i (NumNodes g) nb t j Hw
              (fun a b => Weight_lt g a b Hsq) Hi HnbN Hnbi Hit Ht) as [Ht' Hwt'].
  destruct (floyd_dist_fw sub Hwfs Hfits') as [_ Hds].
  assert (new_index i nb < NumNodes sub) as Hlts by (by rewrite HN).
  assert (new_index i j < NumNodes sub) as Hlts' by (by rewrite HN).
  destruct (fw_shortest (Weight sub) (NumNodes sub) Hbnds
              (fun a b => Weight_lt sub a b Hsqs) Hfits'
              (new_index i nb) (new_index i j)) as [Hmins _].
  destruct (Hmins _ Ht') as [Hfins Hles]. rewrite <- Hds in Hfins, Hles by done.
  destruct (floyd_dist_range sub _ _ Hwfs Hfits' Hlts Hlts') as [|Hr]; [done|].
  pose proof (enumeratePaths_nonempty sub _ _ MaxViaNeighborPaths Hwfs Hfits' Hlts Hlts'
                ltac:(unfold MaxViaNeighborPaths; lia) Hfins) as Hne.
  destruct (enumeratePaths sub _ _ _ _ _) as [|names l] eqn:Eenum; [done|]. clear Hne.
  assert (exists c0, c0 ∈ pair_candidates g i j /\
            (pd_Distance c0 <= fw (Weight g) (NumNodes g) i j)%Z) as (c0 & Hc0 & Hc0le).
  { eexists. split.
    - unfold pair_candidates.
      apply (via_candidates_intro g sub _ _ _ (Neighbors g i) i _ nb names Hnb).
      + fold sub. rewrite Hnew. lia.
      + rewrite Hnew, Hnew', !Nat2Z.id. unfold runFloydOnSubgraph. cbn [fst]. done.
      + rewrite Hnew, Hnew', !Nat2Z.id. unfold runFloydOnSubgraph. cbn [fst snd].
        change (names ∈ enumeratePaths sub (floyd_dist sub (NumNodes sub))
                  (build_pred sub (NumNodes sub) (floyd_dist sub (NumNodes sub)))
                  (new_index i nb) (new_index i j) MaxViaNeighborPaths).
        rewrite Eenum. left.
    - cbn [pd_Distance]. rewrite Hnew, Hnew', !Nat2Z.id.
      unfold runFloydOnSubgraph. cbn [fst].
      specialize (Hbnd i nb). pose proof (Inf_big _ Hfits'). unfold fits in Hfits.
      fold sub. rewrite wadd_small.
      2:{ rewrite HN in *. unfold in_int, Inf in *. lia. }
      cbn [walk_weight] in Hle, Hge. lia. }
  rewrite via_for_alt. rewrite (proj2 (Nat.eqb_neq j i)) by done.
  rewrite dedupPathsByKey_spec.
  destruct (sort_by_distance_sorted (pair_candidates g i j)) as [Hperm Hsorted].
  assert (c0 ∈ sort_by_distance (pair_candidates g i j)) as Hc0s by (by rewrite Hperm).
  destruct (sort_by_distance (pair_candidates g i j)) as [|h tl] eqn:Es;
    [by apply elem_of_nil in Hc0s|].
  destruct (dedup_loop_head MaxViaNeighborPaths h tl
              ltac:(unfold MaxViaNeighborPaths; lia)) as [rest ->].
  exists h, rest. split; [done|].
  assert (h ∈ pair_candidates g i j) as Hh by (rewrite <- Hperm; left).
  destruct (pair_candidates_walk g i j h Hwf Hfits Hi Hj ltac:(done) Hh)
    as (nb' & p' & _ & Hwalk' & _ & Hdh & _).
  destruct (Hmin _ Hwalk') as [_ Hge'].
  assert (pd_Distance h <= pd_Distance c0)%Z.
  { apply elem_of_cons in Hc0s as [->|Hin]; [lia|].
    apply StronglySorted_inv in Hsorted as [_ Hall]. rewrite Forall_forall in Hall.
    by apply Hall. }
  lia.
Qed.

Lemma Distance_pair_result g i j :
  wf_graph g -> fits (NumNodes g) -> i < NumNodes g -> j < NumNodes g ->
  let dist := floyd_dist g (NumNodes g) in
  (Distance (pair_result g dist (build_pred g (NumNodes g) dist) i j) = (-1)%Z <->
   mget dist i j = Inf) /\
  (mget dist i j <> Inf ->
   Distance (pair_result g dist (build_pred g (NumNodes g) dist) i j) = mget dist i j).
Proof.
  intros Hwf Hfits Hi Hj dist. unfold pair_result.
  destruct (mget dist i j =? Inf)%Z eqn:E; bool_to_prop; cbn [Distance].
  - split; [done|]. by intros [].
  - split; [|done]. split; [|done]. intros Hm.
    destruct (floyd_dist_range g i j Hwf Hfits Hi Hj) as [|Hr]; [done|].
    fold dist in Hr. lia.
Qed.

(** X14. For two distinct nodes with a finite distance the list of
    via-neighbour paths is not empty and its first entry is a shortest path:
    its distance is the pair's [Distance]. *)
Theorem ViaNeighborPaths_best gj g i j :
  NewFromStruct gj = (Some g, None) -> fits (NumNodes g) ->
  i < NumNodes g -> j < NumNodes g -> i <> j ->
  let pr := pair_at (Results (FillViaNeighborPaths (RunFloyd g))) (NumNodes g) i j in
  Distance pr <> (-1)%Z ->
  exists pd rest, ViaNeighborPaths pr = pd :: rest /\ pd_Distance pd = Distance pr.
Proof.
  intros Hnew Hfits Hi Hj Hij pr. subst pr.
  destruct (NewFromStruct_wf gj g Hnew) as (Hwf & _ & _).
  rewrite FillViaNeighborPaths_pair_at, pair_at_RunFloyd by done.
  cbn [with_via ViaNeighborPaths Distance]. intros Hfin.
  destruct (Distance_pair_result g i j Hwf Hfits Hi Hj) as [Hiff Heq].
  assert (mget (floyd_dist g (NumNodes g)) i j <> Inf) as Hfin' by tauto.
  rewrite (Heq Hfin').
  by apply via_for_head.
Qed.

(** X15. A pair has no via-neighbour path exactly when the source is the
    destination or the destination cannot be reached. *)
Theorem ViaNeighborPaths_empty_iff gj g i j :
  NewFromStruct gj = (Some g, None) -> fits (NumNodes g) ->
  i < NumNodes g -> j < NumNodes g ->
  let pr := pair_at (Results (FillViaNeighborPaths (RunFloyd g))) (NumNodes g) i j in
  ViaNeighborPaths pr = [] <-> i = j \/ Distance pr = (-1)%Z.
Proof.
  intros Hnew Hfits Hi Hj pr. subst pr.
  destruct (NewFromStruct_wf gj g Hnew) as (Hwf & _ & _).
  rewrite FillViaNeighborPaths_pair_at, pair_at_RunFloyd by done.
  cbn [with_via ViaNeighborPaths Distance].
  destruct (Distance_pair_result g i j Hwf Hfits Hi Hj) as [Hiff Heq].
  split.
  - intros Hnil. destruct (decide (i = j)) as [|Hij]; [by left|]. right.
    apply Hiff. destruct (decide (mget (floyd_dist g (NumNodes g)) i j = Inf)) as [|Hfin];
      [done|].
    destruct (via_for_head g i j Hwf Hfits Hi Hj Hij Hfin) as (pd & rest & E & _).
    by rewrite E in Hnil.
  - intros [->|Hun].
    + unfold via_for. by rewrite Nat.eqb_refl.
    + destruct (decide (i = j)) as [->|Hij].
      { unfold via_for. by rewrite Nat.eqb_refl. }
      rewrite via_for_alt, (proj2 (Nat.eqb_neq j i)) by done.
      rewrite pair_candidates_unreachable; try done.
      intros [p Hp].
      destruct (proj1 (floyd_row_shortest g i Hwf Hfits Hi) p j Hp) as [Hfin _].
      apply Hfin. by apply Hiff.
Qed.

Lemma StronglySorted_app_le {A} (R : A -> A -> Prop) l1 l2 a b :
  StronglySorted R (l1 ++ l2) -> a ∈ l1 -> b ∈ l2 -> R a b.
Proof.
  induction l1 as [|x l1 IH]; intros Hs Ha Hb; [by apply elem_of_nil in Ha|].
  cbn [app] in Hs. apply StronglySorted_inv in Hs as [Hs Hall].
  apply elem_of_cons in Ha as [->|Ha]; [|by apply IH].
  rewrite List.Forall_forall in Hall. apply Hall, in_app_iff. right.
  by apply list_elem_of_In.
Qed.

Lemma StronglySorted_app_drop {A} (R : A -> A -> Prop) l1 x l2 :
  StronglySorted R (l1 ++ x :: l2) -> StronglySorted R (l1 ++ l2).
Proof.
  apply StronglySorted_sublist. apply sublist_app; [done|]. by apply sublist_cons.
Qed.

(** The second loop of [dedupPathsByKey] on a sorted list: a candidate is
    either represented in the result by an entry with its key that is no
    longer than it, or the result is full and holds nothing longer. *)
Lemma dedup_loop_complete max cs result seen :
  (forall k, k ∈ seen <-> exists c', c' ∈ result /\ pathKey (Path c') = k) ->
  StronglySorted by_distance (result ++ cs) ->
  forall c, c ∈ cs ->
    (exists c', c' ∈ dedup_loop max cs result seen /\
                pathKey (Path c') = pathKey (Path c) /\
                (pd_Distance c' <= pd_Distance c)%Z) \/
    (max <= length (dedup_loop max cs result seen) /\
     forall c', c' ∈ dedup_loop max cs result seen ->
                (pd_Distance c' <= pd_Distance c)%Z).
Proof.
  revert result seen. induction cs as [|c0 cs IH]; intros result seen Hseen Hs c Hc;
    [by apply elem_of_nil in Hc|].
  cbn [dedup_loop]. destruct (max <=? length result) eqn:E; bool_to_prop.
  { right. split; [done|]. intros c' Hc'.
    by apply (StronglySorted_app_le by_distance result (c0 :: cs)). }
  case_bool_decide as Hkey.
  - apply elem_of_cons in Hc as [->|Hc].
    + left. apply Hseen in Hkey as (c' & Hc' & Hk). exists c'. split_and!; [|done|].
      * destruct (dedup_loop_extends max cs result seen) as [ext ->].
        apply elem_of_app. by left.
      * apply (StronglySorted_app_le by_distance result (c0 :: cs)); [done|done|left].
    + apply IH; [done| |done]. by eapply StronglySorted_app_drop.
  - assert (forall k, k ∈ ({[pathKey (Path c0)]} ∪ seen : gset string) <->
              exists c', c' ∈ result ++ [c0] /\ pathKey (Path c') = k) as Hseen'.
    { intros k. rewrite elem_of_union, elem_of_singleton, Hseen. split.
      - intros [->|(c' & Hc' & Hk)].
        + exists c0. split; [|done]. apply elem_of_app. right. left.
        + exists c'. split; [|done]. apply elem_of_app. by left.
      - intros (c' & Hc' & Hk). apply elem_of_app in Hc' as [Hc'|Hc'].
        + right. by exists c'.
        + apply list_elem_of_singleton in Hc'. subst. by left. }
    apply elem_of_cons in Hc as [->|Hc].
    + left. exists c0. split_and!; [|done|unfold by_distance; lia].
      destruct (dedup_loop_extends max cs (result ++ [c0])
                  ({[pathKey (Path c0)]} ∪ seen)) as [ext ->].
      apply elem_of_app. left. apply elem_of_app. right. left.
    + apply IH; [done| |done]. by rewrite <- app_assoc.
Qed.

Lemma dedup_loop_keys max cs result seen :
  NoDup (map (fun c => pathKey (Path c)) result) ->
  (forall c, c ∈ result -> pathKey (Path c) ∈ seen) ->
  NoDup (map (fun c => pathKey (Path c)) (dedup_loop max cs result seen)).
Proof.
  revert result seen. induction cs as [|c cs IH]; intros result seen Hnd Hseen;
    cbn [dedup_loop]; [done|].
  destruct (max <=? length result); [done|].
  case_bool_decide as Hkey; [by apply IH|]. apply IH.
  - rewrite map_app. apply NoDup_app. split_and!; [done| |apply NoDup_singleton].
    intros p Hp Hp'. apply list_elem_of_singleton in Hp'. subst.
    apply list_elem_of_In, in_map_iff in Hp as (c' & Heq & Hc').
    apply Hkey. rewrite <- Heq. by apply Hseen, list_elem_of_In.
  - intros c' Hc'. apply elem_of_app in Hc' as [Hc'|Hc'].
    + apply elem_of_union. right. by apply Hseen.
    + apply list_elem_of_singleton in Hc'. subst. apply elem_of_union. left.
      by apply elem_of_singleton.
Qed.

(** X16. [dedupPathsByKey] keeps the [max] shortest candidates with distinct
    keys: no two kept entries share a key, and every candidate either has
    its key kept on an entry that is no longer than it, or was cut by the
    cap, the result then being full and holding nothing longer than it. *)
Theorem dedupPathsByKey_top cands max c :
  c ∈ cands ->
  let r := dedupPathsByKey cands max in
  NoDup (map (fun c => pathKey (Path c)) r) /\
  ((exists c', c' ∈ r /\ pathKey (Path c') = pathKey (Path c) /\
               (pd_Distance c' <= pd_Distance c)%Z) \/
   (length r = max /\ forall c', c' ∈ r -> (pd_Distance c' <= pd_Distance c)%Z)).
Proof.
  intros Hc r.
  destruct (dedupPathsByKey_props cands max) as (_ & _ & _ & Hlen & _). fold r in Hlen.
  subst r. rewrite dedupPathsByKey_spec in *.
  destruct (sort_by_distance_sorted cands) as [Hperm Hsorted].
  split.
  - apply dedup_loop_keys; [constructor|]. intros c' Hc'. by apply elem_of_nil in Hc'.
  - destruct (dedup_loop_complete max (sort_by_distance cands) [] ∅) with (c := c)
      as [Hl|[Hfull Hr]].
    + intros k. split; [intros Hk; by apply not_elem_of_empty in Hk|].
      intros (c' & Hc' & _). by apply elem_of_nil in Hc'.
    + done.
    + by rewrite Hperm.
    + by left.
    + right. split; [lia|done].
Qed.

Lemma filled_names g rs a b :
  filled g rs -> a < NumNodes g -> b < NumNodes g ->
  From (pair_at rs (NumNodes g) a b) = Name g a /\
  To (pair_at rs (NumNodes g) a b) = Name g b.
Proof.
  intros [_ H] Ha Hb. rewrite H by done. apply pair_result_names.
Qed.

Lemma filled_fill_to g n m rs :
  wf_graph g -> n < NumNodes g -> m < NumNodes g ->
  length (Neighbors g n) <> 0 ->
  filled g rs ->
  fill_to g (CopyWithoutNode g n).1 (CopyWithoutNode g n).2
    (runFloydOnSubgraph (CopyWithoutNode g n).1).1
    (runFloydOnSubgraph (CopyWithoutNode g n).1).2
    (Neighbors g n) n rs m = rs.
Proof.
  intros Hwf Hn Hm Hnb Hst. unfold fill_to.
  destruct (m =? n) eqn:E; bool_to_prop; [done|].
  destruct (CopyWithoutNode_facts g n Hn) as (_ & _ & _ & _ & _ & _ & _ & Hmap).
  destruct (Hmap m Hm E) as (Hnew & _ & _). rewrite Hnew.
  destruct (_ <? 0)%Z eqn:E'; bool_to_prop; [lia|]. rewrite <- Hnew.
  pose proof Hwf as (Hnd & _). pose proof Hst as [Hlen Hc].
  rewrite (set_via_first rs _ _ _ (n * NumNodes g + m)).
  - apply list_insert_id.
    rewrite (lookup_nth rs _ dflt_pr) by (rewrite Hlen; by apply pair_index_lt).
    f_equal. change (nth (n * NumNodes g + m) rs dflt_pr)
      with (pair_at rs (NumNodes g) n m).
    rewrite Hc by done. rewrite with_via_with_via. f_equal. unfold via_for.
    rewrite (proj2 (Nat.eqb_neq _ _) E), (proj2 (Nat.eqb_neq _ _) Hnb). done.
  - rewrite Hlen. by apply pair_index_lt.
  - destruct (filled_names g rs n m Hst Hn Hm) as [HF HT]. unfold pair_at in HF, HT.
    unfold names_match. rewrite HF, HT. by rewrite !String.eqb_refl.
  - intros k' Hk'. set (N := NumNodes g) in *.
    assert (0 < N) as HN by lia.
    assert (k' = (k' / N) * N + k' mod N) as Hdm.
    { pose proof (Nat.div_mod_eq k' N). lia. }
    assert (k' mod N < N) as Hmod by (apply Nat.mod_upper_bound; lia).
    assert (k' / N < N) as Hdiv.
    { apply Nat.Div0.div_lt_upper_bound. pose proof (pair_index_lt N n m Hn Hm). lia. }
    destruct (filled_names g rs (k' / N) (k' mod N) Hst Hdiv Hmod) as [HF HT].
    unfold pair_at in HF, HT. fold N in HF, HT. rewrite <- Hdm in HF, HT.
    unfold names_match. rewrite HF, HT.
    destruct (String.eqb_spec (Name g (k' / N)) (Name g n)) as [E1|E1]; [|done].
    destruct (String.eqb_spec (Name g (k' mod N)) (Name g m)) as [E2|E2]; [|done].
    apply Name_inj in E1; [|done..]. apply Name_inj in E2; [|done..].
    exfalso. rewrite E1, E2 in Hdm. lia.
Qed.

Lemma filled_fill_from g n rs :
  wf_graph g -> n < NumNodes g -> filled g rs -> fill_from g (NumNodes g) rs n = rs.
Proof.
  intros Hwf Hn Hst. unfold fill_from.
  destruct (_ =? 0) eqn:E; bool_to_prop; [done|].
  assert (forall m, m <= NumNodes g ->
            fold_left (fill_to g (CopyWithoutNode g n).1 (CopyWithoutNode g n).2
                   (runFloydOnSubgraph (CopyWithoutNode g n).1).1
                   (runFloydOnSubgraph (CopyWithoutNode g n).1).2
                   (Neighbors g n) n) (seq 0 m) rs = rs) as Hfold.
  { induction m as [|m IH]; intros Hm; [done|].
    rewrite fold_left_seq_S, IH by lia. apply filled_fill_to; auto with lia. }
  by apply Hfold.
Qed.

Lemma filled_Results g :
  wf_graph g -> filled g (Results (FillViaNeighborPaths (RunFloyd g))).
Proof.
  intros Hwf. split; [apply length_Results_Fill|].
  intros a b Ha Hb. rewrite FillViaNeighborPaths_pair_at, pair_at_RunFloyd by done.
  done.
Qed.

(** X17. [FillViaNeighborPaths] is idempotent: a second call on the result
    of the first changes nothing. *)
Theorem FillViaNeighborPaths_idempotent gj g :
  NewFromStruct gj = (Some g, None) ->
  FillViaNeighborPaths (FillViaNeighborPaths (RunFloyd g)) =
  FillViaNeighborPaths (RunFloyd g).
Proof.
  intros Hnew. destruct (NewFromStruct_wf gj g Hnew) as (Hwf & _ & _).
  pose proof (filled_Results g Hwf) as Hst.
  set (r := FillViaNeighborPaths (RunFloyd g)) in *.
  unfold FillViaNeighborPaths at 1.
  change (r_g r) with g. change (r_dist r) with (r_dist (RunFloyd g)).
  change (r_pred r) with (r_pred (RunFloyd g)).
  assert (forall n, n <= NumNodes g ->
            fold_left (fill_from g (NumNodes g)) (seq 0 n) (Results r) = Results r)
    as Hfold.
  { induction n as [|n IH]; intros Hn; [done|].
    rewrite fold_left_seq_S, IH by lia. apply filled_fill_from; auto with lia. }
  rewrite Hfold by done. done.
Qed.

(** ** The further properties at work on Scenario A *)

Lemma NewFromStruct_index_order_witness :
  Nodes graph_A !! length (remove_dups ["A"%string]) = Some "B"%string /\
  Index graph_A "B" = (length (remove_dups ["A"%string]), true).
Proof.
  apply (NewFromStruct_index_order scenario_A graph_A ["A"%string] "B"%string
           ["C"; "A"; "B"; "B"; "A"; "A"; "C"; "B"; "C"]%string).
  - vm_compute. reflexivity.
  - vm_compute. reflexivity.
  - intros H. apply list_elem_of_singleton in H. discriminate H.
Defined.

Lemma Index_Name_roundtrip_witness :
  (forall i, i < NumNodes graph_A -> Index graph_A (Name graph_A i) = (i, true)) /\
  (forall name i, Index graph_A name = (i, true) ->
     i < NumNodes graph_A /\ Name graph_A i = name) /\
  (forall name, name ∉ Nodes graph_A <-> Index graph_A name = (0, false)).
Proof.
  apply (Index_Name_roundtrip graph_A). exact graph_A_wf.
Defined.

Lemma NewFromStruct_edge_weight_witness :
  (forall es1 e es2, gj_Edges scenario_A = es1 ++ e :: es2 ->
     (forall e', e' ∈ es2 -> ~ (e_From e' = e_From e /\ e_To e' = e_To e)) ->
     exists i j, Index graph_A (e_From e) = (i, true) /\
                 Index graph_A (e_To e) = (j, true) /\
                 Weight graph_A i j = e_Weight e) /\
  (forall i j, (0 < Weight graph_A i j)%Z ->
     exists e, e ∈ gj_Edges scenario_A /\ e_From e = Name graph_A i /\
               e_To e = Name graph_A j /\ e_Weight e = Weight graph_A i j).
Proof.
  apply (NewFromStruct_edge_weight scenario_A graph_A).
  vm_compute. reflexivity.
Defined.

Lemma Neighbors_ascending_witness :
  (forall j, j ∈ Neighbors graph_A 0 <->
     j < NumNodes graph_A /\ (0 < Weight graph_A 0 j)%Z) /\
  StronglySorted lt (Neighbors graph_A 0).
Proof.
  apply (Neighbors_ascending graph_A 0).
  - exact graph_A_wf.
  - vm_compute. lia.
Defined.

Lemma CopyWithoutNode_Index_witness :
  Index (CopyWithoutNode graph_A 1).1 (Name graph_A 1) = (0, false) /\
  forall i, i < NumNodes graph_A -> i <> 1 ->
    (0 <= nth i (CopyWithoutNode graph_A 1).2 0)%Z /\
    Index (CopyWithoutNode graph_A 1).1 (Name graph_A i) =
      (Z.to_nat (nth i (CopyWithoutNode graph_A 1).2 0%Z), true).
Proof.
  apply (CopyWithoutNode_Index graph_A 1).
  - exact graph_A_wf.
  - vm_compute. lia.
Defined.

Lemma findResult_by_names_witness :
  let rs := Results (FillViaNeighborPaths (RunFloyd graph_A)) in
  length rs = NumNodes graph_A * NumNodes graph_A /\
  (forall i j, i < NumNodes graph_A -> j < NumNodes graph_A ->
     findResult rs (Name graph_A i) (Name graph_A j) =
       Some (pair_at rs (NumNodes graph_A) i j) /\
     From (pair_at rs (NumNodes graph_A) i j) = Name graph_A i /\
     To (pair_at rs (NumNodes graph_A) i j) = Name graph_A j) /\
  (forall a b, a ∉ Nodes graph_A \/ b ∉ Nodes graph_A -> findResult rs a b = None).
Proof.
  apply (findResult_by_names scenario_A graph_A).
  vm_compute. reflexivity.
Defined.

Lemma Distance_triangle_witness :
  let d a b := Distance (pair_at (Results (RunFloyd graph_A)) (NumNodes graph_A) a b) in
  d 1 2 <> (-1)%Z /\ (d 1%nat 2%nat <= d 1%nat 0%nat + d 0%nat 2%nat)%Z.
Proof.
  apply (Distance_triangle scenario_A graph_A 1 0 2).
  - vm_compute. reflexivity.
  - vm_compute. reflexivity.
  - vm_compute. lia.
  - vm_compute. lia.
  - vm_compute. lia.
  - vm_compute. discriminate.
  - vm_compute. discriminate.
Defined.

Lemma Distance_bounds_witness :
  let d := Distance (pair_at (Results (RunFloyd graph_A)) (NumNodes graph_A) 0 2) in
  (d <> (-1)%Z -> (1 <= d <= 1000 * (Z.of_nat (NumNodes graph_A) - 1))%Z) /\
  ((0 < Weight graph_A 0 2)%Z -> d <> (-1)%Z /\ (d <= Weight graph_A 0 2)%Z).
Proof.
  apply (Distance_bounds scenario_A graph_A 0 2).
  - vm_compute. reflexivity.
  - vm_compute. reflexivity.
  - vm_compute. lia.
  - vm_compute. lia.
  - lia.
Defined.

Lemma pathKey_inj_witness :
  Forall plain_name ["A"; "B"]%string /\ ["A"; "B"]%string = ["A"; "B"]%string.
Proof.
  assert (Forall plain_name ["A"; "B"]%string) as H
    by (repeat constructor; vm_compute; discriminate).
  split; [exact H|].
  apply (pathKey_inj ["A"; "B"]%string ["A"; "B"]%string H H).
  vm_compute. reflexivity.
Defined.

Lemma Paths_exhaustive_witness :
  let pr := pair_at (Results (RunFloyd graph_A)) (NumNodes graph_A) 0 2 in
  (exists names, names ∈ Paths pr /\
                 pathKey names = pathKey (map (Name graph_A) (0 :: [1; 2]))) /\
  (Forall plain_name (Nodes graph_A) -> map (Name graph_A) (0 :: [1; 2]) ∈ Paths pr).
Proof.
  apply (Paths_exhaustive scenario_A graph_A 0 2 [1; 2]).
  - vm_compute. reflexivity.
  - vm_compute. reflexivity.
  - vm_compute. lia.
  - vm_compute. lia.
  - vm_compute. lia.
  - vm_compute. repeat split; reflexivity.
  - vm_compute. reflexivity.
Defined.

Lemma Paths_nonempty_witness :
  Paths (pair_at (Results (RunFloyd graph_A)) (NumNodes graph_A) 0 2) <> [].
Proof.
  apply (Paths_nonempty scenario_A graph_A 0 2).
  - vm_compute. reflexivity.
  - vm_compute. reflexivity.
  - vm_compute. lia.
  - vm_compute. lia.
  - vm_compute. discriminate.
Defined.

Lemma pred_characterization_witness :
  let dist := r_dist (RunFloyd graph_A) in
  let pred := r_pred (RunFloyd graph_A) in
  (1 ∈ pget pred 0 2 <->
   0 <> 2 /\ 1 < NumNodes graph_A /\ 1 <> 0 /\ (0 < Weight graph_A 1 2)%Z /\
   mget dist 0 1 <> Inf /\ (mget dist 0 1 + Weight graph_A 1 2 = mget dist 0 2)%Z) /\
  StronglySorted lt (pget pred 0 2).
Proof.
  apply (pred_characterization scenario_A graph_A 0 2 1).
  - vm_compute. reflexivity.
  - vm_compute. reflexivity.
  - vm_compute. lia.
  - vm_compute. lia.
Defined.

Lemma ViaNeighborPaths_walks_witness :
  exists nb p,
    Path (mkPathDist ["A"; "B"; "C"]%string 70) = map (Name graph_A) (0 :: nb :: p) /\
    walk (Weight graph_A) 0 (nb :: p) 2 /\
    NoDup (0 :: nb :: p) /\
    pd_Distance (mkPathDist ["A"; "B"; "C"]%string 70) =
      walk_weight (Weight graph_A) 0 (nb :: p) /\
    forall q, walk (Weight graph_A) nb q 2 -> 0 ∉ q ->
      (walk_weight (Weight graph_A) nb p <= walk_weight (Weight graph_A) nb q)%Z.
Proof.
  apply (ViaNeighborPaths_walks scenario_A graph_A 0 2).
  - vm_compute. reflexivity.
  - vm_compute. reflexivity.
  - vm_compute. lia.
  - vm_compute. lia.
  - apply list_elem_of_lookup. exists 0. vm_compute. reflexivity.
Defined.

Lemma ViaNeighborPaths_best_witness :
  let pr := pair_at (Results (FillViaNeighborPaths (RunFloyd graph_A)))
              (NumNodes graph_A) 0 2 in
  exists pd rest, ViaNeighborPaths pr = pd :: rest /\ pd_Distance pd = Distance pr.
Proof.
  apply (ViaNeighborPaths_best scenario_A graph_A 0 2).
  - vm_compute. reflexivity.
  - vm_compute. reflexivity.
  - vm_compute. lia.
  - vm_compute. lia.
  - lia.
  - vm_compute. discriminate.
Defined.

Lemma ViaNeighborPaths_empty_iff_witness :
  let pr := pair_at (Results (FillViaNeighborPaths (RunFloyd graph_A)))
              (NumNodes graph_A) 2 0 in
  ViaNeighborPaths pr = [] <-> 2 = 0 \/ Distance pr = (-1)%Z.
Proof.
  apply (ViaNeighborPaths_empty_iff scenario_A graph_A 2 0).
  - vm_compute. reflexivity.
  - vm_compute. reflexivity.
  - vm_compute. lia.
  - vm_compute. lia.
Defined.

Lemma dedupPathsByKey_top_witness :
  let cands := [mkPathDist ["S"; "A"; "D"]%string 5; mkPathDist ["S"; "B"; "D"]%string 3;
                mkPathDist ["S"; "A"; "D"]%string 5] in
  let c := mkPathDist ["S"; "B"; "D"]%string 3 in
  let r := dedupPathsByKey cands 1 in
  NoDup (map (fun c => pathKey (Path c)) r) /\
  ((exists c', c' ∈ r /\ pathKey (Path c') = pathKey (Path c) /\
               (pd_Distance c' <= pd_Distance c)%Z) \/
   (length r = 1 /\ forall c', c' ∈ r -> (pd_Distance c' <= pd_Distance c)%Z)).
Proof.
  apply (dedupPathsByKey_top
           [mkPathDist ["S"; "A"; "D"]%string 5; mkPathDist ["S"; "B"; "D"]%string 3;
            mkPathDist ["S"; "A"; "D"]%string 5]
           1 (mkPathDist ["S"; "B"; "D"]%string 3)).
  right. left.
Defined.

Lemma FillViaNeighborPaths_idempotent_witness :
  FillViaNeighborPaths (FillViaNeighborPaths (RunFloyd graph_A)) =
  FillViaNeighborPaths (RunFloyd graph_A).
Proof.
  apply (FillViaNeighborPaths_idempotent scenario_A graph_A).
  vm_compute. reflexivity.
Defined.
